(** * Non-negative matrix factorisation by projected gradients (package nmf)

    A shallow embedding of [nmf.go]: the two functions [Factors] and
    [nnlsSubproblem], written in a state-and-panic monad over a heap of
    [mat64.Dense] objects, together with a value-level reading of the same
    code and the simulation linking the two. *)

From Stdlib Require Import Floats ZArith List Lia Bool.
From stdpp Require Import base option list.
Import ListNotations.

Set Warnings "-inexact-float,-clear-no-such-hyp".
Set Default Proof Using "Type".

(** ** float64

    Go's [float64] is IEEE 754 binary64, which is Rocq's primitive [float];
    the arithmetic of the program is the primitive arithmetic. *)

Module f64.

Definition zero : float := 0%float.

(** [v > 0] and [v < 0] of the source. *)
Definition gt0 (v : float) : bool := (0 <? v)%float.
Definition lt0 (v : float) : bool := (v <? 0)%float.

(** [0 <= v]: the meaning of "non-negative" for an entry. *)
Definition nonneg (v : float) : Prop := (0 <=? v)%float = true.

(** [math.Max], with the special cases of the Go documentation. *)
Definition Max (x y : float) : float :=
  if (is_infinity x && negb (get_sign x)) || (is_infinity y && negb (get_sign y))
  then infinity
  else if is_nan x || is_nan y then nan
  else if (x =? 0)%float && (x =? y)%float then (if get_sign x then y else x)
  else if (y <? x)%float then x else y.

(** [math.Sqrt]. *)
Definition Sqrt (x : float) : float := PrimFloat.sqrt x.

Lemma gt0_nonneg v : gt0 v = true -> nonneg v.
Proof.
  unfold gt0, nonneg. rewrite ltb_spec, leb_spec.
  unfold SFltb, SFleb. destruct (SFcompare _ _) as [[]|]; congruence.
Qed.

Lemma zero_nonneg : nonneg zero.
Proof. reflexivity. Qed.

End f64.

(** ** Dense matrices as values

    A [mat64.Dense] holds its dimensions and its entries in row-major order
    (the stride of every matrix the program builds equals its number of
    columns). *)

Record Dense : Type := mkDense { Rows : nat; Cols : nat; Data : list float }.

Module matrix.

(** The zero value of [mat64.Dense]. *)
Definition empty : Dense := mkDense 0 0 [].

Definition wf (m : Dense) : Prop := length (Data m) = Rows m * Cols m.

Definition Dims (m : Dense) : nat * nat := (Rows m, Cols m).

(** [m.At(r, c)]; an index out of range panics. *)
Definition At (m : Dense) (r c : nat) : option float :=
  if (r <? Rows m)%nat && (c <? Cols m)%nat then Data m !! (r * Cols m + c)%nat
  else None.

(** Fill an [r]x[c] matrix entry by entry, row by row; a panicking entry
    makes the whole operation panic. *)
Definition tabulate (r c : nat) (f : nat -> nat -> option float) : option Dense :=
  rows ← mapM (fun i => mapM (f i) (seq 0 c)) (seq 0 r);
  Some (mkDense r c (mjoin rows)).

Definition same_dims (a b : Dense) : bool :=
  (Rows a =? Rows b)%nat && (Cols a =? Cols b)%nat.

Definition zeros (r c : nat) : Dense := mkDense r c (replicate (r * c) f64.zero).

Definition clone (a : Dense) : option Dense :=
  tabulate (Rows a) (Cols a) (At a).

Definition transpose (a : Dense) : option Dense :=
  tabulate (Cols a) (Rows a) (fun i j => At a j i).

Definition zipWith (op : float -> float -> float) (a b : Dense) : option Dense :=
  if same_dims a b
  then tabulate (Rows a) (Cols a)
         (fun i j => x ← At a i j; y ← At b i j; Some (op x y))
  else None.

Definition sub : Dense -> Dense -> option Dense := zipWith PrimFloat.sub.
Definition mulElem : Dense -> Dense -> option Dense := zipWith PrimFloat.mul.

Definition scale (f : float) (a : Dense) : option Dense :=
  tabulate (Rows a) (Cols a) (fun i j => x ← At a i j; Some (f * x)%float).

Definition apply (f : nat -> nat -> float -> option float) (a : Dense) :
  option Dense :=
  tabulate (Rows a) (Cols a) (fun i j => x ← At a i j; f i j x).

(** Sum of a list of floats, left to right from 0. *)
Definition fsum (l : list float) : float :=
  fold_left PrimFloat.add l f64.zero.

Definition dot (a b : Dense) (i j : nat) : option float :=
  ps ← mapM (fun k => x ← At a i k; y ← At b k j; Some (x * y)%float)
            (seq 0 (Cols a));
  Some (fsum ps).

Definition mul (a b : Dense) : option Dense :=
  if (Cols a =? Rows b)%nat then tabulate (Rows a) (Cols b) (dot a b)
  else None.

(** [a] on top of [b]. *)
Definition stack (a b : Dense) : option Dense :=
  if (Cols a =? Cols b)%nat
  then tabulate (Rows a + Rows b) (Cols a)
         (fun i j => if (i <? Rows a)%nat then At a i j else At b (i - Rows a) j)
  else None.

Definition sum (a : Dense) : float := fsum (Data a).

Definition sumsq (acc : float) (l : list float) : float :=
  fold_left (fun p v => p + v * v)%float l acc.

(** [Norm(0)]: the Frobenius norm. *)
Definition norm (a : Dense) : float := f64.Sqrt (sumsq f64.zero (Data a)).

Definition equals (a b : Dense) : bool :=
  same_dims a b &&
  forallb (fun xy => (fst xy =? snd xy)%float) (combine (Data a) (Data b)).

Definition nonneg (m : Dense) : Prop := Forall f64.nonneg (Data m).

End matrix.

(** ** The heap, the clock and the monad

    A pointer [*mat64.Dense] is an index into the heap. A cell holds a whole
    matrix: the program's one struct copy, [*gW = gWT], copies from a
    variable that is dead afterwards, so two cells never share entries.
    [time.Now()] reads an oracle: the [n]-th call returns [clock n]
    (nanoseconds). The trace is ghost state recording the events the
    claims speak about. *)

Definition ptr : Type := nat.

Inductive event : Type :=
| SolveBegin
    (** [nnlsSubproblem] was entered. *)
| LineSearchAccept (reduce : bool) (j : Z)
    (** inner iteration [j] left the line search by assigning [H]:
        [H = &Hn] in reduce mode, [H = Hp] in expand mode. *)
| SolveEnd (ok : bool)
    (** [nnlsSubproblem] returned with this [ok]. *).

(** What a computation sees besides the heap. *)
Record env : Type := mkEnv {
  clock : nat -> Z;
  ticks : nat;
  trace : list event
}.

(** The heap: its cells and, as ghost state, the pointers written so far
    (allocating a cell is not a write). *)
Record store : Type := mkStore {
  cells : list Dense;
  writes : list ptr
}.

Record world : Type := mkWorld {
  heap : store;
  wenv : env
}.

Definition env_emit (e : event) (v : env) : env :=
  mkEnv (clock v) (ticks v) (trace v ++ [e]).

Definition env_tick (v : env) : env :=
  mkEnv (clock v) (S (ticks v)) (trace v).

(** A computation over a state [S] either panics ([None]) or returns a
    value and a state. [M] is the monad of the program; [MV] is the monad of
    its value-level reading, which has no heap. *)
Definition ST (S A : Type) : Type := S -> option (A * S).

#[global] Instance ST_ret {S} : MRet (ST S) := fun A a s => Some (a, s).
#[global] Instance ST_bind {S} : MBind (ST S) := fun A B f m s =>
  match m s with
  | Some (a, s') => f a s'
  | None => None
  end.

Abbreviation M := (ST world).
Abbreviation MV := (ST env).

Definition lift {S A} (o : option A) : ST S A := fun s =>
  match o with Some a => Some (a, s) | None => None end.

Definition emitV (e : event) : MV unit := fun v => Some (tt, env_emit e v).

(** [time.Now()] *)
Definition timeNowV : MV Z := fun v => Some (clock v (ticks v), env_tick v).

Definition inEnv {A} (f : MV A) : M A := fun w =>
  match f (wenv w) with
  | Some (a, v) => Some (a, mkWorld (heap w) v)
  | None => None
  end.

Definition emit (e : event) : M unit := inEnv (emitV e).
Definition timeNow : M Z := inEnv timeNowV.

(** Loops: [for i := 0; i < N; i++ { body }] with [break]. *)
Inductive ctl (St : Type) : Type :=
| Break (st : St)
| Continue (st : St).
Arguments Break {St} st.
Arguments Continue {St} st.

Fixpoint forLoop {S St} (n : nat) (i : Z) (body : Z -> St -> ST S (ctl St)) (st : St) :
  ST S (Z * St) :=
  match n with
  | O => mret (i, st)
  | S n' =>
      r ← body i st;
      match r with
      | Break st' => mret (i, st')
      | Continue st' => forLoop n' (i + 1)%Z body st'
      end
  end.

Definition for_lt {S St} (N : Z) (body : Z -> St -> ST S (ctl St)) (st : St) :
  ST S (Z * St) :=
  forLoop (Z.to_nat N) 0%Z body st.

(** ** The methods of [mat64.Dense] the program calls

    [mat64] is a collaborator outside the repository. Each method is modelled
    by its documented result: it reads its arguments, panics when their
    shapes do not fit, and overwrites the receiver. (A receiver that already
    holds a matrix of another shape than the result would also panic; every
    receiver of this program is empty or holds a matrix of the shape being
    written, so that check is not modelled.) *)

Module mat64.

Definition get (p : ptr) : M Dense := fun w => lift (cells (heap w) !! p) w.

Definition put (p : ptr) (m : Dense) : M unit := fun w =>
  if (p <? length (cells (heap w)))%nat
  then Some (tt, mkWorld (mkStore (<[p := m]> (cells (heap w))) (writes (heap w) ++ [p]))
                   (wenv w))
  else None.

Definition alloc (m : Dense) : M ptr := fun w =>
  Some (length (cells (heap w)),
        mkWorld (mkStore (cells (heap w) ++ [m]) (writes (heap w))) (wenv w)).

(** [var x mat64.Dense] and [new(mat64.Dense)] *)
Definition new : M ptr := alloc matrix.empty.

(** [mat64.NewDense(r, c, nil)] *)
Definition NewDense (r c : nat) : M ptr := alloc (matrix.zeros r c).

Definition Dims (p : ptr) : M (nat * nat) := a ← get p; mret (matrix.Dims a).

Definition unop (f : Dense -> option Dense) (m a : ptr) : M unit :=
  A ← get a; R ← lift (f A); put m R.

Definition binop (f : Dense -> Dense -> option Dense) (m a b : ptr) : M unit :=
  A ← get a; B ← get b; R ← lift (f A B); put m R.

Definition Clone : ptr -> ptr -> M unit := unop matrix.clone.
Definition TCopy : ptr -> ptr -> M unit := unop matrix.transpose.
Definition Scale (m : ptr) (f : float) (a : ptr) : M unit := unop (matrix.scale f) m a.
Definition Mul : ptr -> ptr -> ptr -> M unit := binop matrix.mul.
Definition Sub : ptr -> ptr -> ptr -> M unit := binop matrix.sub.
Definition MulElem : ptr -> ptr -> ptr -> M unit := binop matrix.mulElem.
Definition Stack : ptr -> ptr -> ptr -> M unit := binop matrix.stack.

Definition Reset (m : ptr) : M unit := put m matrix.empty.

(** [*m = a] for [a] a [Dense] variable *)
Definition assign (m a : ptr) : M unit := A ← get a; put m A.

(** An [ApplyFunc] closure may read matrices of the heap. *)
Definition ApplyFunc : Type := list Dense -> nat -> nat -> float -> option float.

Definition Apply (m : ptr) (f : ApplyFunc) (a : ptr) : M unit := fun w =>
  unop (matrix.apply (f (cells (heap w)))) m a w.

Definition Sum (m : ptr) : M float := a ← get m; mret (matrix.sum a).
Definition Norm (m : ptr) : M float := a ← get m; mret (matrix.norm a).
Definition Equals (m b : ptr) : M bool :=
  A ← get m; B ← get b; mret (matrix.equals A B).
Definition RawData (m : ptr) : M (list float) := a ← get m; mret (Data a).

End mat64.

(** ** The program *)

Module nmf.

(** [type Config struct]; [Limit] is a [time.Duration] in nanoseconds. *)
Record Config : Type := mkConfig {
  Tolerance : float;
  MaxIter : Z;
  Limit : Z;
  MaxOuterSub : Z;
  MaxInnerSub : Z
}.

(** [func posFilt(r, c int, v float64) float64] *)
Definition posFilt (r c : nat) (v : float) : float :=
  if f64.gt0 v then v else f64.zero.

Definition posFiltF : mat64.ApplyFunc := fun _ r c v => Some (posFilt r c v).

(** The closures [decFiltW], [decFiltH] of [Factors] and [decFilt] of
    [nnlsSubproblem]: the same body over the captured variable [F], read
    when the closure runs. [||] does not evaluate [F.At(r, c)] when
    [v < 0]. *)
Definition decFilt (F : ptr) : mat64.ApplyFunc := fun h r c v =>
  if f64.lt0 v then Some v
  else
    m ← h !! F;
    x ← matrix.At m r c;
    Some (if f64.gt0 x then v else f64.zero).

(** The variables the line search of [nnlsSubproblem] updates. [Hp] is
    [nil] until iteration [j = 0] assigns it. *)
Record search : Type := mkSearch {
  sH : ptr;
  sHp : option ptr;
  sReduce : bool;
  sAlpha : float;
  sOk : bool
}.

Definition sufficientDecrease (sd sdQ : float) : bool :=
  (0.99 * sd + 0.5 * sdQ <? 0)%float.

(** The first half of the body of [for j := 0; j < inner; j++] (lines 186
    to 196): the candidate [Hn], in a new cell, and the outcome of the
    sufficient-decrease test. *)
Definition lineSearchCandidate (WtW G d dQ : ptr) (s : search) : M (ptr * bool) :=
  Hn ← mat64.new;
  mat64.Scale Hn (sAlpha s) G;;
  mat64.Sub Hn (sH s) Hn;;
  mat64.Apply Hn posFiltF Hn;;
  mat64.Sub d Hn (sH s);;
  mat64.Mul dQ WtW d;;
  mat64.MulElem dQ dQ d;;
  mat64.MulElem d G d;;
  sd ← mat64.Sum d;
  sdQ ← mat64.Sum dQ;
  mret (Hn, sufficientDecrease sd sdQ).

(** The second half (lines 198 to 218): reduce or expand. *)
Definition lineSearchDecide (beta : float) (j : Z) (s : search) (Hn : ptr)
  (sufficient : bool) : M (ctl search) :=
  let reduce := if (j =? 0)%Z then negb sufficient else sReduce s in
  let Hp := if (j =? 0)%Z then Some (sH s) else sHp s in
  if reduce then
    if sufficient then
      emit (LineSearchAccept true j);;
      mret (Break (mkSearch Hn Hp reduce (sAlpha s) true))
    else
      mret (Continue (mkSearch (sH s) Hp reduce (sAlpha s * beta)%float (sOk s)))
  else
    stop ← (if negb sufficient then mret true
            else hp ← lift Hp; mat64.Equals hp Hn);
    if (stop : bool) then
      hp ← lift Hp;
      emit (LineSearchAccept false j);;
      mret (Break (mkSearch hp Hp reduce (sAlpha s) (sOk s)))
    else
      mret (Continue (mkSearch (sH s) (Some Hn) reduce (sAlpha s / beta)%float (sOk s))).

(** Body of [for j := 0; j < inner; j++]. *)
Definition lineSearchStep (WtW G d dQ : ptr) (beta : float) (j : Z) (s : search) :
  M (ctl search) :=
  '(Hn, sufficient) ← lineSearchCandidate WtW G d dQ s;
  lineSearchDecide beta j s Hn sufficient.

(** The head of the body of [for i = 0; i < outer; i++] (lines 172 to 176):
    the gradient at [H], masked in place by the closure [decFilt] over the
    variable [H], and its norm. *)
Definition projectedGradient (WtW WtV G H : ptr) : M float :=
  mat64.Mul G WtW H;;
  mat64.Sub G G WtV;;
  mat64.Apply G (decFilt H) G;;
  nrm ← mat64.Norm G;
  mret nrm.

(** Body of [for i = 0; i < outer; i++]; the state is [(H, alpha, ok)]. *)
Definition solveStep (WtW WtV G : ptr) (tol : float) (inner : Z) (beta : float)
  (i : Z) (st : ptr * float * bool) : M (ctl (ptr * float * bool)) :=
  let '(H, alpha, ok) := st in
  nrm ← projectedGradient WtW WtV G H;
  if (nrm <? tol)%float then mret (Break st)
  else
    d ← mat64.new;
    dQ ← mat64.new;
    r ← for_lt inner (lineSearchStep WtW G d dQ beta) (mkSearch H None false alpha ok);
    mret (Continue (sH r.2, sAlpha r.2, sOk r.2)).

(** [func nnlsSubproblem(V, W, Ho *mat64.Dense, tol float64, outer, inner int)
     (H, G *mat64.Dense, i int, ok bool)] *)
Definition nnlsSubproblem (V W Ho : ptr) (tol : float) (outer inner : Z) :
  M (ptr * ptr * Z * bool) :=
  emit SolveBegin;;
  H ← mat64.new;
  mat64.Clone H Ho;;
  wT ← mat64.new;
  WtV ← mat64.new;
  WtW ← mat64.new;
  mat64.TCopy wT W;;
  mat64.Mul WtV wT V;;
  mat64.Mul WtW wT W;;
  let alpha := 1%float in
  let beta := 0.1%float in
  G ← mat64.new;
  r ← for_lt outer (solveStep WtW WtV G tol inner beta) (H, alpha, false);
  let '(i, (H, _, ok)) := r in
  emit (SolveEnd ok);;
  mret (H, G, i, ok).

(** The variables the main loop of [Factors] updates. *)
Record factors : Type := mkFactors {
  fW : ptr;
  fH : ptr;
  fgW : ptr;
  fgH : ptr;
  ftolW : float;
  ftolH : float;
  fOk : bool
}.

(** The head of the body of [for i := 0; i < c.MaxIter; i++] (lines 103 to
    113): both gradients masked in place, by the closures [decFiltW] and
    [decFiltH] over the variables [W] and [H], and [proj]. *)
Definition stoppingNorm (s : factors) : M float :=
  mat64.Apply (fgW s) (decFilt (fW s)) (fgW s);;
  mat64.Apply (fgH s) (decFilt (fH s)) (fgH s);;
  dW ← mat64.RawData (fgW s);
  dH ← mat64.RawData (fgH s);
  mret (f64.Sqrt (matrix.sumsq (matrix.sumsq f64.zero dW) dH)).

(** Body of [for i := 0; i < c.MaxIter; i++]. *)
Definition factorsStep (c : Config) (V vT hT wT : ptr) (to : Z) (grad : float)
  (i : Z) (s : factors) : M (ctl factors) :=
  proj ← stoppingNorm s;
  stop ← (if (proj <? Tolerance c * grad)%float then mret true
          else now ← timeNow; mret (Limit c <? now - to)%Z);
  if (stop : bool) then mret (Break s)
  else
    mat64.TCopy vT V;;
    mat64.TCopy hT (fH s);;
    mat64.TCopy wT (fW s);;
    '(W, gW, iter, ok) ← nnlsSubproblem vT hT wT (ftolW s) (MaxOuterSub c) (MaxInnerSub c);
    let tolW := if (iter =? 0)%Z then (ftolW s * 0.1)%float else ftolW s in
    mat64.Reset wT;;
    mat64.TCopy wT W;;
    let W := wT in
    gWT ← mat64.new;
    mat64.TCopy gWT gW;;
    mat64.assign gW gWT;;
    '(H, gH, iter, _ok) ← nnlsSubproblem V W (fH s) (ftolH s) (MaxOuterSub c) (MaxInnerSub c);
    let ok := ok && _ok in
    let tolH := if (iter =? 0)%Z then (ftolH s * 0.1)%float else ftolH s in
    mret (Continue (mkFactors W H gW gH tolW tolH ok)).

(** What the main loop of [Factors] reads and does not update. *)
Record context : Type := mkContext {
  cvT : ptr;
  chT : ptr;
  cwT : ptr;
  cto : Z;
  cgrad : float
}.

(** [Factors] up to its main loop (lines 42 to 84): the initial gradients,
    the stopping scale [grad] and the two tolerances. *)
Definition factorsInit (V Wo Ho : ptr) (c : Config) : M (context * factors) :=
  to ← timeNow;
  let W := Wo in
  let H := Ho in
  vT ← mat64.new;
  hT ← mat64.new;
  wT ← mat64.new;
  mat64.TCopy hT H;;
  mat64.TCopy wT W;;
  '(wr, wc) ← mat64.Dims W;
  '(hr, hc) ← mat64.Dims H;
  tmp ← mat64.new;
  vhT ← mat64.new;
  gW ← mat64.NewDense wr wc;
  mat64.Mul tmp H hT;;
  mat64.Mul gW W tmp;;
  mat64.Mul vhT V hT;;
  mat64.Sub gW gW vhT;;
  wTv ← mat64.new;
  gH ← mat64.NewDense hr hc;
  mat64.Reset tmp;;
  mat64.Mul tmp wT W;;
  mat64.Mul gH tmp H;;
  mat64.Mul wTv wT V;;
  mat64.Sub gH gH wTv;;
  gHT ← mat64.new;
  gWHT ← mat64.new;
  mat64.TCopy gHT gH;;
  mat64.Stack gWHT gW gHT;;
  grad ← mat64.Norm gWHT;
  let tolW := (f64.Max 0.001 (Tolerance c) * grad)%float in
  let tolH := tolW in
  mret (mkContext vT hT wT to grad, mkFactors W H gW gH tolW tolH false).

(** [func Factors(V, Wo, Ho *mat64.Dense, c Config) (W, H *mat64.Dense, ok bool)] *)
Definition Factors (V Wo Ho : ptr) (c : Config) : M (ptr * ptr * bool) :=
  '(x, s) ← factorsInit V Wo Ho c;
  r ← for_lt (MaxIter c) (factorsStep c V (cvT x) (chT x) (cwT x) (cto x) (cgrad x)) s;
  mret (fW r.2, fH r.2, fOk r.2).

End nmf.

(** ** The value-level reading of the program

    The same two functions with every pointer replaced by the matrix it
    points to. The simulation theorems below show that the program computes
    exactly these values, in fresh cells. *)

Module vnmf.

Import nmf.

Definition decFilt (F : Dense) (r c : nat) (v : float) : option float :=
  if f64.lt0 v then Some v
  else
    x ← matrix.At F r c;
    Some (if f64.gt0 x then v else f64.zero).

Definition project (a : Dense) : option Dense :=
  matrix.apply (fun r c v => Some (posFilt r c v)) a.

Record search : Type := mkSearch {
  sH : Dense;
  sHp : option Dense;
  sReduce : bool;
  sAlpha : float;
  sOk : bool
}.

(** The candidate of a line-search step, with the two matrices its test
    sums: what the variables [Hn], [d] and [dQ] hold at line 196. *)
Definition candidate (WtW G H : Dense) (alpha : float) :
  option (Dense * Dense * Dense) :=
  Hn ← matrix.scale alpha G;
  Hn ← matrix.sub H Hn;
  Hn ← project Hn;
  d ← matrix.sub Hn H;
  dQ ← matrix.mul WtW d;
  dQ ← matrix.mulElem dQ d;
  d ← matrix.mulElem G d;
  Some (Hn, d, dQ).

Definition lineSearchCandidate (WtW G : Dense) (s : search) : MV (Dense * bool) :=
  '(Hn, d, dQ) ← lift (candidate WtW G (sH s) (sAlpha s));
  mret (Hn, sufficientDecrease (matrix.sum d) (matrix.sum dQ)).

Definition lineSearchDecide (beta : float) (j : Z) (s : search) (Hn : Dense)
  (sufficient : bool) : MV (ctl search) :=
  let reduce := if (j =? 0)%Z then negb sufficient else sReduce s in
  let Hp := if (j =? 0)%Z then Some (sH s) else sHp s in
  if reduce then
    if sufficient then
      emitV (LineSearchAccept true j);;
      mret (Break (mkSearch Hn Hp reduce (sAlpha s) true))
    else
      mret (Continue (mkSearch (sH s) Hp reduce (sAlpha s * beta)%float (sOk s)))
  else
    stop ← (if negb sufficient then mret true
            else hp ← lift Hp; mret (matrix.equals hp Hn));
    if (stop : bool) then
      hp ← lift Hp;
      emitV (LineSearchAccept false j);;
      mret (Break (mkSearch hp Hp reduce (sAlpha s) (sOk s)))
    else
      mret (Continue (mkSearch (sH s) (Some Hn) reduce (sAlpha s / beta)%float (sOk s))).

Definition lineSearchStep (WtW G : Dense) (beta : float) (j : Z) (s : search) :
  MV (ctl search) :=
  '(Hn, sufficient) ← lineSearchCandidate WtW G s;
  lineSearchDecide beta j s Hn sufficient.

(** The masked gradient of the subproblem at [H]. *)
Definition gradient (WtW WtV H : Dense) : option Dense :=
  G ← matrix.mul WtW H;
  G ← matrix.sub G WtV;
  matrix.apply (decFilt H) G.

(** The state is [(H, G, alpha, ok)]: [G] is a variable of the function,
    overwritten by every iteration. *)
Definition solveStep (WtW WtV : Dense) (tol : float) (inner : Z) (beta : float)
  (i : Z) (st : Dense * Dense * float * bool) :
  MV (ctl (Dense * Dense * float * bool)) :=
  let '(H, _, alpha, ok) := st in
  G ← lift (gradient WtW WtV H);
  if (matrix.norm G <? tol)%float then mret (Break (H, G, alpha, ok))
  else
    r ← for_lt inner (lineSearchStep WtW G beta) (mkSearch H None false alpha ok);
    mret (Continue (sH r.2, G, sAlpha r.2, sOk r.2)).

Definition nnlsSubproblem (V W Ho : Dense) (tol : float) (outer inner : Z) :
  MV (Dense * Dense * Z * bool) :=
  emitV SolveBegin;;
  H ← lift (matrix.clone Ho);
  wT ← lift (matrix.transpose W);
  WtV ← lift (matrix.mul wT V);
  WtW ← lift (matrix.mul wT W);
  r ← for_lt outer (solveStep WtW WtV tol inner 0.1%float) (H, matrix.empty, 1%float, false);
  let '(i, (H, G, _, ok)) := r in
  emitV (SolveEnd ok);;
  mret (H, G, i, ok).

(** [updated] tells whether an outer iteration completed, that is whether
    [W] and [H] are still the arguments [Wo] and [Ho]. *)
Record factors : Type := mkFactors {
  fW : Dense;
  fH : Dense;
  fgW : Dense;
  fgH : Dense;
  ftolW : float;
  ftolH : float;
  fOk : bool;
  updated : bool
}.

Definition factorsStep (c : Config) (V : Dense) (to : Z) (grad : float)
  (i : Z) (s : factors) : MV (ctl factors) :=
  gW ← lift (matrix.apply (decFilt (fW s)) (fgW s));
  gH ← lift (matrix.apply (decFilt (fH s)) (fgH s));
  let s := mkFactors (fW s) (fH s) gW gH (ftolW s) (ftolH s) (fOk s) (updated s) in
  let proj := f64.Sqrt (matrix.sumsq (matrix.sumsq f64.zero (Data gW)) (Data gH)) in
  stop ← (if (proj <? Tolerance c * grad)%float then mret true
          else now ← timeNowV; mret (Limit c <? now - to)%Z);
  if (stop : bool) then mret (Break s)
  else
    vT ← lift (matrix.transpose V);
    hT ← lift (matrix.transpose (fH s));
    wT ← lift (matrix.transpose (fW s));
    '(W, gW, iter, ok) ← nnlsSubproblem vT hT wT (ftolW s) (MaxOuterSub c) (MaxInnerSub c);
    let tolW := if (iter =? 0)%Z then (ftolW s * 0.1)%float else ftolW s in
    W ← lift (matrix.transpose W);
    gW ← lift (matrix.transpose gW);
    '(H, gH, iter, _ok) ← nnlsSubproblem V W (fH s) (ftolH s) (MaxOuterSub c) (MaxInnerSub c);
    let ok := ok && _ok in
    let tolH := if (iter =? 0)%Z then (ftolH s * 0.1)%float else ftolH s in
    mret (Continue (mkFactors W H gW gH tolW tolH ok true)).

(** The gradients and the stopping scale [Factors] starts from. *)
Definition initial (V W H : Dense) : option (Dense * Dense * float) :=
  hT ← matrix.transpose H;
  wT ← matrix.transpose W;
  tmp ← matrix.mul H hT;
  gW ← matrix.mul W tmp;
  vhT ← matrix.mul V hT;
  gW ← matrix.sub gW vhT;
  tmp ← matrix.mul wT W;
  gH ← matrix.mul tmp H;
  wTv ← matrix.mul wT V;
  gH ← matrix.sub gH wTv;
  gHT ← matrix.transpose gH;
  gWHT ← matrix.stack gW gHT;
  Some (gW, gH, matrix.norm gWHT).

Definition factorsInit (V Wo Ho : Dense) (c : Config) : MV (Z * float * factors) :=
  to ← timeNowV;
  '(gW, gH, grad) ← lift (initial V Wo Ho);
  let tolW := (f64.Max 0.001 (Tolerance c) * grad)%float in
  mret (to, grad, mkFactors Wo Ho gW gH tolW tolW false false).

Definition Factors (V Wo Ho : Dense) (c : Config) :
  MV (Dense * Dense * bool * bool) :=
  '(to, grad, s) ← factorsInit V Wo Ho c;
  r ← for_lt (MaxIter c) (factorsStep c V to grad) s;
  mret (fW r.2, fH r.2, fOk r.2, updated r.2).

End vnmf.

(** ** Facts about matrix values *)

Section tabulate.
Variables (r c : nat) (f : nat -> nat -> option float) (m : Dense).
Hypothesis Hm : matrix.tabulate r c f = Some m.

Lemma tabulate_rows :
  exists rows, Forall2 (fun i row => Forall2 (fun j x => f i j = Some x) (seq 0 c) row)
                 (seq 0 r) rows /\ m = mkDense r c (mjoin rows).
Proof using Hm.
  unfold matrix.tabulate in Hm.
  destruct (mapM _ _) as [rows|] eqn:E; simplify_eq/=.
  exists rows. split; [|done].
  apply mapM_Some in E. eapply Forall2_impl; [exact E|].
  intros i row Hrow. by apply mapM_Some in Hrow.
Qed.

Lemma tabulate_Rows : Rows m = r.
Proof using Hm. destruct tabulate_rows as (rows & _ & ->). done. Qed.

Lemma tabulate_Cols : Cols m = c.
Proof using Hm. destruct tabulate_rows as (rows & _ & ->). done. Qed.

Lemma tabulate_row_lengths rows :
  Forall2 (fun i row => Forall2 (fun j x => f i j = Some x) (seq 0 c) row)
    (seq 0 r) rows -> Forall (fun row : list float => length row = c) rows.
Proof.
  intros H. apply Forall_lookup. intros i row Hi.
  destruct (Forall2_lookup_r _ _ _ _ _ H Hi) as (i' & _ & Hrow).
  apply Forall2_length in Hrow. by rewrite length_seq in Hrow.
Qed.

Lemma tabulate_wf : matrix.wf m.
Proof using Hm.
  destruct tabulate_rows as (rows & H & ->). unfold matrix.wf. simpl.
  rewrite length_join, (sum_list_fmap_same c) by eauto using tabulate_row_lengths.
  apply Forall2_length in H. rewrite length_seq in H. by rewrite <- H.
Qed.

Lemma tabulate_At i j :
  i < r -> j < c -> exists x, f i j = Some x /\ matrix.At m i j = Some x.
Proof using Hm.
  intros Hi Hj. destruct tabulate_rows as (rows & H & ->).
  pose proof (tabulate_row_lengths _ H) as Hlen.
  destruct (Forall2_lookup_l _ _ _ i i H) as (row & Hrow & Hf).
  { by rewrite lookup_seq_lt. }
  destruct (Forall2_lookup_l _ _ _ j j Hf) as (x & Hx & Hfx).
  { by rewrite lookup_seq_lt. }
  exists x. split; [done|]. unfold matrix.At. simpl.
  destruct (Nat.ltb_spec i r); [|lia]. destruct (Nat.ltb_spec j c); [|lia]. simpl.
  apply (join_lookup_Some_same_length' c); eauto.
Qed.

Lemma tabulate_Forall (P : float -> Prop) :
  (forall i j x, i < r -> j < c -> f i j = Some x -> P x) -> Forall P (Data m).
Proof using Hm.
  intros HP. destruct tabulate_rows as (rows & H & ->). simpl.
  apply Forall_lookup. intros k x Hk.
  apply join_lookup_Some in Hk as (i & row & j & Hrow & Hx & _).
  destruct (Forall2_lookup_r _ _ _ _ _ H Hrow) as (i' & Hi' & Hf).
  destruct (Forall2_lookup_r _ _ _ _ _ Hf Hx) as (j' & Hj' & Hfx).
  apply lookup_seq in Hi' as [-> ?]. apply lookup_seq in Hj' as [-> ?].
  eapply HP; eauto.
Qed.

End tabulate.

Lemma tabulate_is_Some r c f :
  (forall i j, i < r -> j < c -> is_Some (f i j)) -> is_Some (matrix.tabulate r c f).
Proof.
  intros H. unfold matrix.tabulate.
  destruct (mapM _ _) as [rows|] eqn:E; [by eexists|].
  apply mapM_None in E. apply Exists_exists in E as (i & Hi & HN).
  apply mapM_None in HN. apply Exists_exists in HN as (j & Hj & HN).
  apply elem_of_seq in Hi, Hj. destruct (H i j) as [x Hx]; [lia..|]. congruence.
Qed.

Lemma At_Some_wf a i j :
  matrix.wf a -> i < Rows a -> j < Cols a -> is_Some (matrix.At a i j).
Proof.
  intros Hwf Hi Hj. unfold matrix.At.
  destruct (Nat.ltb_spec i (Rows a)); [|lia].
  destruct (Nat.ltb_spec j (Cols a)); [|lia]. simpl.
  apply lookup_lt_is_Some. rewrite Hwf. nia.
Qed.

Lemma At_inv a i j x :
  matrix.At a i j = Some x ->
  i < Rows a /\ j < Cols a /\ Data a !! (i * Cols a + j) = Some x.
Proof.
  unfold matrix.At.
  destruct (Nat.ltb_spec i (Rows a)); [|done].
  destruct (Nat.ltb_spec j (Cols a)); [|done]. simpl. auto.
Qed.

Lemma At_Forall (P : float -> Prop) a i j x :
  Forall P (Data a) -> matrix.At a i j = Some x -> P x.
Proof.
  intros HP Hx. apply At_inv in Hx as (_ & _ & Hx).
  eapply Forall_lookup_1; eauto.
Qed.

(** *** Shapes: when the operations return *)

Definition shaped (r c : nat) (m : Dense) : Prop :=
  Rows m = r /\ Cols m = c /\ matrix.wf m.

Lemma tabulate_shaped r c f m : matrix.tabulate r c f = Some m -> shaped r c m.
Proof.
  intros H. repeat split;
    eauto using tabulate_Rows, tabulate_Cols, tabulate_wf.
Qed.

Lemma At_shaped r c a i j : shaped r c a -> i < r -> j < c -> is_Some (matrix.At a i j).
Proof. intros (<- & <- & ?) ? ?. by apply At_Some_wf. Qed.

Lemma transpose_shaped r c a :
  shaped r c a -> exists b, matrix.transpose a = Some b /\ shaped c r b.
Proof.
  intros Ha. destruct (tabulate_is_Some (Cols a) (Rows a) (fun i j => matrix.At a j i))
    as [b Hb].
  { intros i j ? ?. destruct Ha as (? & ? & ?). by apply At_Some_wf. }
  exists b. split; [done|]. apply tabulate_shaped in Hb.
  destruct Ha as (<- & <- & _). done.
Qed.

Lemma clone_shaped r c a :
  shaped r c a -> exists b, matrix.clone a = Some b /\ shaped r c b.
Proof.
  intros Ha. destruct (tabulate_is_Some (Rows a) (Cols a) (matrix.At a)) as [b Hb].
  { intros i j ? ?. destruct Ha as (? & ? & ?). by apply At_Some_wf. }
  exists b. split; [done|]. apply tabulate_shaped in Hb.
  destruct Ha as (<- & <- & _). done.
Qed.

Lemma zipWith_shaped op r c a b :
  shaped r c a -> shaped r c b ->
  exists m, matrix.zipWith op a b = Some m /\ shaped r c m.
Proof.
  intros Ha Hb. unfold matrix.zipWith, matrix.same_dims.
  destruct Ha as (Ra & Ca & Wa), Hb as (Rb & Cb & Wb).
  rewrite Ra, Rb, Ca, Cb, !Nat.eqb_refl. simpl.
  match goal with |- context [matrix.tabulate r c ?f] =>
    destruct (tabulate_is_Some r c f) as [m Hm] end.
  { intros i j ? ?.
    destruct (At_Some_wf a i j) as [x ->]; [done|lia..|].
    destruct (At_Some_wf b i j) as [y ->]; [done|lia..|]. by eexists. }
  exists m. split; [done|]. by apply tabulate_shaped in Hm.
Qed.

Lemma mul_shaped r k c a b :
  shaped r k a -> shaped k c b -> exists m, matrix.mul a b = Some m /\ shaped r c m.
Proof.
  intros (Ra & Ca & Wa) (Rb & Cb & Wb). unfold matrix.mul.
  rewrite Ca, Rb, Nat.eqb_refl, Ra, Cb.
  destruct (tabulate_is_Some r c (matrix.dot a b)) as [m Hm].
  { intros i j ? ?. unfold matrix.dot.
    match goal with |- context [mapM ?f ?l] =>
      destruct (mapM_is_Some_2 f l) as [ps ->] end; [|by eexists].
    apply Forall_forall. intros x Hx. apply elem_of_seq in Hx. simpl.
    destruct (At_Some_wf a i x) as [y ->]; [done|lia..|].
    destruct (At_Some_wf b x j) as [z ->]; [done|lia..|]. by eexists. }
  exists m. split; [done|]. by apply tabulate_shaped in Hm.
Qed.

Lemma stack_shaped r r' c a b :
  shaped r c a -> shaped r' c b ->
  exists m, matrix.stack a b = Some m /\ shaped (r + r') c m.
Proof.
  intros (Ra & Ca & Wa) (Rb & Cb & Wb). unfold matrix.stack.
  rewrite Ca, Cb, Nat.eqb_refl, Ra, Rb.
  match goal with |- context [matrix.tabulate ?n c ?f] =>
    destruct (tabulate_is_Some n c f) as [m Hm] end.
  { intros i j ? ?. destruct (Nat.ltb_spec i r).
    - apply At_Some_wf; [done|lia..].
    - apply At_Some_wf; [done|lia..]. }
  exists m. split; [done|]. by apply tabulate_shaped in Hm.
Qed.

(** The shapes of the data model: [V] is [m]x[n], [W] is [m]x[k] and [H]
    is [k]x[n]. *)
Definition shapes_fit (V W H : Dense) : Prop :=
  exists m k n, shaped m n V /\ shaped m k W /\ shaped k n H.

Lemma initial_is_Some V W H : shapes_fit V W H -> is_Some (vnmf.initial V W H).
Proof.
  intros (m & k & n & HV & HW & HH). unfold vnmf.initial.
  destruct (transpose_shaped _ _ _ HH) as (hT & -> & HhT).
  destruct (transpose_shaped _ _ _ HW) as (wT & -> & HwT). simpl.
  destruct (mul_shaped _ _ _ _ _ HH HhT) as (tmp & -> & Htmp). simpl.
  destruct (mul_shaped _ _ _ _ _ HW Htmp) as (gW & -> & HgW). simpl.
  destruct (mul_shaped _ _ _ _ _ HV HhT) as (vhT & -> & HvhT). simpl.
  destruct (zipWith_shaped PrimFloat.sub _ _ _ _ HgW HvhT) as (gW' & E & HgW').
  unfold matrix.sub. rewrite E. simpl.
  destruct (mul_shaped _ _ _ _ _ HwT HW) as (tmp' & -> & Htmp'). simpl.
  destruct (mul_shaped _ _ _ _ _ Htmp' HH) as (gH & -> & HgH). simpl.
  destruct (mul_shaped _ _ _ _ _ HwT HV) as (wTv & -> & HwTv). simpl.
  destruct (zipWith_shaped PrimFloat.sub _ _ _ _ HgH HwTv) as (gH' & E' & HgH').
  rewrite E'. simpl.
  destruct (transpose_shaped _ _ _ HgH') as (gHT & -> & HgHT). simpl.
  destruct (stack_shaped _ _ _ _ _ HgW' HgHT) as (S & -> & HS). simpl.
  by eexists.
Qed.
(** ** Simulation: the program computes its value-level reading

    [refines m r Q w]: run from [w], the program [m] panics exactly when the
    value-level result [r] is a panic, and otherwise returns in the
    environment of [r] with a value and a heap that [Q] relates to the
    value of [r]. *)

Definition refines {A B} (m : M A) (r : option (B * env))
  (Q : B -> A -> store -> Prop) (w : world) : Prop :=
  match r with
  | None => m w = None
  | Some (b, v) => exists a h, m w = Some (a, mkWorld h v) /\ Q b a h
  end.

(** [frame wr s0 s]: from [s0] to [s] the heap grew, every cell of [s0]
    outside [wr] kept its matrix, and every write went to a cell of [wr] or
    to a cell allocated after [s0]. *)
Definition frame (wr : ptr -> Prop) (s0 s : store) : Prop :=
  length (cells s0) <= length (cells s) /\
  (forall q, q < length (cells s0) -> ~ wr q -> cells s !! q = cells s0 !! q) /\
  exists l, writes s = writes s0 ++ l /\
            Forall (fun p => wr p \/ length (cells s0) <= p) l.

Definition ctl_rel {St StV} (Inv : StV -> St -> store -> Prop)
  (cv : ctl StV) (c : ctl St) (h : store) : Prop :=
  match cv, c with
  | Break a, Break b => Inv a b h
  | Continue a, Continue b => Inv a b h
  | _, _ => False
  end.

Lemma run_bind {S A B} (m : ST S A) (k : A -> ST S B) s :
  (m ≫= k) s = match m s with Some (a, s') => k a s' | None => None end.
Proof. reflexivity. Qed.

Lemma refines_run {A B} (m m' : M A) (r : option (B * env)) Q w w' :
  m w = m' w' -> refines m' r Q w' -> refines m r Q w.
Proof. unfold refines. intros ->. done. Qed.

Lemma refines_pure {A B} (m : M A) (r r' : option (B * env)) Q w :
  r = r' -> refines m r' Q w -> refines m r Q w.
Proof. intros ->. done. Qed.

Lemma refines_mono {A B} (m : M A) (r : option (B * env))
  (Q Q' : B -> A -> store -> Prop) w :
  refines m r Q w -> (forall b a h, Q b a h -> Q' b a h) -> refines m r Q' w.
Proof.
  unfold refines. destruct r as [[b v]|]; [|done].
  intros (a & h & ? & ?) HQ. eauto.
Qed.

Lemma refines_bind {A B A' B'} (m : M A) (p : MV B) (k : A -> M A')
  (kv : B -> MV B') R Q h v :
  refines m (p v) R (mkWorld h v) ->
  (forall b v' a h', p v = Some (b, v') -> R b a h' ->
     refines (k a) (kv b v') Q (mkWorld h' v')) ->
  refines (m ≫= k) ((p ≫= kv) v) Q (mkWorld h v).
Proof.
  unfold refines. rewrite !run_bind. intros Hm Hk.
  destruct (p v) as [[b v']|] eqn:E.
  - destruct Hm as (a & h' & -> & HR). apply (Hk _ _ _ _ eq_refl HR).
  - rewrite Hm. done.
Qed.

Section steps.
Context {A B : Type}.
Implicit Types (k : unit -> M A) (Q : B -> A -> store -> Prop).
Implicit Types (r : option (B * env)) (cs : list Dense) (ws : list ptr).

Lemma step_ret {X} (x : X) (k : X -> M A) r Q w :
  refines (k x) r Q w -> refines (mret x ≫= k) r Q w.
Proof. done. Qed.

Lemma step_assoc {X Y} (m : M X) (f : X -> M Y) (k : Y -> M A) r Q w :
  refines (m ≫= (fun x => f x ≫= k)) r Q w -> refines ((m ≫= f) ≫= k) r Q w.
Proof.
  apply refines_run. rewrite !run_bind. destruct (m w) as [[x w']|]; done.
Qed.

Lemma step_alloc (m0 : Dense) (k : ptr -> M A) r Q cs ws v :
  (forall p, p = length cs ->
     refines (k p) r Q (mkWorld (mkStore (cs ++ [m0]) ws) v)) ->
  refines (mat64.alloc m0 ≫= k) r Q (mkWorld (mkStore cs ws) v).
Proof. intros H. apply (H _ eq_refl). Qed.

Lemma step_put (m : ptr) (R : Dense) k r Q cs ws v :
  m < length cs ->
  refines (k tt) r Q (mkWorld (mkStore (<[m := R]> cs) (ws ++ [m])) v) ->
  refines (mat64.put m R ≫= k) r Q (mkWorld (mkStore cs ws) v).
Proof.
  intros Hm. apply refines_run. rewrite run_bind. unfold mat64.put. simpl.
  apply Nat.ltb_lt in Hm. rewrite Hm. done.
Qed.

Lemma step_get (p : ptr) (P : Dense) (k : Dense -> M A) r Q cs ws v :
  cs !! p = Some P ->
  refines (k P) r Q (mkWorld (mkStore cs ws) v) ->
  refines (mat64.get p ≫= k) r Q (mkWorld (mkStore cs ws) v).
Proof.
  intros Hp. apply refines_run. rewrite run_bind. unfold mat64.get. simpl.
  rewrite Hp. done.
Qed.

Lemma step_unop f (m a : ptr) (P : Dense) k (kv : Dense -> MV B) Q cs ws v :
  cs !! a = Some P -> m < length cs ->
  (forall R, f P = Some R ->
     refines (k tt) (kv R v) Q (mkWorld (mkStore (<[m := R]> cs) (ws ++ [m])) v)) ->
  refines (mat64.unop f m a ≫= k) ((lift (f P) ≫= kv) v) Q (mkWorld (mkStore cs ws) v).
Proof.
  intros Ha Hm H. unfold mat64.unop.
  apply step_assoc, (step_get _ _ _ _ _ _ _ _ Ha), step_assoc.
  destruct (f P) as [R|] eqn:E; [|done].
  apply step_ret, step_put; [done|]. apply (H R eq_refl).
Qed.

Lemma step_binop f (m a b : ptr) (P P' : Dense) k (kv : Dense -> MV B) Q cs ws v :
  cs !! a = Some P -> cs !! b = Some P' -> m < length cs ->
  (forall R, f P P' = Some R ->
     refines (k tt) (kv R v) Q (mkWorld (mkStore (<[m := R]> cs) (ws ++ [m])) v)) ->
  refines (mat64.binop f m a b ≫= k) ((lift (f P P') ≫= kv) v) Q
    (mkWorld (mkStore cs ws) v).
Proof.
  intros Ha Hb Hm H. unfold mat64.binop.
  apply step_assoc, (step_get _ _ _ _ _ _ _ _ Ha), step_assoc,
    (step_get _ _ _ _ _ _ _ _ Hb), step_assoc.
  destruct (f P P') as [R|] eqn:E; [|done].
  apply step_ret, step_put; [done|]. apply (H R eq_refl).
Qed.

Lemma step_Apply (f : mat64.ApplyFunc) g (m a : ptr) (P : Dense) k
  (kv : Dense -> MV B) Q cs ws v :
  cs !! a = Some P -> m < length cs -> f cs = g ->
  (forall R, matrix.apply g P = Some R ->
     refines (k tt) (kv R v) Q (mkWorld (mkStore (<[m := R]> cs) (ws ++ [m])) v)) ->
  refines (mat64.Apply m f a ≫= k) ((lift (matrix.apply g P) ≫= kv) v) Q
    (mkWorld (mkStore cs ws) v).
Proof.
  intros Ha Hm <- H.
  eapply refines_run; [|apply (step_unop _ m a P k kv); eauto].
  reflexivity.
Qed.

Lemma step_read {X} (f : Dense -> X) (p : ptr) (P : Dense) (k : X -> M A) r Q cs ws v :
  cs !! p = Some P ->
  refines (k (f P)) r Q (mkWorld (mkStore cs ws) v) ->
  refines ((a ← mat64.get p; mret (f a)) ≫= k) r Q (mkWorld (mkStore cs ws) v).
Proof. intros Hp H. apply step_assoc, (step_get _ _ _ _ _ _ _ _ Hp), step_ret, H. Qed.

Lemma step_Equals (p q : ptr) (P P' : Dense) (k : bool -> M A) r Q cs ws v :
  cs !! p = Some P -> cs !! q = Some P' ->
  refines (k (matrix.equals P P')) r Q (mkWorld (mkStore cs ws) v) ->
  refines (mat64.Equals p q ≫= k) r Q (mkWorld (mkStore cs ws) v).
Proof.
  intros Hp Hq H. unfold mat64.Equals.
  apply step_assoc, (step_get _ _ _ _ _ _ _ _ Hp), step_assoc,
    (step_get _ _ _ _ _ _ _ _ Hq), step_ret, H.
Qed.

Lemma step_assign (m a : ptr) (P : Dense) k r Q cs ws v :
  cs !! a = Some P -> m < length cs ->
  refines (k tt) r Q (mkWorld (mkStore (<[m := P]> cs) (ws ++ [m])) v) ->
  refines (mat64.assign m a ≫= k) r Q (mkWorld (mkStore cs ws) v).
Proof.
  intros Ha Hm H. unfold mat64.assign.
  apply step_assoc, (step_get _ _ _ _ _ _ _ _ Ha), step_put; auto.
Qed.

Lemma step_emit (e : event) k (kv : unit -> MV B) Q h v :
  refines (k tt) (kv tt (env_emit e v)) Q (mkWorld h (env_emit e v)) ->
  refines (emit e ≫= k) ((emitV e ≫= kv) v) Q (mkWorld h v).
Proof. done. Qed.

Lemma step_timeNow (k : Z -> M A) (kv : Z -> MV B) Q h v :
  refines (k (clock v (ticks v))) (kv (clock v (ticks v)) (env_tick v)) Q
    (mkWorld h (env_tick v)) ->
  refines (timeNow ≫= k) ((timeNowV ≫= kv) v) Q (mkWorld h v).
Proof. done. Qed.

End steps.

Lemma lift_obind {S X Y Z} (o : option X) (g : X -> option Y) (kv : Y -> ST S Z) v :
  (lift (o ≫= g) ≫= kv) v = (lift o ≫= (fun x => lift (g x) ≫= kv)) v.
Proof. destruct o; reflexivity. Qed.

Lemma lift_some {S X Z} (x : X) (kv : X -> ST S Z) v :
  (lift (Some x) ≫= kv) v = kv x v.
Proof. reflexivity. Qed.

Lemma ret_bind {S X Z} (x : X) (kv : X -> ST S Z) v :
  (mret x ≫= kv) v = kv x v.
Proof. reflexivity. Qed.

Lemma bind_assoc {S X Y Z} (m : ST S X) (f : X -> ST S Y) (kv : Y -> ST S Z) v :
  ((m ≫= f) ≫= kv) v = (m ≫= (fun x => f x ≫= kv)) v.
Proof. rewrite !run_bind. destruct (m v) as [[x v']|]; reflexivity. Qed.

Ltac sim_ret := hnf; eexists _, _; split; [reflexivity|].

Lemma refines_forLoop {St StV} (body : Z -> St -> M (ctl St))
  (bodyV : Z -> StV -> MV (ctl StV)) (Inv : StV -> St -> store -> Prop) :
  (forall i sv s h v, Inv sv s h ->
     refines (body i s) (bodyV i sv v) (ctl_rel Inv) (mkWorld h v)) ->
  forall n i sv s h v, Inv sv s h ->
    refines (forLoop n i body s) (forLoop n i bodyV sv v)
      (fun r r' h' => r.1 = r'.1 /\ Inv r.2 r'.2 h') (mkWorld h v).
Proof.
  intros Hbody. induction n as [|n IH]; intros i sv s h v HI; simpl.
  - sim_ret. done.
  - eapply refines_bind; [apply Hbody, HI|].
    intros [sv'|sv'] v' [s'|s'] h' _ HR; simpl in HR; try done.
    + sim_ret. done.
    + apply IH, HR.
Qed.

Lemma for_lt_sim {St StV} (body : Z -> St -> M (ctl St))
  (bodyV : Z -> StV -> MV (ctl StV)) (Inv : StV -> St -> store -> Prop) N :
  (forall i sv s h v, Inv sv s h ->
     refines (body i s) (bodyV i sv v) (ctl_rel Inv) (mkWorld h v)) ->
  forall sv s h v, Inv sv s h ->
    refines (for_lt N body s) (for_lt N bodyV sv v)
      (fun r r' h' => r.1 = r'.1 /\ Inv r.2 r'.2 h') (mkWorld h v).
Proof. intros Hb. unfold for_lt. intros. by apply refines_forLoop. Qed.

Lemma frame_refl wr h : frame wr h h.
Proof.
  repeat split; auto. exists []. by rewrite app_nil_r.
Qed.

Lemma frame_trans (wr wr' : ptr -> Prop) h0 h1 h2 :
  frame wr h0 h1 -> frame wr' h1 h2 ->
  (forall p, wr' p -> wr p \/ length (cells h0) <= p) ->
  frame wr h0 h2.
Proof.
  intros (L1 & F1 & l1 & E1 & W1) (L2 & F2 & l2 & E2 & W2) Hw.
  split; [lia|]. split.
  - intros q Hq Hn. rewrite F2, F1; auto; [lia|].
    intros Hq'. destruct (Hw _ Hq'); [done|lia].
  - exists (l1 ++ l2). split; [by rewrite E2, E1, app_assoc|].
    apply Forall_app. split; [done|].
    eapply Forall_impl; [exact W2|]. simpl. intros p [Hp|Hp]; [auto|right; lia].
Qed.

Lemma frame_lookup wr h0 h q m :
  frame wr h0 h -> cells h0 !! q = Some m -> ~ wr q -> cells h !! q = Some m.
Proof.
  intros (_ & F & _) Hq Hn. rewrite F; [done| |done]. by eapply lookup_lt_Some.
Qed.

Lemma frame_keep h0 h q m :
  frame (fun _ => False) h0 h -> cells h0 !! q = Some m -> cells h !! q = Some m.
Proof. intros H Hq. eapply frame_lookup; [exact H|exact Hq|tauto]. Qed.

Lemma frame_length wr h0 h : frame wr h0 h -> length (cells h0) <= length (cells h).
Proof. by intros (? & _). Qed.

(** Tactics of the symbolic execution. *)
Ltac norm_len :=
  cbn [fst snd cells writes
       nmf.sH nmf.sHp nmf.fW nmf.fH nmf.fgW nmf.fgH];
  repeat first [rewrite length_insert | rewrite length_app]; simpl length.
Ltac norm_len_in H :=
  cbn [cells writes] in H;
  repeat first [rewrite length_insert in H | rewrite length_app in H];
  simpl length in H.
Ltac norm_len_all :=
  cbn [cells writes] in *;
  repeat first [rewrite length_insert in * | rewrite length_app in *];
  simpl length in *.
Ltac bounds :=
  repeat match goal with
  | H : ?h !! ?p = Some _ |- _ =>
      lazymatch goal with
      | _ : p < length h |- _ => fail
      | _ => pose proof (lookup_lt_Some _ _ _ H)
      end
  | H : frame _ ?h0 ?h |- _ =>
      lazymatch goal with
      | _ : length (cells h0) <= length (cells h) |- _ => fail
      | _ => pose proof (frame_length _ _ _ H)
      end
  end.
Ltac clear_neq := repeat match goal with H : _ <> _ |- _ => clear H end.
Ltac len_lia :=
  first [ assumption | by apply not_eq_sym
        | norm_len; clear_neq; lia
        | bounds; norm_len_all; clear_neq; lia ].

Ltac lookup_step :=
  lazymatch goal with
  | |- <[?i:=_]> _ !! ?i = _ => rewrite list_lookup_insert_eq by len_lia
  | |- <[_:=_]> _ !! _ = _ => rewrite list_lookup_insert_ne by len_lia
  | |- (_ ++ [_]) !! _ = _ =>
      first [ rewrite lookup_app_l by len_lia | rewrite list_lookup_middle by len_lia ]
  end.
Ltac proj_simpl :=
  cbn [fst snd cells writes
       nmf.sH nmf.sAlpha nmf.sHp nmf.sReduce nmf.sOk
       vnmf.sH vnmf.sAlpha vnmf.sHp vnmf.sReduce vnmf.sOk
       nmf.fW nmf.fH nmf.fgW nmf.fgH nmf.ftolW nmf.ftolH nmf.fOk
       vnmf.fW vnmf.fH vnmf.fgW vnmf.fgH vnmf.ftolW vnmf.ftolH vnmf.fOk
       vnmf.updated].
Ltac proj_simpl_all :=
  cbn [fst snd cells writes
       nmf.sH nmf.sAlpha nmf.sHp nmf.sReduce nmf.sOk
       vnmf.sH vnmf.sAlpha vnmf.sHp vnmf.sReduce vnmf.sOk
       nmf.fW nmf.fH nmf.fgW nmf.fgH nmf.ftolW nmf.ftolH nmf.fOk
       vnmf.fW vnmf.fH vnmf.fgW vnmf.fgH vnmf.ftolW vnmf.ftolH vnmf.fOk
       vnmf.updated] in *.
Ltac lookup :=
  proj_simpl; repeat lookup_step; first [ eassumption | reflexivity ].

Ltac frame_tac :=
  split; [len_lia|]; split;
  [ let q := fresh "q" in intros q ? ?; lookup
  | first
      [ exists []; split; [cbn [cells writes]; by rewrite app_nil_r | constructor]
      | eexists; split;
        [ cbn [cells writes]; rewrite <- ?app_assoc; reflexivity
        | cbn [app]; repeat (constructor; [len_lia|]); constructor ] ] ].

Ltac pure_norm :=
  cbv beta zeta;
  repeat lazymatch goal with
  | |- refines _ ((lift (mbind _ _) ≫= _) _) _ _ =>
      eapply refines_pure; [apply lift_obind|]; cbv beta
  | |- refines _ ((lift (Some _) ≫= _) _) _ _ =>
      eapply refines_pure; [apply lift_some|]; cbv beta iota
  | |- refines _ ((mret _ ≫= _) _) _ _ =>
      eapply refines_pure; [apply ret_bind|]; cbv beta iota
  | |- refines _ (((_ ≫= _) ≫= _) _) _ _ =>
      eapply refines_pure; [apply bind_assoc|]; cbv beta iota
  end.

Ltac sim_step :=
  pure_norm;
  lazymatch goal with
  | |- refines (mat64.alloc _ ≫= _) _ _ _ =>
      apply step_alloc; let p := fresh "p" in let Hp := fresh "Hp" in
      intros p Hp; norm_len_in Hp
  | |- refines (mat64.unop _ _ _ ≫= _) _ _ _ =>
      eapply step_unop;
      [lookup | len_lia | let R := fresh "R" in let HR := fresh "HR" in intros R HR]
  | |- refines (mat64.binop _ _ _ _ ≫= _) _ _ _ =>
      eapply step_binop;
      [lookup | lookup | len_lia | let R := fresh "R" in let HR := fresh "HR" in intros R HR]
  | |- refines (mat64.Apply _ _ _ ≫= _) _ _ _ =>
      eapply step_Apply;
      [lookup | len_lia | | let R := fresh "R" in let HR := fresh "HR" in intros R HR]
  | |- refines ((_ ← mat64.get _; mret _) ≫= _) _ _ _ =>
      eapply step_read; [lookup|]
  | |- refines (mat64.Equals _ _ ≫= _) _ _ _ =>
      eapply step_Equals; [lookup|lookup|]
  | |- refines (mat64.put _ _ ≫= _) _ _ _ =>
      eapply step_put; [len_lia|]
  | |- refines (mat64.assign _ _ ≫= _) _ _ _ =>
      eapply step_assign; [lookup|len_lia|]
  | |- refines (emit _ ≫= _) _ _ _ => apply step_emit
  | |- refines (timeNow ≫= _) _ _ _ => apply step_timeNow
  | |- refines (mret _ ≫= _) _ _ _ => apply step_ret
  | |- refines (lift (Some ?x) ≫= _) _ _ _ => apply (step_ret x)
  | |- refines ((_ ≫= _) ≫= _) _ _ _ => apply step_assoc
  end; cbv beta zeta iota delta [matrix.Dims].

Ltac unfold_methods :=
  unfold mat64.new, mat64.NewDense, mat64.Clone, mat64.TCopy, mat64.Scale,
    mat64.Mul, mat64.Sub, mat64.MulElem, mat64.Stack, mat64.Reset, mat64.Sum,
    mat64.Norm, mat64.RawData, mat64.Dims.

Ltac name_store h :=
  match goal with |- refines _ _ _ (mkWorld ?hh _) => set (h := hh) end.

Lemma decFilt_eq h F mF : h !! F = Some mF -> nmf.decFilt F h = vnmf.decFilt mF.
Proof. intros E. unfold nmf.decFilt, vnmf.decFilt. rewrite E. reflexivity. Qed.

(** *** The line search *)

Section line_search.
Variables (WtW G d dQ : ptr) (mWtW mG : Dense) (beta : float).
Variables (base : nat) (h0 : store).
Hypothesis HWtW : cells h0 !! WtW = Some mWtW.
Hypothesis HG : cells h0 !! G = Some mG.
Hypothesis Hd : d < length (cells h0).
Hypothesis HdQ : dQ < length (cells h0).
Hypothesis Hbase : base <= length (cells h0).
Hypothesis Hdist : WtW <> d /\ WtW <> dQ /\ G <> d /\ G <> dQ /\ d <> dQ.

Definition clean (p : ptr) : Prop := base <= p /\ p <> G /\ p <> d /\ p <> dQ.

Definition search_rel (sv : vnmf.search) (s : nmf.search) (h : store) : Prop :=
  frame (fun q => q = d \/ q = dQ) h0 h /\
  cells h !! nmf.sH s = Some (vnmf.sH sv) /\ clean (nmf.sH s) /\
  match nmf.sHp s, vnmf.sHp sv with
  | Some p, Some m => cells h !! p = Some m /\ clean p
  | None, None => True
  | _, _ => False
  end /\
  nmf.sReduce s = vnmf.sReduce sv /\
  nmf.sAlpha s = vnmf.sAlpha sv /\
  nmf.sOk s = vnmf.sOk sv.

(** After the candidate has been computed. *)
Definition cand_rel (sv : vnmf.search) (s : nmf.search) (h : store)
  (rv : Dense * bool) (r : ptr * bool) (h' : store) : Prop :=
  exists md mdQ,
    vnmf.candidate mWtW mG (vnmf.sH sv) (vnmf.sAlpha sv) = Some (rv.1, md, mdQ) /\
    rv.2 = nmf.sufficientDecrease (matrix.sum md) (matrix.sum mdQ) /\
    r.2 = rv.2 /\ r.1 = length (cells h) /\
    cells h' !! r.1 = Some rv.1 /\
    cells h' !! d = Some md /\ cells h' !! dQ = Some mdQ /\
    clean r.1 /\ search_rel sv s h'.

Lemma lineSearchCandidate_sim sv s h v :
  search_rel sv s h ->
  refines (nmf.lineSearchCandidate WtW G d dQ s)
    (vnmf.lineSearchCandidate mWtW mG sv v) (cand_rel sv s h) (mkWorld h v).
Proof using All.
  destruct s as [H Hp red alpha ok], sv as [mH mHp red' alpha' ok'], h as [cs ws].
  intros (Hfr & HH & HcH & HHp & ? & ? & ?); simpl in *; subst red' alpha' ok'.
  destruct Hdist as (?&?&?&?&?). destruct HcH as (?&?&?&?).
  assert (cs !! WtW = Some mWtW) by (eapply (frame_lookup _ _ _ _ _ Hfr); [done|lia]).
  assert (cs !! G = Some mG) by (eapply (frame_lookup _ _ _ _ _ Hfr); [done|lia]).
  unfold nmf.lineSearchCandidate, vnmf.lineSearchCandidate, vnmf.candidate, vnmf.project.
  unfold_methods. proj_simpl.
  sim_step. sim_step. sim_step. sim_step. { reflexivity. }
  do 6 sim_step. sim_ret.
  unfold cand_rel, search_rel, vnmf.candidate, vnmf.project. proj_simpl.
  exists R5, R4. split.
  { rewrite HR. cbn [mbind option_bind]. rewrite HR0. cbn [mbind option_bind].
    rewrite HR1. cbn [mbind option_bind]. rewrite HR2. cbn [mbind option_bind].
    rewrite HR3. cbn [mbind option_bind]. rewrite HR4. cbn [mbind option_bind].
    rewrite HR5. reflexivity. }
  do 3 (split; [done|]).
  split; [lookup|]. split; [lookup|]. split; [lookup|].
  split; [repeat split; len_lia|].
  split.
  { eapply (frame_trans _ (fun q => q = d \/ q = dQ)); [exact Hfr| |tauto]. frame_tac. }
  split; [lookup|]. split; [done|].
  split; [|done].
  destruct Hp as [hp|], mHp as [mhp|]; try done.
  destruct HHp as [? Hc]. split; [|done]. destruct Hc as (?&?&?&?). lookup.
Qed.

Lemma lineSearchDecide_sim j sv s h v Hn mHn sufficient :
  search_rel sv s h -> cells h !! Hn = Some mHn -> clean Hn ->
  refines (nmf.lineSearchDecide beta j s Hn sufficient)
    (vnmf.lineSearchDecide beta j sv mHn sufficient v) (ctl_rel search_rel) (mkWorld h v).
Proof using All.
  destruct s as [H Hp red alpha ok], sv as [mH mHp red' alpha' ok'], h as [cs ws].
  intros (Hfr & HH & HcH & HHp & ? & ? & ?) HHn HcHn; simpl in *; subst red' alpha' ok'.
  unfold nmf.lineSearchDecide, vnmf.lineSearchDecide. proj_simpl. cbv zeta.
  assert (HHp' : match (if (j =? 0)%Z then Some H else Hp),
                       (if (j =? 0)%Z then Some mH else mHp) with
                 | Some p, Some m => cs !! p = Some m /\ clean p
                 | None, None => True
                 | _, _ => False
                 end).
  { by destruct (j =? 0)%Z. }
  clear HHp.
  generalize dependent (if (j =? 0)%Z then Some H else Hp).
  generalize dependent (if (j =? 0)%Z then Some mH else mHp).
  intros mHp' Hp' HHp'.
  generalize (if (j =? 0)%Z then negb sufficient else red). intros red'.
  destruct red'.
  - destruct sufficient.
    + sim_step. sim_ret. cbn. done.
    + sim_ret. cbn. done.
  - destruct sufficient; cbn [negb].
    + destruct Hp' as [hp|], mHp' as [mhp|]; try done.
      destruct HHp'. repeat sim_step.
      destruct (matrix.equals mhp mHn).
      * repeat sim_step. sim_ret. cbn. done.
      * sim_ret. cbn. done.
    + sim_step. destruct Hp' as [hp|], mHp' as [mhp|]; try done.
      destruct HHp'. repeat sim_step. sim_ret. cbn. done.
Qed.

Lemma lineSearchStep_sim j sv s h v :
  search_rel sv s h ->
  refines (nmf.lineSearchStep WtW G d dQ beta j s)
    (vnmf.lineSearchStep mWtW mG beta j sv v) (ctl_rel search_rel) (mkWorld h v).
Proof using All.
  intros Hrel. unfold nmf.lineSearchStep, vnmf.lineSearchStep.
  eapply refines_bind; [by apply lineSearchCandidate_sim|].
  intros [mHn suff] v' [Hn suff'] h' _ (md & mdQ & _ & _ & Es & _ & HHn & _ & _ & Hc & Hrel').
  cbn [fst snd] in *. subst suff'. by eapply lineSearchDecide_sim.
Qed.

End line_search.

(** *** The subproblem solver *)

Section solve.
Variables (WtW WtV G : ptr) (mWtW mWtV : Dense) (tol : float) (inner : Z) (beta : float).
Variables (base : nat) (h0 : store).
Hypothesis HWtW : cells h0 !! WtW = Some mWtW.
Hypothesis HWtV : cells h0 !! WtV = Some mWtV.
Hypothesis HG : base <= G < length (cells h0).
Hypothesis Hdist : WtW <> G /\ WtV <> G.

Definition solve_rel (sv : Dense * Dense * float * bool) (s : ptr * float * bool)
  (h : store) : Prop :=
  frame (fun q => q = G) h0 h /\
  cells h !! s.1.1 = Some sv.1.1.1 /\ base <= s.1.1 /\ s.1.1 <> G /\
  cells h !! G = Some sv.1.1.2 /\
  s.1.2 = sv.1.2 /\ s.2 = sv.2.

Lemma solveStep_sim i sv s h v :
  solve_rel sv s h ->
  refines (nmf.solveStep WtW WtV G tol inner beta i s)
    (vnmf.solveStep mWtW mWtV tol inner beta i sv v) (ctl_rel solve_rel) (mkWorld h v).
Proof using All.
  destruct s as [[H alpha] ok], sv as [[[mH mG] alpha'] ok'], h as [cs ws].
  intros (Hfr & HH & HbH & HHG & HGG & ? & ?); simpl in *; subst alpha' ok'.
  destruct Hdist as (?&?).
  assert (cs !! WtW = Some mWtW) by (eapply (frame_lookup _ _ _ _ _ Hfr); [done|lia]).
  assert (cs !! WtV = Some mWtV) by (eapply (frame_lookup _ _ _ _ _ Hfr); [done|lia]).
  unfold nmf.solveStep, nmf.projectedGradient, vnmf.solveStep, vnmf.gradient. unfold_methods.
  do 6 sim_step. { apply decFilt_eq. lookup. }
  do 3 sim_step.
  name_store h1.
  assert (Hfr1 : frame (fun q => q = G) h0 h1).
  { eapply (frame_trans _ (fun q => q = G)); [exact Hfr| |tauto]. subst h1. frame_tac. }
  assert (cells h1 !! H = Some mH) by (subst h1; lookup).
  assert (cells h1 !! G = Some R1) by (subst h1; lookup).
  assert (cells h1 !! WtW = Some mWtW) by (subst h1; lookup).
  clearbody h1. destruct h1 as [cs1 ws1]. cbn [cells] in *.
  destruct (_ <? _)%float.
  { sim_ret. cbn. done. }
  sim_step. sim_step.
  eapply refines_bind.
  { eapply (for_lt_sim _ _ (search_rel G p p0 base
              (mkStore ((cs1 ++ [matrix.empty]) ++ [matrix.empty]) ws1))).
    - intros. eapply lineSearchStep_sim; [lookup|lookup|len_lia|len_lia| | |eassumption].
      + len_lia.
      + repeat split; len_lia.
    - split; [apply frame_refl|]. cbn. split; [lookup|].
      repeat split; len_lia. }
  cbv beta. intros [j' sv'] v' [j'' s'] h2 _ [_ Hrel]. cbn [fst snd] in *.
  destruct Hrel as (Hfr2 & HH2 & HcH2 & _ & _ & Ha & Ho).
  sim_ret. cbn.
  destruct HcH2 as (?&?&?&?).
  split; [|repeat split; try done].
  - eapply (frame_trans _ (fun _ => False) _ _ _ Hfr1); [|tauto].
    eapply (frame_trans _ (fun q => q = p \/ q = p0)); [|exact Hfr2|].
    + frame_tac.
    + intros q [->| ->]; right; len_lia.
  - eapply (frame_lookup _ _ _ _ _ Hfr2); [lookup|len_lia].
Qed.

End solve.

Definition nnls_post (h : store) (rv : Dense * Dense * Z * bool)
  (r : ptr * ptr * Z * bool) (h' : store) : Prop :=
  r.1.2 = rv.1.2 /\ r.2 = rv.2 /\
  cells h' !! r.1.1.1 = Some rv.1.1.1 /\
  cells h' !! r.1.1.2 = Some rv.1.1.2 /\
  r.1.1.1 <> r.1.1.2 /\
  length (cells h) <= r.1.1.1 /\ length (cells h) <= r.1.1.2 /\
  frame (fun _ => False) h h'.

Lemma nnlsSubproblem_sim V W Ho mV mW mHo tol outer inner h v :
  cells h !! V = Some mV -> cells h !! W = Some mW -> cells h !! Ho = Some mHo ->
  refines (nmf.nnlsSubproblem V W Ho tol outer inner)
    (vnmf.nnlsSubproblem mV mW mHo tol outer inner v) (nnls_post h) (mkWorld h v).
Proof.
  destruct h as [cs ws]. cbn [cells]. intros HV HW HHo.
  unfold nmf.nnlsSubproblem, vnmf.nnlsSubproblem. unfold_methods.
  do 10 sim_step.
  name_store h1.
  eapply refines_bind.
  { eapply (for_lt_sim _ _ (solve_rel p3 (length cs) h1)).
    - intros. eapply solveStep_sim; subst h1; [lookup|lookup|len_lia| |done].
      split; len_lia.
    - split; [apply frame_refl|]. subst h1. cbn.
      split; [lookup|]. split; [len_lia|]. split; [len_lia|]. split; [lookup|done]. }
  cbv beta. intros [i' [[[mH mG] alpha'] ok']] v' [i'' [[H alpha] ok]] h2 _ [Hi Hrel].
  cbn [fst snd] in *. destruct Hrel as (Hfr2 & HH2 & HbH & HHG & HG2 & Ha & Hok).
  cbn [fst snd] in *. subst.
  destruct h2 as [cs2 ws2]. sim_step. sim_ret.
  unfold nnls_post. subst h1. cbn [fst snd cells writes] in *.
  destruct Hfr2 as (L & F & l & E & W').  cbn [cells writes] in *.
  repeat split; try done; try len_lia.
  - intros q Hq _. rewrite F; [lookup|len_lia|len_lia].
  - eexists. split; [rewrite E; rewrite <- ?app_assoc; reflexivity|].
    cbn [app]. repeat (constructor; [len_lia|]).
    eapply Forall_impl; [exact W'|]. cbn. intros q [->|?]; right; len_lia.
Qed.

(** *** The factoriser *)

Lemma frame_fresh wr h0 h h' :
  frame wr h0 h -> frame (fun q => length (cells h0) <= q) h h' -> frame wr h0 h'.
Proof. intros H1 H2. eapply frame_trans; [exact H1|exact H2|]. auto. Qed.

Lemma frame_fresh_weaken h0 h h' :
  length (cells h0) <= length (cells h) ->
  frame (fun _ => False) h h' -> frame (fun q => length (cells h0) <= q) h h'.
Proof.
  intros L (L' & F & l & E & W). split; [done|]. split.
  - intros q Hq _. apply F; [done|tauto].
  - exists l. split; [done|]. eapply Forall_impl; [exact W|].
    simpl. intros p [[]|Hp]. left. lia.
Qed.

Section factors_loop.
Variables (c : nmf.Config) (V Wo Ho vT hT wT : ptr) (mV : Dense) (to : Z) (grad : float).
Variable hin : store.
Hypothesis HV : cells hin !! V = Some mV.
Hypothesis HWo : Wo < length (cells hin).
Hypothesis HHo : Ho < length (cells hin).
Hypothesis Hloc :
  length (cells hin) <= vT /\ length (cells hin) <= hT /\ length (cells hin) <= wT /\
  vT <> hT /\ vT <> wT /\ hT <> wT.

Definition factors_rel (sv : vnmf.factors) (s : nmf.factors) (h : store) : Prop :=
  frame (fun _ => False) hin h /\
  (vT < length (cells h) /\ hT < length (cells h) /\ wT < length (cells h)) /\
  (cells h !! nmf.fW s = Some (vnmf.fW sv) /\
   cells h !! nmf.fH s = Some (vnmf.fH sv) /\
   cells h !! nmf.fgW s = Some (vnmf.fgW sv) /\
   cells h !! nmf.fgH s = Some (vnmf.fgH sv)) /\
  (length (cells hin) <= nmf.fgW s /\ length (cells hin) <= nmf.fgH s /\
   nmf.fgW s <> nmf.fgH s /\
   nmf.fgW s <> vT /\ nmf.fgW s <> hT /\ nmf.fgW s <> wT /\
   nmf.fgH s <> vT /\ nmf.fgH s <> hT /\ nmf.fgH s <> wT) /\
  (nmf.fH s <> vT /\ nmf.fH s <> hT /\ nmf.fH s <> wT /\
   nmf.fH s <> nmf.fgW s /\ nmf.fH s <> nmf.fgH s) /\
  (nmf.fW s <> vT /\ nmf.fW s <> hT /\
   nmf.fW s <> nmf.fgW s /\ nmf.fW s <> nmf.fgH s) /\
  (nmf.ftolW s = vnmf.ftolW sv /\ nmf.ftolH s = vnmf.ftolH sv /\
   nmf.fOk s = vnmf.fOk sv) /\
  (if vnmf.updated sv
   then nmf.fW s = wT /\ length (cells hin) <= nmf.fH s
   else nmf.fW s = Wo /\ nmf.fH s = Ho).

Lemma factorsStep_sim i sv s h v :
  factors_rel sv s h ->
  refines (nmf.factorsStep c V vT hT wT to grad i s)
    (vnmf.factorsStep c mV to grad i sv v) (ctl_rel factors_rel) (mkWorld h v).
Proof using All.
  destruct s as [W H gW gH tolW tolH ok], sv as [mW mH mgW mgH tolW' tolH' ok' upd].
  destruct h as [cs ws].
  intros (Hfr & (?&?&?) & (HW & HH & HgW & HgH) & (?&?&?&?&?&?&?&?&?) &
          (?&?&?&?&?) & (?&?&?&?) & (?&?&?) & Hupd).
  cbn [nmf.fW nmf.fH nmf.fgW nmf.fgH nmf.ftolW nmf.ftolH nmf.fOk
       vnmf.fW vnmf.fH vnmf.fgW vnmf.fgH vnmf.ftolW vnmf.ftolH vnmf.fOk
       vnmf.updated cells] in *.
  subst tolW' tolH' ok'.
  destruct Hloc as (?&?&?&?&?&?).
  assert (cs !! V = Some mV) by (eapply (frame_lookup _ _ _ _ _ Hfr); [done|tauto]).
  unfold nmf.factorsStep, nmf.stoppingNorm, vnmf.factorsStep. unfold_methods.
  cbn [nmf.fW nmf.fH nmf.fgW nmf.fgH nmf.ftolW nmf.ftolH nmf.fOk
       vnmf.fW vnmf.fH vnmf.fgW vnmf.fgH vnmf.ftolW vnmf.ftolH vnmf.fOk
       vnmf.updated].
  do 2 sim_step. { apply decFilt_eq. lookup. }
  do 2 sim_step. { apply decFilt_eq. lookup. }
  do 5 sim_step.
  name_store h1.
  assert (Hfr1 : frame (fun _ => False) hin h1).
  { eapply frame_fresh; [exact Hfr|]. subst h1. frame_tac. }
  assert (Hbreak : forall v', refines (mret (Break (nmf.mkFactors W H gW gH tolW tolH ok)))
            (Some (Break (vnmf.mkFactors mW mH R R0 tolW tolH ok upd), v'))
            (ctl_rel factors_rel) (mkWorld h1 v')).
  { intros v'. sim_ret. cbn. subst h1. cbn [cells].
    split; [done|]. split; [repeat split; len_lia|].
    split; [repeat split; lookup|]. done. }
  destruct (_ <? _)%float.
  { sim_step. apply Hbreak. }
  sim_step. sim_step. sim_step.
  destruct (_ <? _)%Z.
  { apply Hbreak. }
  clear Hbreak. subst h1.
  sim_step. sim_step. sim_step.
  name_store h1.
  assert (Hfr1' : frame (fun q => length (cells hin) <= q) (mkStore cs ws) h1).
  { subst h1. frame_tac. }
  eapply refines_bind.
  { eapply nnlsSubproblem_sim; subst h1; lookup. }
  intros [[[mW' mgW'] iter'] ok'] v' [[[W' gW'] iter] ok''] h2 _ Hpost.
  destruct Hpost as (? & ? & HW' & HgW' & ? & ? & ? & Hfr2).
  cbn [fst snd] in *. subst iter' ok'. cbv beta iota.
  assert (Hold : forall q m, cells h1 !! q = Some m -> cells h2 !! q = Some m).
  { intros q m Hq. eapply frame_lookup; eauto. }
  assert (cells h2 !! V = Some mV) by (apply Hold; subst h1; lookup).
  assert (cells h2 !! H = Some mH) by (apply Hold; subst h1; lookup).
  assert (length (cells h1) <= length (cells h2)) by (by eapply frame_length).
  assert (length (cells hin) <= length (cells h1)) by (subst h1; len_lia).
  assert (Hfr2' : frame (fun _ => False) hin h2).
  { eapply frame_fresh; [eapply frame_fresh; [exact Hfr|exact Hfr1']|].
    apply frame_fresh_weaken; [|done]. len_lia. }
  assert (wT < length (cells h1) /\ vT < length (cells h1) /\ hT < length (cells h1) /\
          gW < length (cells h1) /\ gH < length (cells h1) /\ H < length (cells h1) /\
          W < length (cells h1)) as (?&?&?&?&?&?&?)
    by (subst h1; repeat split; len_lia).
  clear Hold Hfr1' Hfr2 Hfr1 Hfr. clearbody h1.
  destruct h2 as [cs2 ws2]. cbn [cells] in *.
  do 5 sim_step.
  name_store h3.
  assert (Hfr3 : frame (fun _ => False) hin h3).
  { eapply frame_fresh; [exact Hfr2'|]. subst h3. frame_tac. }
  eapply refines_bind.
  { eapply nnlsSubproblem_sim; subst h3; lookup. }
  intros [[[mH' mgH'] iter'] ok'] v'' [[[H' gH'] iter2] ok2] h4 _ Hpost.
  destruct Hpost as (? & ? & HH' & HgH' & ? & ? & ? & Hfr4).
  cbn [fst snd] in *. subst iter' ok'. cbv beta iota.
  assert (Hold : forall q m, cells h3 !! q = Some m -> cells h4 !! q = Some m).
  { intros q m Hq. eapply frame_lookup; eauto. }
  assert (length (cells h3) <= length (cells h4)) by (by eapply frame_length).
  assert (length (cells hin) <= length (cells h3)) by (by eapply frame_length).
  sim_ret. unfold ctl_rel, factors_rel.
  cbn [nmf.fW nmf.fH nmf.fgW nmf.fgH nmf.ftolW nmf.ftolH nmf.fOk
       vnmf.fW vnmf.fH vnmf.fgW vnmf.fgH vnmf.ftolW vnmf.ftolH vnmf.fOk
       vnmf.updated].
  split.
  { eapply frame_fresh; [exact Hfr3|]. apply frame_fresh_weaken; [len_lia|done]. }
  assert (wT < length (cells h3) /\ vT < length (cells h3) /\ hT < length (cells h3) /\
          gW' < length (cells h3) /\ length (cells h3) = S (length cs2))
    as (?&?&?&?&?) by (subst h3; repeat split; len_lia).
  split; [repeat split; len_lia|].
  split. { repeat split; try done; apply Hold; subst h3; lookup. }
  repeat split; try done; try len_lia.
Qed.

End factors_loop.

Definition init_post (Wo Ho : ptr) (h : store) (rv : Z * float * vnmf.factors)
  (r : nmf.context * nmf.factors) (h' : store) : Prop :=
  nmf.cto r.1 = rv.1.1 /\ nmf.cgrad r.1 = rv.1.2 /\
  (length (cells h) <= nmf.cvT r.1 /\ length (cells h) <= nmf.chT r.1 /\
   length (cells h) <= nmf.cwT r.1 /\
   nmf.cvT r.1 <> nmf.chT r.1 /\ nmf.cvT r.1 <> nmf.cwT r.1 /\
   nmf.chT r.1 <> nmf.cwT r.1) /\
  factors_rel Wo Ho (nmf.cvT r.1) (nmf.chT r.1) (nmf.cwT r.1) h rv.2 r.2 h'.

Lemma factorsInit_sim V Wo Ho mV mWo mHo c h v :
  cells h !! V = Some mV -> cells h !! Wo = Some mWo -> cells h !! Ho = Some mHo ->
  refines (nmf.factorsInit V Wo Ho c) (vnmf.factorsInit mV mWo mHo c v)
    (init_post Wo Ho h) (mkWorld h v).
Proof.
  destruct h as [cs ws]. cbn [cells]. intros HV HW HH.
  unfold nmf.factorsInit, vnmf.factorsInit, vnmf.initial. unfold_methods.
  repeat sim_step. sim_ret.
  unfold init_post, factors_rel.
  cbn [fst snd nmf.cto nmf.cgrad nmf.cvT nmf.chT nmf.cwT]. proj_simpl.
  split; [done|]. split; [done|].
  split; [repeat split; len_lia|].
  split; [frame_tac|].
  split; [repeat split; len_lia|].
  split; [repeat split; lookup|].
  repeat split; len_lia.
Qed.

Definition factors_post (Wo Ho : ptr) (h : store) (rv : Dense * Dense * bool * bool)
  (r : ptr * ptr * bool) (h' : store) : Prop :=
  r.2 = rv.1.2 /\
  cells h' !! r.1.1 = Some rv.1.1.1 /\
  cells h' !! r.1.2 = Some rv.1.1.2 /\
  frame (fun _ => False) h h' /\
  if rv.2
  then length (cells h) <= r.1.1 /\ length (cells h) <= r.1.2 /\ r.1.1 <> r.1.2
  else r.1.1 = Wo /\ r.1.2 = Ho.

Lemma Factors_sim V Wo Ho mV mWo mHo c h v :
  cells h !! V = Some mV -> cells h !! Wo = Some mWo -> cells h !! Ho = Some mHo ->
  refines (nmf.Factors V Wo Ho c) (vnmf.Factors mV mWo mHo c v)
    (factors_post Wo Ho h) (mkWorld h v).
Proof.
  intros HV HW HH. unfold nmf.Factors, vnmf.Factors.
  eapply refines_bind; [by eapply factorsInit_sim|].
  intros [[to' grad'] sv] v1 [[vT hT wT to grad] s] h1 _ (? & ? & Hloc & Hrel).
  cbn [fst snd nmf.cto nmf.cgrad nmf.cvT nmf.chT nmf.cwT] in *. subst to' grad'.
  eapply refines_bind.
  { eapply (for_lt_sim _ _ (factors_rel Wo Ho vT hT wT h)); [|exact Hrel].
    intros. eapply factorsStep_sim; [done|by eapply lookup_lt_Some..|done|eassumption]. }
  cbv beta.
  intros [i' [mW mH mgW mgH tolW' tolH' ok' upd]] v' [i'' [W H gW gH tolW tolH ok]] h2 _
    [_ Hrel2].
  cbn [fst snd] in Hrel2.
  destruct Hrel2 as (Hfr & _ & (HW2 & HH2 & _) & _ & (_&_&?&_) & _ & (_&_&?) & Hupd).
  proj_simpl_all.
  sim_ret. unfold factors_post. cbn [fst snd].
  do 3 (split; [done|]). split; [exact Hfr|].
  destruct upd; [|done]. destruct Hupd as [-> ?].
  destruct Hloc as (?&?&?&?&?&?). repeat split; len_lia.
Qed.

(** ** Reasoning about the value-level reading *)

Lemma refines_Some_inv {A B} (m : M A) (r : option (B * env)) Q w a w' :
  refines m r Q w -> m w = Some (a, w') ->
  exists b, r = Some (b, wenv w') /\ Q b a (heap w').
Proof.
  unfold refines. destruct r as [[b v]|]; [|congruence].
  intros (a' & h & E & HQ) E'. rewrite E in E'. simplify_eq. eauto.
Qed.

Lemma refines_Some_run {A B} (m : M A) (r : option (B * env)) Q w b v :
  refines m r Q w -> r = Some (b, v) ->
  exists a h, m w = Some (a, mkWorld h v) /\ Q b a h.
Proof. intros H ->. exact H. Qed.

Lemma bind_Some {S A B} (m : ST S A) (k : A -> ST S B) s b s' :
  (m ≫= k) s = Some (b, s') ->
  exists a s1, m s = Some (a, s1) /\ k a s1 = Some (b, s').
Proof. rewrite run_bind. destruct (m s) as [[a s1]|]; [eauto|done]. Qed.

Lemma lift_Some {S A} (o : option A) (s : S) a s' :
  lift o s = Some (a, s') -> o = Some a /\ s' = s.
Proof. unfold lift. destruct o; [|done]. by intros [= -> ->]. Qed.

Lemma ret_Some {S A} (x : A) (s : S) a s' :
  mret (M := ST S) x s = Some (a, s') -> a = x /\ s' = s.
Proof. by intros [= -> ->]. Qed.

Definition ctl_state {St} (c : ctl St) : St :=
  match c with Break s => s | Continue s => s end.

(** An invariant of the body of a loop holds when the loop is left. *)
Lemma forLoop_inv {S St} (P : St -> S -> Prop) (body : Z -> St -> ST S (ctl St)) :
  (forall i s v c v', P s v -> body i s v = Some (c, v') -> P (ctl_state c) v') ->
  forall n i s v r v', P s v -> forLoop n i body s v = Some (r, v') -> P r.2 v'.
Proof.
  intros Hbody. induction n as [|n IH]; intros i s v r v' HP; simpl.
  - by intros [= <- <-].
  - intros E. apply bind_Some in E as (c & v1 & Hc & E).
    pose proof (Hbody _ _ _ _ _ HP Hc) as HP1.
    destruct c as [s1|s1]; simpl in *.
    + by injection E as [= <- <-].
    + eauto.
Qed.

Lemma for_lt_inv {S St} (P : St -> S -> Prop) (body : Z -> St -> ST S (ctl St)) N :
  (forall i s v c v', P s v -> body i s v = Some (c, v') -> P (ctl_state c) v') ->
  forall s v r v', P s v -> for_lt N body s v = Some (r, v') -> P r.2 v'.
Proof. intros H s v r v'. unfold for_lt. by apply forLoop_inv. Qed.

(** Symbolic execution of a value-level run that returned. *)
Ltac vstep H :=
  let a := fresh "a" in let v := fresh "v" in
  let H1 := fresh "E" in
  apply bind_Some in H as (a & v & H1 & H);
  first [ apply lift_Some in H1 as [H1 ->]
        | apply ret_Some in H1 as [-> ->]
        | idtac ].

Lemma obind_Some {A B} (o : option A) (g : A -> option B) b :
  o ≫= g = Some b -> exists a, o = Some a /\ g a = Some b.
Proof. destruct o; [eauto|done]. Qed.

Tactic Notation "vbind" hyp(H) "as" simple_intropattern(a) ident(H1) :=
  let v := fresh "v" in
  apply bind_Some in H as (a & v & H1 & H);
  first [ apply lift_Some in H1 as [H1 ->]
        | apply ret_Some in H1 as [-> ->]
        | idtac ].

Ltac ostep H :=
  let a := fresh "a" in let H1 := fresh "E" in
  apply obind_Some in H as (a & H1 & H).

(** *** Non-negativity *)

Lemma posFilt_nonneg r c v : f64.nonneg (nmf.posFilt r c v).
Proof.
  unfold nmf.posFilt. destruct (f64.gt0 v) eqn:E.
  - by apply f64.gt0_nonneg.
  - apply f64.zero_nonneg.
Qed.

Lemma clone_nonneg a b : matrix.clone a = Some b -> matrix.nonneg a -> matrix.nonneg b.
Proof.
  intros H Ha. eapply tabulate_Forall; [exact H|].
  intros i j x _ _. by apply At_Forall.
Qed.

Lemma transpose_nonneg a b :
  matrix.transpose a = Some b -> matrix.nonneg a -> matrix.nonneg b.
Proof.
  intros H Ha. eapply tabulate_Forall; [exact H|].
  intros i j x _ _. by apply At_Forall.
Qed.

Lemma project_nonneg a b : vnmf.project a = Some b -> matrix.nonneg b.
Proof.
  intros H. eapply tabulate_Forall; [exact H|].
  intros i j x _ _ Hx. cbv beta in Hx. ostep Hx. simplify_eq.
  apply posFilt_nonneg.
Qed.

Lemma candidate_nonneg WtW G H alpha Hn d dQ :
  vnmf.candidate WtW G H alpha = Some (Hn, d, dQ) -> matrix.nonneg Hn.
Proof.
  unfold vnmf.candidate. intros E. do 7 ostep E. simplify_eq.
  by eapply project_nonneg.
Qed.

Lemma lineSearchCandidate_inv WtW G s v Hn sufficient v' :
  vnmf.lineSearchCandidate WtW G s v = Some (Hn, sufficient, v') ->
  v' = v /\
  exists d dQ,
    vnmf.candidate WtW G (vnmf.sH s) (vnmf.sAlpha s) = Some (Hn, d, dQ) /\
    sufficient = nmf.sufficientDecrease (matrix.sum d) (matrix.sum dQ).
Proof.
  unfold vnmf.lineSearchCandidate. intros E.
  vbind E as [[Hn' d] dQ] Ec. apply ret_Some in E as [[= -> ->] ->]. eauto.
Qed.

Definition search_nonneg (s : vnmf.search) : Prop :=
  matrix.nonneg (vnmf.sH s) /\
  forall hp, vnmf.sHp s = Some hp -> matrix.nonneg hp.

Lemma lineSearchDecide_nonneg beta j s Hn sufficient v c v' :
  search_nonneg s -> matrix.nonneg Hn ->
  vnmf.lineSearchDecide beta j s Hn sufficient v = Some (c, v') ->
  search_nonneg (ctl_state c).
Proof.
  intros [HH HHp] HHn. unfold vnmf.lineSearchDecide. intros E.
  set (Hp := if (j =? 0)%Z then Some (vnmf.sH s) else vnmf.sHp s) in *.
  assert (HHp' : forall hp, Hp = Some hp -> matrix.nonneg hp).
  { subst Hp. destruct (j =? 0)%Z; [by intros ? [= <-]|done]. }
  clearbody Hp.
  destruct (if (j =? 0)%Z then _ else _).
  - destruct sufficient.
    + vbind E as [] Ee. apply ret_Some in E as [-> _]. by split.
    + apply ret_Some in E as [-> _]. by split.
  - vbind E as stop Es. destruct stop.
    + destruct Hp as [hp|]; [|done]. vbind E as hp' Ehp. vbind E as [] Ee.
      apply ret_Some in E as [-> _]. simplify_eq. split; [by apply HHp'|done].
    + apply ret_Some in E as [-> _]. split; [done|]. by intros ? [= <-].
Qed.

Lemma lineSearchStep_nonneg WtW G beta j s v c v' :
  search_nonneg s ->
  vnmf.lineSearchStep WtW G beta j s v = Some (c, v') ->
  search_nonneg (ctl_state c).
Proof.
  intros Hs. unfold vnmf.lineSearchStep. intros E.
  vbind E as [Hn suff] Ec. apply lineSearchCandidate_inv in Ec as (-> & d & dQ & Ec & _).
  apply candidate_nonneg in Ec. by eapply lineSearchDecide_nonneg.
Qed.

Lemma solveStep_nonneg WtW WtV tol inner beta i st v c v' :
  matrix.nonneg st.1.1.1 ->
  vnmf.solveStep WtW WtV tol inner beta i st v = Some (c, v') ->
  matrix.nonneg (ctl_state c).1.1.1.
Proof.
  destruct st as [[[H G0] alpha] ok]. simpl. intros HH E.
  unfold vnmf.solveStep in E. vbind E as G EG.
  destruct (_ <? _)%float.
  - apply ret_Some in E as [-> _]. done.
  - vbind E as r Er. apply ret_Some in E as [-> _]. simpl.
    eapply (for_lt_inv (fun s _ => search_nonneg s)) in Er as [? _]; [done| |].
    + intros ? ? ? ? ? ?. by apply lineSearchStep_nonneg.
    + split; [done|]. by intros ? [=].
Qed.

Lemma nnlsSubproblem_nonneg V W Ho tol outer inner v r v' :
  matrix.nonneg Ho ->
  vnmf.nnlsSubproblem V W Ho tol outer inner v = Some (r, v') ->
  matrix.nonneg r.1.1.1.
Proof.
  intros HHo E. unfold vnmf.nnlsSubproblem in E.
  vbind E as [] E0. vbind E as H0 EH. vbind E as wT EwT. vbind E as WtV EWtV.
  vbind E as WtW EWtW. vbind E as [i [[[H G] alpha] ok]] Eloop.
  vbind E as [] E1. apply ret_Some in E as [-> _]. simpl.
  eapply (for_lt_inv (fun st _ => matrix.nonneg st.1.1.1)) in Eloop; [done| |].
  - intros ? ? ? ? ? ?. by apply solveStep_nonneg.
  - simpl. by eapply clone_nonneg.
Qed.

Lemma factorsStep_nonneg c V to grad i s v r v' :
  matrix.nonneg (vnmf.fW s) -> matrix.nonneg (vnmf.fH s) ->
  vnmf.factorsStep c V to grad i s v = Some (r, v') ->
  matrix.nonneg (vnmf.fW (ctl_state r)) /\ matrix.nonneg (vnmf.fH (ctl_state r)).
Proof.
  intros HW HH E. unfold vnmf.factorsStep in E.
  vbind E as gW EgW. vbind E as gH EgH. vbind E as stop Estop. destruct stop.
  { apply ret_Some in E as [-> _]. done. }
  vbind E as vT EvT. vbind E as hT EhT. vbind E as wT EwT.
  vbind E as [[[W gW'] iter] ok] EW.
  vbind E as W' EW'. vbind E as gW'' EgW'.
  vbind E as [[[H gH'] iter'] ok'] EH.
  apply ret_Some in E as [-> _]. simpl in *.
  apply nnlsSubproblem_nonneg in EW; [|by eapply transpose_nonneg].
  apply nnlsSubproblem_nonneg in EH; [|done].
  split; [by eapply transpose_nonneg|done].
Qed.

Lemma Factors_nonneg V Wo Ho c v r v' :
  matrix.nonneg Wo -> matrix.nonneg Ho ->
  vnmf.Factors V Wo Ho c v = Some (r, v') ->
  matrix.nonneg r.1.1.1 /\ matrix.nonneg r.1.1.2.
Proof.
  intros HW HH E. unfold vnmf.Factors in E.
  vbind E as [[to grad] s] Einit. vbind E as r' Eloop.
  apply ret_Some in E as [-> _]. simpl.
  unfold vnmf.factorsInit in Einit.
  vbind Einit as to' Eto. vbind Einit as [[gW gH] grad'] Eg.
  apply ret_Some in Einit as [[= -> -> ->] _].
  eapply (for_lt_inv (fun s _ => matrix.nonneg (vnmf.fW s) /\ matrix.nonneg (vnmf.fH s)))
    in Eloop; [done| |done].
  intros ? ? ? ? ? [? ?]. by apply factorsStep_nonneg.
Qed.

Lemma factorsInit_run V Wo Ho c v :
  vnmf.factorsInit V Wo Ho c v =
  match vnmf.initial V Wo Ho with
  | Some (gW, gH, grad) =>
      let tol := (f64.Max 0.001 (nmf.Tolerance c) * grad)%float in
      Some (clock v (ticks v), grad, vnmf.mkFactors Wo Ho gW gH tol tol false false,
            env_tick v)
  | None => None
  end.
Proof.
  unfold vnmf.factorsInit. rewrite run_bind. cbn [timeNowV]. rewrite run_bind.
  unfold lift. by destruct (vnmf.initial V Wo Ho) as [[[gW gH] grad]|].
Qed.


(** *** The trace of a run *)

Definition solveFlag (e : event) : option bool :=
  match e with SolveEnd ok => Some ok | _ => None end.

(** The success flags the subproblem solves of a run returned, in order. *)
Definition solveFlags (evs : list event) : list bool := omap solveFlag evs.

Definition is_accept (e : event) : Prop :=
  match e with LineSearchAccept _ _ => True | _ => False end.

(** A reduce-mode acceptance is among the events. *)
Definition reduce_accepted (evs : list event) : Prop :=
  exists j, In (LineSearchAccept true j) evs.

Lemma solveFlags_accepts evs : Forall is_accept evs -> solveFlags evs = [].
Proof.
  induction 1 as [|e evs He _ IH]; [done|].
  destruct e; done.
Qed.

Lemma solveFlags_app l k : solveFlags (l ++ k) = solveFlags l ++ solveFlags k.
Proof. apply omap_app. Qed.

Lemma reduce_accepted_app l k :
  reduce_accepted (l ++ k) <-> reduce_accepted l \/ reduce_accepted k.
Proof.
  unfold reduce_accepted. setoid_rewrite in_app_iff. naive_solver.
Qed.

Lemma emitV_Some e v a v' : emitV e v = Some (a, v') -> v' = env_emit e v.
Proof. by intros [= _ <-]. Qed.

(** What the line search has recorded since [t0], when it started with
    success flag [ok0]. *)
Definition search_trace (t0 : list event) (ok0 : bool) (s : vnmf.search) (v : env) :
  Prop :=
  exists evs, trace v = t0 ++ evs /\ Forall is_accept evs /\
    (vnmf.sOk s = true <-> ok0 = true \/ reduce_accepted evs).

Lemma lineSearchDecide_trace beta t0 ok0 j s Hn sufficient v c v' :
  search_trace t0 ok0 s v ->
  vnmf.lineSearchDecide beta j s Hn sufficient v = Some (c, v') ->
  search_trace t0 ok0 (ctl_state c) v'.
Proof.
  intros (evs & Ht & Ha & Hok) E. unfold vnmf.lineSearchDecide in E.
  assert (Hsame : search_trace t0 ok0 s v) by (exists evs; done).
  assert (Hmore : forall r s', vnmf.sOk s' = (r || vnmf.sOk s) ->
            search_trace t0 ok0 s' (env_emit (LineSearchAccept r j) v)).
  { intros r s' Es'. exists (evs ++ [LineSearchAccept r j]). simpl.
    split; [by rewrite Ht, app_assoc|]. split; [apply Forall_app; by repeat constructor|].
    rewrite Es', reduce_accepted_app, orb_true_iff, Hok.
    unfold reduce_accepted. simpl. destruct r; naive_solver. }
  destruct (if (j =? 0)%Z then _ else _).
  - destruct sufficient.
    + vbind E as [] Ee. apply emitV_Some in Ee as ->.
      apply ret_Some in E as [-> ->]. by apply Hmore.
    + apply ret_Some in E as [-> ->]. exact Hsame.
  - vbind E as stop Es.
    assert (v0 = v) as ->.
    { destruct (negb _); [by apply ret_Some in Es as [_ ->]|].
      vbind Es as hp Ehp. by apply ret_Some in Es as [_ ->]. }
    destruct stop.
    + vbind E as hp Ehp. vbind E as [] Ee. apply emitV_Some in Ee as ->.
      apply ret_Some in E as [-> ->]. by apply Hmore.
    + apply ret_Some in E as [-> ->]. exact Hsame.
Qed.

Lemma lineSearchStep_trace WtW G beta t0 ok0 j s v c v' :
  search_trace t0 ok0 s v ->
  vnmf.lineSearchStep WtW G beta j s v = Some (c, v') ->
  search_trace t0 ok0 (ctl_state c) v'.
Proof.
  intros Hs. unfold vnmf.lineSearchStep. intros E.
  vbind E as [Hn suff] Ec. apply lineSearchCandidate_inv in Ec as (-> & _).
  by eapply lineSearchDecide_trace.
Qed.

(** What a subproblem solve has recorded since [t0]. *)
Definition solve_trace (t0 : list event) (st : Dense * Dense * float * bool) (v : env) :
  Prop :=
  exists evs, trace v = t0 ++ evs /\ Forall is_accept evs /\
    (st.2 = true <-> reduce_accepted evs).

Lemma solveStep_trace WtW WtV tol inner beta t0 i st v c v' :
  solve_trace t0 st v ->
  vnmf.solveStep WtW WtV tol inner beta i st v = Some (c, v') ->
  solve_trace t0 (ctl_state c) v'.
Proof.
  destruct st as [[[H G0] alpha] ok]. intros (evs & Ht & Ha & Hok) E.
  unfold vnmf.solveStep in E. vbind E as G EG.
  destruct (_ <? _)%float.
  - apply ret_Some in E as [-> ->]. by exists evs.
  - vbind E as r Er. apply ret_Some in E as [-> ->].
    eapply (for_lt_inv (search_trace (trace v) ok)) in Er.
    + destruct Er as (evs' & Ht' & Ha' & Hok'). exists (evs ++ evs'). simpl in *.
      split; [by rewrite Ht', Ht, app_assoc|]. split; [by apply Forall_app|].
      rewrite Hok', reduce_accepted_app, Hok. done.
    + intros ? ? ? ? ? ?. by apply lineSearchStep_trace.
    + exists []. rewrite app_nil_r. split; [done|]. split; [done|].
      simpl. unfold reduce_accepted. simpl. naive_solver.
Qed.

Lemma nnlsSubproblem_trace V W Ho tol outer inner v r v' :
  vnmf.nnlsSubproblem V W Ho tol outer inner v = Some (r, v') ->
  exists evs,
    trace v' = trace v ++ [SolveBegin] ++ evs ++ [SolveEnd r.2] /\
    Forall is_accept evs /\ (r.2 = true <-> reduce_accepted evs).
Proof.
  intros E. unfold vnmf.nnlsSubproblem in E.
  vbind E as [] E0. apply emitV_Some in E0 as ->.
  vbind E as H0 EH. vbind E as wT EwT. vbind E as WtV EWtV. vbind E as WtW EWtW.
  vbind E as [i [[[H G] alpha] ok]] Eloop.
  vbind E as [] E1. apply emitV_Some in E1 as ->. apply ret_Some in E as [-> ->].
  eapply (for_lt_inv (solve_trace (trace v ++ [SolveBegin]))) in Eloop.
  - destruct Eloop as (evs & Ht & Ha & Hok). exists evs. simpl in *.
    rewrite Ht, <- !app_assoc. done.
  - intros ? ? ? ? ? ?. by apply solveStep_trace.
  - exists []. rewrite app_nil_r. split; [done|]. split; [done|].
    simpl. unfold reduce_accepted. simpl. naive_solver.
Qed.

Lemma nnlsSubproblem_flags V W Ho tol outer inner v r v' :
  vnmf.nnlsSubproblem V W Ho tol outer inner v = Some (r, v') ->
  exists evs, trace v' = trace v ++ evs /\ solveFlags evs = [r.2].
Proof.
  intros E. apply nnlsSubproblem_trace in E as (evs & Ht & Ha & _).
  eexists. split; [exact Ht|].
  rewrite !solveFlags_app, (solveFlags_accepts evs Ha). done.
Qed.

(** What [Factors] has recorded since [t0]: no solve yet and [ok] still
    false, or [ok] is the conjunction of the last two flags. *)
Definition factors_trace (t0 : list event) (s : vnmf.factors) (v : env) : Prop :=
  exists evs, trace v = t0 ++ evs /\
    (solveFlags evs = [] /\ vnmf.fOk s = false \/
     exists l a b, solveFlags evs = l ++ [a; b] /\ vnmf.fOk s = a && b).

Lemma factorsStep_trace c V to grad t0 i s v r v' :
  factors_trace t0 s v ->
  vnmf.factorsStep c V to grad i s v = Some (r, v') ->
  factors_trace t0 (ctl_state r) v'.
Proof.
  intros (evs & Ht & Hfl) E. unfold vnmf.factorsStep in E.
  vbind E as gW EgW. vbind E as gH EgH. vbind E as stop Estop.
  assert (trace v0 = trace v) as Hv0.
  { destruct (_ <? _)%float; [by apply ret_Some in Estop as [_ ->]|].
    vbind Estop as now Enow. by apply ret_Some in Estop as [_ ->]. }
  destruct stop.
  { apply ret_Some in E as [-> ->]. exists evs. by rewrite Hv0. }
  vbind E as vT EvT. vbind E as hT EhT. vbind E as wT EwT.
  vbind E as [[[W gW'] iter] ok] EW.
  vbind E as W' EW'. vbind E as gW'' EgW'.
  vbind E as [[[H gH'] iter'] ok'] EH.
  apply ret_Some in E as [-> ->]. simpl in *.
  apply nnlsSubproblem_flags in EW as (e1 & Ht1 & Hf1).
  apply nnlsSubproblem_flags in EH as (e2 & Ht2 & Hf2). simpl in *.
  exists (evs ++ e1 ++ e2). split; [by rewrite Ht2, Ht1, Hv0, Ht, <- !app_assoc|].
  right. exists (solveFlags evs), ok, ok'.
  by rewrite !solveFlags_app, Hf1, Hf2.
Qed.

Lemma Factors_trace V Wo Ho c v r v' :
  vnmf.Factors V Wo Ho c v = Some (r, v') ->
  exists evs, trace v' = trace v ++ evs /\
    (solveFlags evs = [] /\ r.1.2 = false \/
     exists l a b, solveFlags evs = l ++ [a; b] /\ r.1.2 = a && b).
Proof.
  intros E. unfold vnmf.Factors in E.
  vbind E as [[to grad] s] Einit. vbind E as r' Eloop.
  apply ret_Some in E as [-> ->]. simpl.
  rewrite factorsInit_run in Einit.
  destruct (vnmf.initial V Wo Ho) as [[[gW gH] grad']|]; [|done].
  injection Einit as [= <- <- <- <-].
  eapply (for_lt_inv (factors_trace (trace v))) in Eloop; [exact Eloop| |].
  - intros ? ? ? ? ? ?. by apply factorsStep_trace.
  - exists []. rewrite app_nil_r. split; [done|]. by left.
Qed.
(** *** Entries of the results *)

Lemma zipWith_At op a b m i j x y :
  matrix.zipWith op a b = Some m ->
  matrix.At a i j = Some x -> matrix.At b i j = Some y ->
  matrix.At m i j = Some (op x y).
Proof.
  unfold matrix.zipWith. destruct (matrix.same_dims a b); [|done].
  intros Hm Hx Hy. pose proof (At_inv _ _ _ _ Hx) as (Hi & Hj & _).
  destruct (tabulate_At _ _ _ _ Hm i j Hi Hj) as (z & Hz & ->).
  rewrite Hx, Hy in Hz. done.
Qed.

Lemma zipWith_dims op a b m :
  matrix.zipWith op a b = Some m ->
  Rows m = Rows a /\ Cols m = Cols a /\ Rows b = Rows a /\ Cols b = Cols a.
Proof.
  unfold matrix.zipWith, matrix.same_dims.
  destruct (Nat.eqb_spec (Rows a) (Rows b)); [|done].
  destruct (Nat.eqb_spec (Cols a) (Cols b)); [|done]. simpl.
  intros Hm. rewrite (tabulate_Rows _ _ _ _ Hm), (tabulate_Cols _ _ _ _ Hm). done.
Qed.

Lemma scale_At f a m i j x :
  matrix.scale f a = Some m -> matrix.At a i j = Some x ->
  matrix.At m i j = Some (f * x)%float.
Proof.
  unfold matrix.scale. intros Hm Hx.
  pose proof (At_inv _ _ _ _ Hx) as (Hi & Hj & _).
  destruct (tabulate_At _ _ _ _ Hm i j Hi Hj) as (z & Hz & ->).
  rewrite Hx in Hz. done.
Qed.

Lemma apply_At f a m i j x :
  matrix.apply f a = Some m -> matrix.At a i j = Some x ->
  exists y, f i j x = Some y /\ matrix.At m i j = Some y.
Proof.
  unfold matrix.apply. intros Hm Hx.
  pose proof (At_inv _ _ _ _ Hx) as (Hi & Hj & _).
  destruct (tabulate_At _ _ _ _ Hm i j Hi Hj) as (z & Hz & ->).
  rewrite Hx in Hz. eauto.
Qed.

Lemma apply_dims f a m :
  matrix.apply f a = Some m -> Rows m = Rows a /\ Cols m = Cols a.
Proof.
  unfold matrix.apply. intros Hm.
  by rewrite (tabulate_Rows _ _ _ _ Hm), (tabulate_Cols _ _ _ _ Hm).
Qed.

Lemma apply_defined f a m i j :
  matrix.apply f a = Some m -> i < Rows a -> j < Cols a ->
  exists x, matrix.At a i j = Some x.
Proof.
  unfold matrix.apply. intros Hm Hi Hj.
  destruct (tabulate_At _ _ _ _ Hm i j Hi Hj) as (z & Hz & _).
  destruct (matrix.At a i j); [eauto|done].
Qed.

Lemma transpose_At a m i j :
  matrix.transpose a = Some m -> i < Cols a -> j < Rows a ->
  matrix.At m i j = matrix.At a j i.
Proof.
  unfold matrix.transpose. intros Hm Hi Hj.
  destruct (tabulate_At _ _ _ _ Hm i j Hi Hj) as (z & Hz & ->). done.
Qed.

Lemma stack_At_top a b m i j :
  matrix.stack a b = Some m -> i < Rows a -> j < Cols a ->
  matrix.At m i j = matrix.At a i j.
Proof.
  unfold matrix.stack. destruct (Cols a =? Cols b)%nat; [|done]. intros Hm Hi Hj.
  destruct (tabulate_At _ _ _ _ Hm i j ltac:(lia) Hj) as (z & Hz & ->).
  destruct (Nat.ltb_spec i (Rows a)); [done|lia].
Qed.

Lemma stack_At_bottom a b m i j :
  matrix.stack a b = Some m -> i < Rows b -> j < Cols b ->
  matrix.At m (Rows a + i) j = matrix.At b i j.
Proof.
  unfold matrix.stack. destruct (Nat.eqb_spec (Cols a) (Cols b)); [|done].
  intros Hm Hi Hj.
  destruct (tabulate_At _ _ _ _ Hm (Rows a + i) j ltac:(lia) ltac:(lia)) as (z & Hz & ->).
  destruct (Nat.ltb_spec (Rows a + i) (Rows a)); [lia|].
  by replace (Rows a + i - Rows a) with i in Hz by lia.
Qed.

Lemma stack_dims a b m :
  matrix.stack a b = Some m -> Rows m = Rows a + Rows b /\ Cols m = Cols a.
Proof.
  unfold matrix.stack. destruct (Cols a =? Cols b)%nat; [|done]. intros Hm.
  by rewrite (tabulate_Rows _ _ _ _ Hm), (tabulate_Cols _ _ _ _ Hm).
Qed.
(** *** Exact equality of projected entries *)

(** What [posFilt] returns: the literal [0] or a float above it; never a
    NaN and never the negative zero. *)
Definition clamped (v : float) : Prop := v = f64.zero \/ f64.gt0 v = true.

Lemma posFilt_clamped r c v : clamped (nmf.posFilt r c v).
Proof.
  unfold nmf.posFilt, clamped. destruct (f64.gt0 v) eqn:E; auto.
Qed.

Lemma Prim2SF_zero : Prim2SF f64.zero = S754_zero false.
Proof. reflexivity. Qed.

Lemma SFcompare_Eq_positive x y :
  SFcompare (S754_zero false) x = Some Lt ->
  SFcompare (S754_zero false) y = Some Lt ->
  SFcompare x y = Some Eq -> x = y.
Proof.
  destruct x as [sx|sx| |sx mx ex], y as [sy|sy| |sy my ey]; simpl; try done;
    destruct sx, sy; simpl; try done.
  destruct (Z.compare_spec ex ey); try done. subst.
  intros _ _ [= E]. apply Pos.compare_eq in E. by subst.
Qed.

Lemma SFcompare_refl_positive x :
  SFcompare (S754_zero false) x = Some Lt -> SFcompare x x = Some Eq.
Proof.
  destruct x as [sx|sx| |sx mx ex]; simpl; try done; destruct sx; simpl; try done.
  rewrite Z.compare_refl. by rewrite Pos.compare_cont_refl.
Qed.

Lemma gt0_SFcompare v :
  f64.gt0 v = true <-> SFcompare (S754_zero false) (Prim2SF v) = Some Lt.
Proof.
  unfold f64.gt0. rewrite ltb_spec. unfold SFltb. change (Prim2SF 0) with (S754_zero false).
  destruct (SFcompare _ _) as [[]|]; split; congruence.
Qed.

(** On clamped floats, Go's [==] is identity of the two values. *)
Lemma clamped_eqb x y : clamped x -> clamped y -> (x =? y)%float = true <-> x = y.
Proof.
  intros Hx Hy. rewrite FloatAxioms.eqb_spec. unfold SFeqb. split.
  - intros E. apply Prim2SF_inj.
    destruct Hx as [->|Hx], Hy as [->|Hy]; [done| | |].
    + apply gt0_SFcompare in Hy. rewrite Prim2SF_zero in *.
      destruct (SFcompare _ _) as [[]|]; congruence.
    + apply gt0_SFcompare in Hx. rewrite Prim2SF_zero in *.
      destruct (Prim2SF x) as [[]|[]| |[] ? ?]; simpl in *; congruence.
    + apply gt0_SFcompare in Hx, Hy. apply SFcompare_Eq_positive; try done.
      destruct (SFcompare (Prim2SF x) (Prim2SF y)) as [[]|]; congruence.
  - intros <-. destruct Hx as [->|Hx]; [done|].
    apply gt0_SFcompare in Hx. by rewrite (SFcompare_refl_positive _ Hx).
Qed.

(** A matrix all of whose entries are clamped: every candidate [Hn]. *)
Definition projected (m : Dense) : Prop := Forall clamped (Data m).

Lemma project_projected a b : vnmf.project a = Some b -> projected b.
Proof.
  unfold vnmf.project, matrix.apply. intros Hb.
  eapply tabulate_Forall; [exact Hb|]. intros i j x _ _ Hx.
  cbv beta in Hx. ostep Hx. simplify_eq. apply posFilt_clamped.
Qed.

Lemma forallb_eqb_clamped l k :
  Forall clamped l -> Forall clamped k -> length l = length k ->
  forallb (fun xy => (fst xy =? snd xy)%float) (combine l k) = true <-> l = k.
Proof.
  intros Hl. revert k. induction Hl as [|x l Hx Hl IH]; intros [|y k] Hk Hlen; try done.
  apply Forall_cons in Hk as [Hy Hk]. simpl in *.
  rewrite andb_true_iff, (clamped_eqb _ _ Hx Hy), (IH k Hk) by lia.
  split; [intros [-> ->]; done|]. intros [= -> ->]. done.
Qed.

(** [Equals] on projected matrices: the two matrices are the same value,
    entry for entry and bit for bit. *)
Lemma equals_projected a b :
  matrix.wf a -> matrix.wf b -> projected a -> projected b ->
  matrix.equals a b = true <-> a = b.
Proof.
  intros Ha Hb Pa Pb. unfold matrix.equals, matrix.same_dims.
  destruct a as [ra ca da], b as [rb cb db]. unfold matrix.wf in *. simpl in *.
  rewrite !andb_true_iff, !Nat.eqb_eq. split.
  - intros [[-> ->] E]. apply forallb_eqb_clamped in E; [by subst|done|done|congruence].
  - intros [= -> -> ->]. split; [done|]. by apply forallb_eqb_clamped.
Qed.

(** ** The claims *)

Lemma nonneg_forallb m :
  forallb (fun x => (0 <=? x)%float) (Data m) = true -> matrix.nonneg m.
Proof.
  intros H. apply Forall_forall. intros x Hx.
  rewrite forallb_forall in H. apply H. by apply list_elem_of_In.
Qed.

(** A small run used to exercise the theorems: [V] is 2x2, [k = 2]. *)
Definition exV : Dense := mkDense 2 2 [4; 0; 1; 3]%float.
Definition exWo : Dense := mkDense 2 2 [1; 0.5; 0.25; 1]%float.
Definition exHo : Dense := mkDense 2 2 [0.5; 1; 1; 0.25]%float.
Definition exEnv : env := mkEnv (fun _ => 0%Z) 0 [].
Definition exWorld : world := mkWorld (mkStore [exV; exWo; exHo] []) exEnv.
Definition exConfig : nmf.Config := nmf.mkConfig 1e-5 3 1000000000 10 20.
Definition exRun : option (ptr * ptr * bool * world) :=
  nmf.Factors 0 1 2 exConfig exWorld.
Definition exResult : ptr * ptr * bool * world :=
  default (0, 0, false, exWorld) exRun.

(** C1: when [Factors] is given non-negative [Wo] and [Ho] and returns,
    every entry of the matrices [W] and [H] it returns is [>= 0]. *)
Theorem C1_factors_nonneg V Wo Ho c w W H ok w' mV mWo mHo :
  cells (heap w) !! V = Some mV ->
  cells (heap w) !! Wo = Some mWo ->
  cells (heap w) !! Ho = Some mHo ->
  matrix.nonneg mWo -> matrix.nonneg mHo ->
  nmf.Factors V Wo Ho c w = Some (W, H, ok, w') ->
  exists mW mH,
    cells (heap w') !! W = Some mW /\ cells (heap w') !! H = Some mH /\
    matrix.nonneg mW /\ matrix.nonneg mH.
Proof.
  destruct w as [h v]. cbn [heap]. intros HV HWo HHo HnW HnH E.
  pose proof (Factors_sim V Wo Ho mV mWo mHo c h v HV HWo HHo) as Hsim.
  destruct (refines_Some_inv _ _ _ _ _ _ Hsim E) as ([[[mW mH] ok'] upd] & EV & Hpost).
  unfold factors_post in Hpost. cbn [fst snd] in Hpost.
  destruct Hpost as (_ & HW & HH & _).
  apply Factors_nonneg in EV as [? ?]; [|done..].
  exists mW, mH. done.
Qed.

Lemma C1_factors_nonneg_witness :
  exists mW mH,
    cells (heap exResult.2) !! exResult.1.1.1 = Some mW /\
    cells (heap exResult.2) !! exResult.1.1.2 = Some mH /\
    matrix.nonneg mW /\ matrix.nonneg mH.
Proof.
  apply (C1_factors_nonneg 0 1 2 exConfig exWorld _ _ exResult.1.2 _ exV exWo exHo).
  - reflexivity.
  - reflexivity.
  - reflexivity.
  - apply nonneg_forallb. vm_compute. reflexivity.
  - apply nonneg_forallb. vm_compute. reflexivity.
  - vm_compute. reflexivity.
Defined.

(** C9: a call of [Factors] never writes to a matrix that existed before
    the call, so [V], [Wo] and [Ho] keep their entries: every write goes to
    a cell allocated during the call, the returned [W] and [H] are new cells
    unless they are still [Wo] and [Ho], and the same holds for the matrices
    [nnlsSubproblem] returns, which starts from a clone of its [Ho]. *)
Theorem C9_inputs_not_modified :
  (forall V Wo Ho c w W H ok w' mV mWo mHo,
     cells (heap w) !! V = Some mV ->
     cells (heap w) !! Wo = Some mWo ->
     cells (heap w) !! Ho = Some mHo ->
     nmf.Factors V Wo Ho c w = Some (W, H, ok, w') ->
     cells (heap w') !! V = Some mV /\
     cells (heap w') !! Wo = Some mWo /\
     cells (heap w') !! Ho = Some mHo /\
     (forall q m, cells (heap w) !! q = Some m -> cells (heap w') !! q = Some m) /\
     (exists l, writes (heap w') = writes (heap w) ++ l /\
                Forall (fun p => length (cells (heap w)) <= p) l) /\
     (W = Wo /\ H = Ho \/
      length (cells (heap w)) <= W /\ length (cells (heap w)) <= H)) /\
  (forall V W Ho tol outer inner w H G i ok w' mV mW mHo,
     cells (heap w) !! V = Some mV ->
     cells (heap w) !! W = Some mW ->
     cells (heap w) !! Ho = Some mHo ->
     nmf.nnlsSubproblem V W Ho tol outer inner w = Some (H, G, i, ok, w') ->
     (forall q m, cells (heap w) !! q = Some m -> cells (heap w') !! q = Some m) /\
     (exists l, writes (heap w') = writes (heap w) ++ l /\
                Forall (fun p => length (cells (heap w)) <= p) l) /\
     length (cells (heap w)) <= H /\ length (cells (heap w)) <= G).
Proof.
  assert (Hframe : forall h h', frame (fun _ => False) h h' ->
            (forall q m, cells h !! q = Some m -> cells h' !! q = Some m) /\
            (exists l, writes h' = writes h ++ l /\
                       Forall (fun p => length (cells h) <= p) l)).
  { intros h h' Hfr. split.
    - intros q m Hq. by eapply frame_keep.
    - destruct Hfr as (_ & _ & l & E & F). exists l. split; [done|].
      eapply Forall_impl; [exact F|]. simpl. tauto. }
  split.
  - intros V Wo Ho c [h v] W H ok w' mV mWo mHo HV HWo HHo E. cbn [heap] in *.
    pose proof (Factors_sim V Wo Ho mV mWo mHo c h v HV HWo HHo) as Hsim.
    destruct (refines_Some_inv _ _ _ _ _ _ Hsim E) as ([[[mW mH] ok'] upd] & _ & Hpost).
    unfold factors_post in Hpost. cbn [fst snd] in Hpost.
    destruct Hpost as (_ & _ & _ & Hfr & Hupd).
    destruct (Hframe _ _ Hfr) as [Hkeep Hwr].
    repeat split; auto.
    destruct upd; [right|left]; tauto.
  - intros V W Ho tol outer inner [h v] H G i ok w' mV mW mHo HV HW HHo E.
    cbn [heap] in *.
    pose proof (nnlsSubproblem_sim V W Ho mV mW mHo tol outer inner h v HV HW HHo) as Hsim.
    destruct (refines_Some_inv _ _ _ _ _ _ Hsim E) as (rv & _ & Hpost).
    unfold nnls_post in Hpost. cbn [fst snd] in Hpost.
    destruct Hpost as (_ & _ & _ & _ & _ & ? & ? & Hfr).
    destruct (Hframe _ _ Hfr) as [Hkeep Hwr]. auto.
Qed.

Lemma C9_inputs_not_modified_witness :
  cells (heap exResult.2) !! 0 = Some exV /\
  cells (heap exResult.2) !! 1 = Some exWo /\
  cells (heap exResult.2) !! 2 = Some exHo /\
  3 <= exResult.1.1.1 /\ 3 <= exResult.1.1.2.
Proof.
  destruct (proj1 C9_inputs_not_modified 0 1 2 exConfig exWorld
              exResult.1.1.1 exResult.1.1.2 exResult.1.2 exResult.2 exV exWo exHo)
    as (HV & HW & HH & _ & _ & Hfresh).
  - reflexivity.
  - reflexivity.
  - reflexivity.
  - vm_compute. reflexivity.
  - repeat split; try assumption.
    all: destruct Hfresh as [[E _]|[? ?]]; [vm_compute in E; discriminate E|assumption].
Defined.

Lemma Factors_zero_run V Wo Ho c v :
  nmf.MaxIter c = 0%Z ->
  vnmf.Factors V Wo Ho c v =
  match vnmf.initial V Wo Ho with
  | Some _ => Some (Wo, Ho, false, false, env_tick v)
  | None => None
  end.
Proof.
  intros E0. unfold vnmf.Factors. rewrite run_bind, factorsInit_run.
  destruct (vnmf.initial V Wo Ho) as [[[gW gH] grad]|]; [|done].
  cbv zeta. unfold for_lt. rewrite E0. reflexivity.
Qed.

(** C3: with [MaxIter = 0], [Factors] returns the pointers [Wo] and [Ho]
    it was given, their matrices unchanged, and [ok = false], without
    entering [nnlsSubproblem] (no event is recorded); and it does return
    when the shapes of [V], [Wo] and [Ho] fit. *)
Theorem C3_zero_iterations V Wo Ho c w mV mWo mHo :
  cells (heap w) !! V = Some mV ->
  cells (heap w) !! Wo = Some mWo ->
  cells (heap w) !! Ho = Some mHo ->
  nmf.MaxIter c = 0%Z ->
  (forall r w', nmf.Factors V Wo Ho c w = Some (r, w') ->
     r = (Wo, Ho, false) /\
     cells (heap w') !! Wo = Some mWo /\ cells (heap w') !! Ho = Some mHo /\
     trace (wenv w') = trace (wenv w)) /\
  (shapes_fit mV mWo mHo ->
     exists w', nmf.Factors V Wo Ho c w = Some (Wo, Ho, false, w')).
Proof.
  destruct w as [h v]. cbn [heap wenv]. intros HV HWo HHo E0.
  pose proof (Factors_sim V Wo Ho mV mWo mHo c h v HV HWo HHo) as Hsim.
  rewrite (Factors_zero_run _ _ _ _ _ E0) in Hsim.
  split.
  - intros [[W H] ok] w' E.
    destruct (refines_Some_inv _ _ _ _ _ _ Hsim E) as (rv & EV & Hpost).
    destruct (vnmf.initial mV mWo mHo); [|done]. injection EV as [= <- Ev].
    unfold factors_post in Hpost. cbn [fst snd] in Hpost.
    destruct Hpost as (-> & _ & _ & Hfr & -> & ->).
    split; [done|]. split; [by eapply frame_keep|]. split; [by eapply frame_keep|].
    by rewrite <- Ev.
  - intros Hfit. destruct (initial_is_Some _ _ _ Hfit) as [g Hg]. rewrite Hg in Hsim.
    destruct Hsim as ([[W H] ok] & h' & E & Hpost).
    unfold factors_post in Hpost. cbn [fst snd] in Hpost.
    destruct Hpost as (-> & _ & _ & _ & -> & ->). eauto.
Qed.

Definition exConfig0 : nmf.Config := nmf.mkConfig 1e-5 0 1000000000 10 20.

Lemma exShapes : shapes_fit exV exWo exHo.
Proof. exists 2, 2, 2. repeat split. Qed.

Lemma C3_zero_iterations_witness :
  exists w', nmf.Factors 0 1 2 exConfig0 exWorld = Some (1, 2, false, w').
Proof.
  apply (C3_zero_iterations 0 1 2 exConfig0 exWorld exV exWo exHo);
    [reflexivity..|exact exShapes].
Defined.

(** The stopping criterion at the first outer iteration: the norm of the
    two projected initial gradients is below [Tolerance * grad]. *)
Definition projNorm (W H gW gH : Dense) : option float :=
  pW ← matrix.apply (vnmf.decFilt W) gW;
  pH ← matrix.apply (vnmf.decFilt H) gH;
  Some (f64.Sqrt (matrix.sumsq (matrix.sumsq f64.zero (Data pW)) (Data pH))).

Definition converged_at_start (c : nmf.Config) (V W H : Dense) : Prop :=
  exists gW gH grad proj,
    vnmf.initial V W H = Some (gW, gH, grad) /\
    projNorm W H gW gH = Some proj /\
    (proj <? nmf.Tolerance c * grad)%float = true.

Lemma Factors_converged_run V Wo Ho c v :
  (0 < nmf.MaxIter c)%Z -> converged_at_start c V Wo Ho ->
  vnmf.Factors V Wo Ho c v = Some (Wo, Ho, false, false, env_tick v).
Proof.
  intros Hpos (gW & gH & grad & proj & Hi & Hp & Hlt).
  unfold vnmf.Factors. rewrite run_bind, factorsInit_run, Hi. cbv zeta.
  unfold for_lt. destruct (Z.to_nat (nmf.MaxIter c)) as [|n] eqn:En; [lia|].
  cbn [forLoop]. rewrite !run_bind. unfold vnmf.factorsStep.
  unfold projNorm in Hp.
  destruct (matrix.apply (vnmf.decFilt Wo) gW) as [pW|] eqn:EW; [|done].
  destruct (matrix.apply (vnmf.decFilt Ho) gH) as [pH|] eqn:EH; [|done].
  injection Hp as [= <-].
  rewrite !run_bind. cbn [vnmf.fW vnmf.fH vnmf.fgW vnmf.fgH]. rewrite EW.
  cbn [lift]. rewrite run_bind, EH. cbn [lift]. rewrite run_bind.
  cbn [vnmf.fgW vnmf.fgH]. rewrite Hlt. reflexivity.
Qed.

(** C10: when [MaxIter > 0] and the initial factors already meet the
    stopping criterion, [Factors] leaves its loop at the first test and
    returns [Wo] and [Ho], unchanged, with [ok = false]. *)
Theorem C10_converged_at_start V Wo Ho c w mV mWo mHo :
  cells (heap w) !! V = Some mV ->
  cells (heap w) !! Wo = Some mWo ->
  cells (heap w) !! Ho = Some mHo ->
  (0 < nmf.MaxIter c)%Z ->
  converged_at_start c mV mWo mHo ->
  exists w',
    nmf.Factors V Wo Ho c w = Some (Wo, Ho, false, w') /\
    cells (heap w') !! Wo = Some mWo /\ cells (heap w') !! Ho = Some mHo /\
    trace (wenv w') = trace (wenv w).
Proof.
  destruct w as [h v]. cbn [heap wenv]. intros HV HWo HHo Hpos Hconv.
  pose proof (Factors_sim V Wo Ho mV mWo mHo c h v HV HWo HHo) as Hsim.
  rewrite (Factors_converged_run _ _ _ _ _ Hpos Hconv) in Hsim.
  destruct Hsim as ([[W H] ok] & h' & E & Hpost).
  unfold factors_post in Hpost. cbn [fst snd] in Hpost.
  destruct Hpost as (-> & _ & _ & Hfr & -> & ->).
  eexists. split; [exact E|]. cbn [heap wenv].
  split; [by eapply frame_keep|]. split; [by eapply frame_keep|done].
Qed.

Definition exConfigLoose : nmf.Config := nmf.mkConfig 2 100 1000000000 10 20.

Lemma C10_converged_at_start_witness :
  exists w',
    nmf.Factors 0 1 2 exConfigLoose exWorld = Some (1, 2, false, w') /\
    cells (heap w') !! 1 = Some exWo /\ cells (heap w') !! 2 = Some exHo /\
    trace (wenv w') = trace (wenv exWorld).
Proof.
  apply (C10_converged_at_start 0 1 2 exConfigLoose exWorld exV exWo exHo);
    [reflexivity..| |].
  - reflexivity.
  - unfold converged_at_start.
    destruct (vnmf.initial exV exWo exHo) as [[[gW gH] grad]|] eqn:Ei;
      [|vm_compute in Ei; discriminate Ei].
    destruct (projNorm exWo exHo gW gH) as [proj|] eqn:Ep.
    + exists gW, gH, grad, proj. split; [reflexivity|]. split; [exact Ep|].
      vm_compute in Ei. injection Ei as [= <- <- <-].
      vm_compute in Ep. injection Ep as [= <-]. vm_compute. reflexivity.
    + vm_compute in Ei. injection Ei as [= <- <- <-].
      vm_compute in Ep. discriminate Ep.
Defined.

(** A subproblem whose line search expands: [V = (0)], [W = (1)],
    [Ho = (1)], all 1x1. *)
Definition cexWorld : world :=
  mkWorld (mkStore [mkDense 1 1 [0]; mkDense 1 1 [1]; mkDense 1 1 [1]]%float [])
    exEnv.
Definition cexRun : option (ptr * ptr * Z * bool * world) :=
  nmf.nnlsSubproblem 0 1 2 0.5 10 20 cexWorld.
Definition cexResult : ptr * ptr * Z * bool * world :=
  default (0, 0, 0%Z, false, cexWorld) cexRun.

(** Some inner iteration left the line search by accepting a matrix for
    [H], in reduce or in expand mode. *)
Definition accepted (evs : list event) : Prop :=
  exists r j, In (LineSearchAccept r j) evs.

(** C2 as stated does not hold: on the 1x1 subproblem above the line
    search expands, iteration [j = 1] accepts [H = Hp], the solver returns
    the new matrix [(0)] in place of [(1)], and [ok] is false. *)
Lemma C2_counterexample :
  exists H G i ok w',
    nmf.nnlsSubproblem 0 1 2 0.5 10 20 cexWorld = Some (H, G, i, ok, w') /\
    cells (heap cexWorld) !! 2 = Some (mkDense 1 1 [1]%float) /\
    cells (heap w') !! H = Some (mkDense 1 1 [0]%float) /\
    In (LineSearchAccept false 1) (trace (wenv w')) /\
    ~ (ok = true <-> accepted (trace (wenv w'))).
Proof.
  exists cexResult.1.1.1.1, cexResult.1.1.1.2, cexResult.1.1.2, cexResult.1.2, cexResult.2.
  split; [vm_compute; reflexivity|].
  split; [reflexivity|]. split; [vm_compute; reflexivity|].
  assert (Hin : In (LineSearchAccept false 1) (trace (wenv cexResult.2))).
  { vm_compute. auto. }
  split; [exact Hin|].
  intros [_ Hok]. assert (E : cexResult.1.2 = true) by (apply Hok; by exists false, 1%Z).
  vm_compute in E. discriminate E.
Qed.

(** C2, amended: the [ok] that [nnlsSubproblem] returns is true exactly
    when some inner iteration in reduce mode accepted its candidate
    ([H = &Hn]); leaving the line search in expand mode ([H = Hp]) does not
    set it. Between entry and return the solver records nothing but
    line-search acceptances. *)
Theorem C2_ok_iff_reduce_accept V W Ho tol outer inner w H G i ok w' mV mW mHo :
  cells (heap w) !! V = Some mV ->
  cells (heap w) !! W = Some mW ->
  cells (heap w) !! Ho = Some mHo ->
  nmf.nnlsSubproblem V W Ho tol outer inner w = Some (H, G, i, ok, w') ->
  exists evs,
    trace (wenv w') = trace (wenv w) ++ [SolveBegin] ++ evs ++ [SolveEnd ok] /\
    Forall is_accept evs /\
    (ok = true <-> exists j, In (LineSearchAccept true j) evs).
Proof.
  destruct w as [h v]. cbn [heap wenv]. intros HV HW HHo E.
  pose proof (nnlsSubproblem_sim V W Ho mV mW mHo tol outer inner h v HV HW HHo) as Hsim.
  destruct (refines_Some_inv _ _ _ _ _ _ Hsim E) as ([[[mH mG] i'] ok'] & EV & Hpost).
  destruct Hpost as (_ & Hok & _). cbn [fst snd] in Hok. subst ok'.
  apply nnlsSubproblem_trace in EV. exact EV.
Qed.

Lemma C2_ok_iff_reduce_accept_witness :
  exists evs,
    trace (wenv cexResult.2) =
      trace (wenv cexWorld) ++ [SolveBegin] ++ evs ++ [SolveEnd cexResult.1.2] /\
    Forall is_accept evs /\
    (cexResult.1.2 = true <-> exists j, In (LineSearchAccept true j) evs).
Proof.
  apply (C2_ok_iff_reduce_accept 0 1 2 0.5%float 10 20 cexWorld
           cexResult.1.1.1.1 cexResult.1.1.1.2 cexResult.1.1.2 _ _
           (mkDense 1 1 [0]%float) (mkDense 1 1 [1]%float) (mkDense 1 1 [1]%float)).
  - reflexivity.
  - reflexivity.
  - reflexivity.
  - vm_compute. reflexivity.
Defined.

(** C4: the [ok] that [Factors] returns is the conjunction of the flags
    returned by the last two subproblem solves, those of the most recently
    completed outer iteration, whatever earlier solves returned; when no
    solve ran it is false. *)
Theorem C4_ok_is_last_conjunction V Wo Ho c w W H ok w' mV mWo mHo :
  cells (heap w) !! V = Some mV ->
  cells (heap w) !! Wo = Some mWo ->
  cells (heap w) !! Ho = Some mHo ->
  nmf.Factors V Wo Ho c w = Some (W, H, ok, w') ->
  exists evs,
    trace (wenv w') = trace (wenv w) ++ evs /\
    (solveFlags evs = [] -> ok = false) /\
    (solveFlags evs <> [] ->
     exists earlier okW okH,
       solveFlags evs = earlier ++ [okW; okH] /\ ok = okW && okH).
Proof.
  destruct w as [h v]. cbn [heap wenv]. intros HV HWo HHo E.
  pose proof (Factors_sim V Wo Ho mV mWo mHo c h v HV HWo HHo) as Hsim.
  destruct (refines_Some_inv _ _ _ _ _ _ Hsim E) as ([[[mW mH] ok'] upd] & EV & Hpost).
  destruct Hpost as (Hok & _). cbn [fst snd] in Hok. subst ok'.
  apply Factors_trace in EV as (evs & Ht & Hfl). cbn [fst snd] in Hfl.
  exists evs. split; [exact Ht|].
  destruct Hfl as [[Hnil Hf]|(l & a & b & Hl & Hf)].
  - split; [done|]. by rewrite Hnil.
  - split; [|by eauto]. rewrite Hl. intros Hnil.
    apply (f_equal length) in Hnil. rewrite length_app in Hnil. simpl in Hnil. lia.
Qed.

Lemma C4_ok_is_last_conjunction_witness :
  exists evs,
    trace (wenv exResult.2) = trace (wenv exWorld) ++ evs /\
    (solveFlags evs = [] -> exResult.1.2 = false) /\
    (solveFlags evs <> [] ->
     exists earlier okW okH,
       solveFlags evs = earlier ++ [okW; okH] /\ exResult.1.2 = okW && okH).
Proof.
  apply (C4_ok_is_last_conjunction 0 1 2 exConfig exWorld
           exResult.1.1.1 exResult.1.1.2 _ _ exV exWo exHo).
  - reflexivity.
  - reflexivity.
  - reflexivity.
  - vm_compute. reflexivity.
Defined.
(** ** Further properties of the code *)

(** [m] is [a] and [b] combined entry by entry with [op]. *)
Definition entrywise (op : float -> float -> float) (a b m : Dense) : Prop :=
  Rows m = Rows a /\ Cols m = Cols a /\
  forall i j x y, matrix.At a i j = Some x -> matrix.At b i j = Some y ->
    matrix.At m i j = Some (op x y).

Lemma zipWith_entrywise op a b m : matrix.zipWith op a b = Some m -> entrywise op a b m.
Proof.
  intros Hm. destruct (zipWith_dims _ _ _ _ Hm) as (? & ? & _).
  repeat split; [done..|]. intros. by eapply zipWith_At.
Qed.

(** *** The line search *)

(** In expand mode the previous candidate [Hp] of a retry is a candidate:
    projected, and filled entry by entry. *)
Lemma expand_previous_projected WtW G beta j s v s' v' :
  vnmf.lineSearchStep WtW G beta j s v = Some (Continue s', v') ->
  vnmf.sReduce s' = false ->
  exists Hn, vnmf.sHp s' = Some Hn /\ projected Hn /\ matrix.wf Hn.
Proof.
  unfold vnmf.lineSearchStep. intros E Hred.
  vbind E as [Hn suff] E1.
  apply lineSearchCandidate_inv in E1 as (-> & d & dQ & Ec & _).
  assert (projected Hn /\ matrix.wf Hn) as [HP Hwf].
  { unfold vnmf.candidate in Ec. do 3 ostep Ec.
    match goal with H : vnmf.project _ = Some ?m |- _ =>
      pose proof (project_projected _ _ H);
      unfold vnmf.project, matrix.apply in H; pose proof (tabulate_wf _ _ _ _ H)
    end.
    do 4 ostep Ec. by simplify_eq. }
  unfold vnmf.lineSearchDecide in E. cbv zeta in E.
  destruct (if (j =? 0)%Z then negb _ else vnmf.sReduce s) eqn:Er.
  - destruct suff.
    + vbind E as [] Ee. by apply ret_Some in E as [? _].
    + apply ret_Some in E as [[= ->] _]. simpl in Hred. congruence.
  - vbind E as stop Es. destruct stop.
    + vbind E as hp Eh. vbind E as [] Ee. by apply ret_Some in E as [? _].
    + apply ret_Some in E as [[= ->] _]. simpl. eauto.
Qed.

(** X2: the candidate of an inner iteration (lines 186 to 196), computed in
    place through [Hn], [d] and [dQ]: [Hn], a new cell, holds
    [posFilt (H - alpha * G)] entry by entry; with [D = Hn - H] the test
    is [0.99 * sum (G .* D) + 0.5 * sum ((WtW * D) .* D) < 0], the two sums
    being over the matrices left in [d] and [dQ]; [H], [G] and [WtW] keep
    their entries. *)
Theorem lineSearchCandidate_computes WtW G d dQ s w mWtW mG mH r w' :
  cells (heap w) !! WtW = Some mWtW ->
  cells (heap w) !! G = Some mG ->
  cells (heap w) !! nmf.sH s = Some mH ->
  d < length (cells (heap w)) -> dQ < length (cells (heap w)) ->
  WtW <> d /\ WtW <> dQ /\ G <> d /\ G <> dQ /\ d <> dQ ->
  nmf.sH s <> G /\ nmf.sH s <> d /\ nmf.sH s <> dQ ->
  nmf.lineSearchCandidate WtW G d dQ s w = Some (r, w') ->
  exists mHn mD mQ mGD mQD,
    r.1 = length (cells (heap w)) /\
    cells (heap w') !! r.1 = Some mHn /\
    Rows mHn = Rows mH /\ Cols mHn = Cols mH /\
    (forall i j h g, matrix.At mH i j = Some h -> matrix.At mG i j = Some g ->
       matrix.At mHn i j = Some (nmf.posFilt i j (h - nmf.sAlpha s * g)%float)) /\
    entrywise PrimFloat.sub mHn mH mD /\
    matrix.mul mWtW mD = Some mQ /\
    entrywise PrimFloat.mul mG mD mGD /\
    entrywise PrimFloat.mul mQ mD mQD /\
    cells (heap w') !! d = Some mGD /\ cells (heap w') !! dQ = Some mQD /\
    r.2 = (0.99 * matrix.sum mGD + 0.5 * matrix.sum mQD <? 0)%float /\
    cells (heap w') !! nmf.sH s = Some mH /\
    cells (heap w') !! G = Some mG /\ cells (heap w') !! WtW = Some mWtW.
Proof.
  destruct w as [h v]. cbn [heap]. intros HWtW HG HH Hd HdQ Hdist (HHG & HHd & HHdQ) E.
  set (s0 := nmf.mkSearch (nmf.sH s) None (nmf.sReduce s) (nmf.sAlpha s) (nmf.sOk s)).
  set (sv := vnmf.mkSearch mH None (nmf.sReduce s) (nmf.sAlpha s) (nmf.sOk s)).
  assert (Hrel : search_rel G d dQ 0 h sv s0 h).
  { split; [apply frame_refl|]. split; [exact HH|].
    split; [split; [lia|done]|]. done. }
  pose proof (lineSearchCandidate_sim WtW G d dQ mWtW mG 1%float 0 h HWtW HG Hd HdQ
                (Nat.le_0_l _) Hdist sv s0 h v Hrel) as Hsim.
  change (nmf.lineSearchCandidate WtW G d dQ s0)
    with (nmf.lineSearchCandidate WtW G d dQ s) in Hsim.
  destruct (refines_Some_inv _ _ _ _ _ _ Hsim E) as ([mHn suff] & _ & Hpost).
  destruct Hpost as (mGD & mQD & Ec & Es & Er & Ep & HHn & HdD & HdQD & _ & Hrel').
  cbn [fst snd vnmf.sH vnmf.sAlpha sv] in *.
  destruct Hrel' as (Hfr & HH' & _).
  unfold vnmf.candidate in Ec.
  ostep Ec. rename a into mS. ostep Ec. rename a into mT. ostep Ec.
  ostep Ec. rename a0 into mD. ostep Ec. rename a0 into mQ.
  ostep Ec. ostep Ec. simplify_eq.
  exists mHn, mD, mQ, mGD, mQD.
  destruct (apply_dims _ _ _ E2) as [HrT HcT].
  destruct (zipWith_dims _ _ _ _ E1) as (HrS & HcS & _).
  split; [done|]. split; [done|].
  split; [congruence|]. split; [congruence|]. split.
  { intros i j x g Hx Hg.
    pose proof (scale_At _ _ _ _ _ _ E0 Hg) as HSg.
    pose proof (zipWith_At _ _ _ _ _ _ _ _ E1 Hx HSg) as HT.
    destruct (apply_At _ _ _ _ _ _ E2 HT) as (y & [= <-] & Hy). exact Hy. }
  split; [by apply zipWith_entrywise|]. split; [done|].
  split; [by apply zipWith_entrywise|]. split; [by apply zipWith_entrywise|].
  split; [done|]. split; [done|]. split; [exact Er|].
  split; [exact HH'|].
  split; eapply (frame_lookup _ _ _ _ _ Hfr); try done; intros [?|?]; tauto.
Qed.

Definition exCandWorld : world :=
  mkWorld (mkStore [mkDense 1 1 [1]; mkDense 1 1 [1]; mkDense 1 1 [1];
                    matrix.empty; matrix.empty]%float []) exEnv.
Definition exCandSearch : nmf.search := nmf.mkSearch 2 None false 0.5 false.
Definition exCandResult : ptr * bool * world :=
  default (0, false, exCandWorld) (nmf.lineSearchCandidate 0 1 3 4 exCandSearch exCandWorld).

Lemma lineSearchCandidate_computes_witness :
  exists mHn,
    cells (heap exCandResult.2) !! 5 = Some mHn /\
    matrix.At mHn 0 0 = Some 0.5%float /\ exCandResult.1.2 = true.
Proof.
  destruct (lineSearchCandidate_computes 0 1 3 4 exCandSearch exCandWorld
              (mkDense 1 1 [1]%float) (mkDense 1 1 [1]%float) (mkDense 1 1 [1]%float)
              exCandResult.1 exCandResult.2)
    as (mHn & mD & mQ & mGD & mQD & Hp & HHn & _ & _ & Hent & _).
  - reflexivity.
  - reflexivity.
  - reflexivity.
  - simpl. lia.
  - simpl. lia.
  - simpl. lia.
  - simpl. lia.
  - vm_compute. reflexivity.
  - exists mHn. split; [exact HHn|]. split; [|vm_compute; reflexivity].
    apply (Hent 0 0 1%float 1%float); reflexivity.
Defined.

(** *** Projected gradients *)

(** [v] masked by the factor entry [x]: kept when [v < 0] or [x > 0]. *)
Definition mask (v x : float) : float :=
  if f64.lt0 v || f64.gt0 x then v else f64.zero.

(** [g'] is the gradient [g] projected with the factor [f]. An entry of
    [g] where [f] has none is negative, and kept: the closure does not
    read [f] there. *)
Definition masked (g f g' : Dense) : Prop :=
  Rows g' = Rows g /\ Cols g' = Cols g /\
  (forall i j v x, matrix.At g i j = Some v -> matrix.At f i j = Some x ->
     matrix.At g' i j = Some (mask v x)) /\
  (forall i j v, matrix.At g i j = Some v -> matrix.At f i j = None ->
     f64.lt0 v = true /\ matrix.At g' i j = Some v).

Lemma apply_decFilt_masked f g g' :
  matrix.apply (vnmf.decFilt f) g = Some g' -> masked g f g'.
Proof.
  intros Hg. destruct (apply_dims _ _ _ Hg) as [? ?].
  split; [done|]. split; [done|]. split.
  - intros i j v x Hv Hx. destruct (apply_At _ _ _ _ _ _ Hg Hv) as (y & Hy & ->).
    unfold vnmf.decFilt in Hy. unfold mask. rewrite Hx in Hy.
    destruct (f64.lt0 v); simpl in *; congruence.
  - intros i j v Hv Hx. destruct (apply_At _ _ _ _ _ _ Hg Hv) as (y & Hy & ->).
    unfold vnmf.decFilt in Hy. rewrite Hx in Hy.
    destruct (f64.lt0 v); simpl in *; [split; congruence|done].
Qed.

Lemma bind_ret_r {S A} (p : ST S A) s : (p ≫= mret) s = p s.
Proof. rewrite run_bind. by destruct (p s) as [[a s']|]. Qed.

Lemma projectedGradient_sim WtW WtV G H mWtW mWtV mH cs ws v :
  cs !! WtW = Some mWtW -> cs !! WtV = Some mWtV -> cs !! H = Some mH ->
  G < length cs -> WtV <> G -> H <> G ->
  refines (nmf.projectedGradient WtW WtV G H) (lift (vnmf.gradient mWtW mWtV mH) v)
    (fun mG nrm h' => nrm = matrix.norm mG /\ cells h' !! G = Some mG /\
                      frame (fun q => q = G) (mkStore cs ws) h')
    (mkWorld (mkStore cs ws) v).
Proof.
  intros HWtW HWtV HH HG ? ?.
  eapply refines_pure; [symmetry; apply bind_ret_r|].
  unfold nmf.projectedGradient, vnmf.gradient. unfold_methods.
  do 3 sim_step. { apply decFilt_eq. lookup. }
  sim_step. sim_ret.
  split; [done|]. split; [lookup|]. frame_tac.
Qed.

(** X4: the head of an outer iteration of [nnlsSubproblem] (lines 172 to 176):
    [G] receives [WtW * H - WtV], masked entry by entry with the matrix
    that [H] points to when the iteration starts; the norm tested against
    [tol] is the norm of that masked matrix; nothing but [G] is written. *)
Theorem projectedGradient_masks WtW WtV G H w mWtW mWtV mH nrm w' :
  cells (heap w) !! WtW = Some mWtW ->
  cells (heap w) !! WtV = Some mWtV ->
  cells (heap w) !! H = Some mH ->
  WtV <> G -> H <> G ->
  nmf.projectedGradient WtW WtV G H w = Some (nrm, w') ->
  exists mP mG0 mG,
    matrix.mul mWtW mH = Some mP /\ entrywise PrimFloat.sub mP mWtV mG0 /\
    masked mG0 mH mG /\
    cells (heap w') !! G = Some mG /\ nrm = matrix.norm mG /\
    (forall q m, q <> G -> cells (heap w) !! q = Some m -> cells (heap w') !! q = Some m).
Proof.
  destruct w as [[cs ws] v]. cbn [heap cells]. intros HWtW HWtV HH ? ? E.
  assert (HG : G < length cs).
  { unfold nmf.projectedGradient, mat64.Mul, mat64.binop, mat64.get, mat64.put in E.
    rewrite !run_bind in E. cbn [heap cells] in E. rewrite HWtW in E. cbn [lift] in E.
    rewrite !run_bind in E. cbn [heap cells] in E. rewrite HH in E. cbn [lift] in E.
    rewrite !run_bind in E. destruct (matrix.mul mWtW mH); [|done]. cbn [lift] in E.
    cbn [heap cells] in E. destruct (Nat.ltb_spec G (length cs)); [done|done]. }
  pose proof (projectedGradient_sim WtW WtV G H mWtW mWtV mH cs ws v
                HWtW HWtV HH HG ltac:(done) ltac:(done)) as Hsim.
  destruct (refines_Some_inv _ _ _ _ _ _ Hsim E) as (mG & EV & -> & HG' & Hfr).
  apply lift_Some in EV as [EV _]. unfold vnmf.gradient in EV.
  ostep EV. rename a into mP. ostep EV. rename a into mG0.
  exists mP, mG0, mG.
  split; [done|]. split; [by apply zipWith_entrywise|].
  split; [by apply apply_decFilt_masked|]. split; [done|]. split; [done|].
  intros q m Hq Hm. eapply (frame_lookup _ _ _ _ _ Hfr); done.
Qed.

Definition exGradWorld : world :=
  mkWorld (mkStore [mkDense 1 1 [2]; mkDense 1 1 [1]; mkDense 1 1 [0];
                    matrix.empty]%float []) exEnv.
Definition exGradResult : float * world :=
  default (0%float, exGradWorld) (nmf.projectedGradient 0 1 3 2 exGradWorld).

Lemma projectedGradient_masks_witness :
  exists mG, cells (heap exGradResult.2) !! 3 = Some mG /\
             exGradResult.1 = matrix.norm mG /\
             cells (heap exGradResult.2) !! 2 = Some (mkDense 1 1 [0]%float).
Proof.
  destruct (projectedGradient_masks 0 1 3 2 exGradWorld
              (mkDense 1 1 [2]%float) (mkDense 1 1 [1]%float) (mkDense 1 1 [0]%float)
              exGradResult.1 exGradResult.2)
    as (mP & mG0 & mG & _ & _ & _ & HG & Hn & Hkeep).
  - reflexivity.
  - reflexivity.
  - reflexivity.
  - lia.
  - lia.
  - vm_compute. reflexivity.
  - exists mG. split; [exact HG|]. split; [exact Hn|].
    apply Hkeep; [lia|reflexivity].
Defined.

Lemma stoppingNorm_sim s mW mH mgW mgH cs ws v :
  cs !! nmf.fW s = Some mW -> cs !! nmf.fH s = Some mH ->
  cs !! nmf.fgW s = Some mgW -> cs !! nmf.fgH s = Some mgH ->
  nmf.fgW s <> nmf.fgH s -> nmf.fH s <> nmf.fgW s ->
  refines (nmf.stoppingNorm s)
    (lift (pW ← matrix.apply (vnmf.decFilt mW) mgW;
           pH ← matrix.apply (vnmf.decFilt mH) mgH;
           Some (pW, pH)) v)
    (fun p proj h' =>
       proj = f64.Sqrt (matrix.sumsq (matrix.sumsq f64.zero (Data p.1)) (Data p.2)) /\
       cells h' !! nmf.fgW s = Some p.1 /\ cells h' !! nmf.fgH s = Some p.2 /\
       frame (fun q => q = nmf.fgW s \/ q = nmf.fgH s) (mkStore cs ws) h')
    (mkWorld (mkStore cs ws) v).
Proof.
  destruct s as [W H gW gH tolW tolH ok]. proj_simpl. intros HW HH HgW HgH ? ?.
  eapply refines_pure; [symmetry; apply bind_ret_r|].
  unfold nmf.stoppingNorm. unfold_methods. proj_simpl.
  sim_step. { apply decFilt_eq. lookup. }
  sim_step. { apply decFilt_eq. lookup. }
  do 2 sim_step. pure_norm. sim_ret. cbn [fst snd].
  split; [done|]. split; [lookup|]. split; [lookup|]. frame_tac.
Qed.

(** X5: the head of an outer iteration of [Factors] (lines 103 to 113): [gW]
    is masked with the matrix [W] points to at that moment and [gH] with
    the one [H] points to, both in place, and [proj] is the square root of
    the sum of the squares of all their entries; nothing else is written. *)
Theorem stoppingNorm_masks s w mW mH mgW mgH proj w' :
  cells (heap w) !! nmf.fW s = Some mW ->
  cells (heap w) !! nmf.fH s = Some mH ->
  cells (heap w) !! nmf.fgW s = Some mgW ->
  cells (heap w) !! nmf.fgH s = Some mgH ->
  nmf.fgW s <> nmf.fgH s -> nmf.fH s <> nmf.fgW s ->
  nmf.stoppingNorm s w = Some (proj, w') ->
  exists pW pH,
    masked mgW mW pW /\ masked mgH mH pH /\
    cells (heap w') !! nmf.fgW s = Some pW /\
    cells (heap w') !! nmf.fgH s = Some pH /\
    proj = f64.Sqrt (matrix.sumsq (matrix.sumsq f64.zero (Data pW)) (Data pH)) /\
    (forall q m, q <> nmf.fgW s -> q <> nmf.fgH s ->
       cells (heap w) !! q = Some m -> cells (heap w') !! q = Some m).
Proof.
  destruct w as [[cs ws] v]. cbn [heap cells]. intros HW HH HgW HgH ? ? E.
  pose proof (stoppingNorm_sim s mW mH mgW mgH cs ws v HW HH HgW HgH
                ltac:(done) ltac:(done)) as Hsim.
  destruct (refines_Some_inv _ _ _ _ _ _ Hsim E) as ([pW pH] & EV & -> & HpW & HpH & Hfr).
  cbn [fst snd] in *.
  apply lift_Some in EV as [EV _]. ostep EV. ostep EV. simplify_eq.
  exists pW, pH.
  split; [by apply apply_decFilt_masked|]. split; [by apply apply_decFilt_masked|].
  do 3 (split; [done|]).
  intros q m ? ? Hm. eapply (frame_lookup _ _ _ _ _ Hfr); [done|tauto].
Qed.

Definition exStopWorld : world :=
  mkWorld (mkStore [mkDense 1 2 [1; 0]; mkDense 1 2 [0; 2];
                    mkDense 1 2 [3; 4]; mkDense 1 2 [-1; 5]]%float []) exEnv.
Definition exStopState : nmf.factors := nmf.mkFactors 0 1 2 3 1 1 false.
Definition exStopResult : float * world :=
  default (0%float, exStopWorld) (nmf.stoppingNorm exStopState exStopWorld).

Lemma stoppingNorm_masks_witness :
  exists pW pH,
    cells (heap exStopResult.2) !! 2 = Some pW /\
    cells (heap exStopResult.2) !! 3 = Some pH /\
    matrix.At pW 0 1 = Some (mask 4 0) /\ matrix.At pH 0 0 = Some (mask (-1) 0).
Proof.
  destruct (stoppingNorm_masks exStopState exStopWorld
              (mkDense 1 2 [1; 0]%float) (mkDense 1 2 [0; 2]%float)
              (mkDense 1 2 [3; 4]%float) (mkDense 1 2 [-1; 5]%float)
              exStopResult.1 exStopResult.2)
    as (pW & pH & (_ & _ & HW & _) & (_ & _ & HH & _) & HpW & HpH & _).
  - reflexivity.
  - reflexivity.
  - reflexivity.
  - reflexivity.
  - simpl. lia.
  - simpl. lia.
  - vm_compute. reflexivity.
  - exists pW, pH. split; [exact HpW|]. split; [exact HpH|].
    split; [apply HW; reflexivity|apply HH; reflexivity].
Defined.

(** *** Initialisation *)

(** X6: [Factors] before its loop (lines 42 to 84): [gW] and [gH], two new
    matrices, hold [Wo*(Ho*Ho^T) - V*Ho^T] and [(Wo^T*Wo)*Ho - Wo^T*V];
    [grad] is the norm of [gW] stacked on the transpose of [gH]; both
    tolerances are [math.Max(0.001, c.Tolerance) * grad]; [W] and [H] are
    the pointers [Wo] and [Ho], [ok] is false and the clock was read
    once. *)
Theorem factorsInit_gradients V Wo Ho c w mV mWo mHo x s w' :
  cells (heap w) !! V = Some mV ->
  cells (heap w) !! Wo = Some mWo ->
  cells (heap w) !! Ho = Some mHo ->
  nmf.factorsInit V Wo Ho c w = Some ((x, s), w') ->
  exists hT wT HHt WHHt VHt mgW WtW WtWH WtV mgH gHT mS,
    matrix.transpose mHo = Some hT /\ matrix.transpose mWo = Some wT /\
    matrix.mul mHo hT = Some HHt /\ matrix.mul mWo HHt = Some WHHt /\
    matrix.mul mV hT = Some VHt /\ matrix.sub WHHt VHt = Some mgW /\
    matrix.mul wT mWo = Some WtW /\ matrix.mul WtW mHo = Some WtWH /\
    matrix.mul wT mV = Some WtV /\ matrix.sub WtWH WtV = Some mgH /\
    matrix.transpose mgH = Some gHT /\ matrix.stack mgW gHT = Some mS /\
    cells (heap w') !! nmf.fgW s = Some mgW /\
    cells (heap w') !! nmf.fgH s = Some mgH /\
    length (cells (heap w)) <= nmf.fgW s /\ length (cells (heap w)) <= nmf.fgH s /\
    nmf.cgrad x = matrix.norm mS /\
    nmf.ftolW s = (f64.Max 0.001 (nmf.Tolerance c) * nmf.cgrad x)%float /\
    nmf.ftolH s = nmf.ftolW s /\
    nmf.fW s = Wo /\ nmf.fH s = Ho /\ nmf.fOk s = false /\
    nmf.cto x = clock (wenv w) (ticks (wenv w)) /\
    ticks (wenv w') = S (ticks (wenv w)).
Proof.
  destruct w as [h v]. cbn [heap wenv]. intros HV HWo HHo E.
  pose proof (factorsInit_sim V Wo Ho mV mWo mHo c h v HV HWo HHo) as Hsim.
  destruct (refines_Some_inv _ _ _ _ _ _ Hsim E) as ([[to grad] sv] & EV & Hpost).
  rewrite factorsInit_run in EV.
  destruct (vnmf.initial mV mWo mHo) as [[[mgW mgH] grad']|] eqn:Ei; [|done].
  cbv zeta in EV. injection EV as [= <- <- <- Ev].
  destruct Hpost as (Hto & Hgrad & _ & Hrel). cbn [fst snd] in *.
  destruct Hrel as (_ & _ & (_ & _ & HgW & HgH) & (? & ? & _) & _ & _ &
                    (HtW & HtH & Hok) & HW & HH).
  proj_simpl_all.
  unfold vnmf.initial in Ei. do 12 ostep Ei. injection Ei as [= -> -> <-].
  do 12 eexists. do 12 (split; [eassumption|]).
  split; [exact HgW|]. split; [exact HgH|]. split; [done|]. split; [done|].
  split; [done|]. split; [by rewrite HtW, Hgrad|]. split; [by rewrite HtH, HtW|].
  split; [done|]. split; [done|]. split; [done|]. split; [done|].
  by rewrite <- Ev.
Qed.

Definition exInitResult : nmf.context * nmf.factors * world :=
  default (nmf.mkContext 0 0 0 0 0, nmf.mkFactors 0 0 0 0 0 0 false, exWorld)
          (nmf.factorsInit 0 1 2 exConfig exWorld).

Lemma factorsInit_gradients_witness :
  nmf.ftolH exInitResult.1.2 = nmf.ftolW exInitResult.1.2 /\
  nmf.ftolW exInitResult.1.2 = (0.001 * nmf.cgrad exInitResult.1.1)%float /\
  nmf.fW exInitResult.1.2 = 1 /\ nmf.fH exInitResult.1.2 = 2.
Proof.
  destruct (factorsInit_gradients 0 1 2 exConfig exWorld exV exWo exHo
              exInitResult.1.1 exInitResult.1.2 exInitResult.2)
    as (? & ? & ? & ? & ? & ? & ? & ? & ? & ? & ? & ? & H).
  - reflexivity.
  - reflexivity.
  - reflexivity.
  - vm_compute. reflexivity.
  - destruct H as (_&_&_&_&_&_&_&_&_&_&_&_&_&_&_&_&_& HtW & HtH & HW & HH & _).
    split; [exact HtH|]. split; [|split; [exact HW|exact HH]].
    rewrite HtW. reflexivity.
Defined.

(** *** Shapes: the program returns, and keeps the shapes *)

Lemma scale_shaped f r c a :
  shaped r c a -> exists m, matrix.scale f a = Some m /\ shaped r c m.
Proof.
  intros (Ra & Ca & Wa). unfold matrix.scale. rewrite Ra, Ca.
  match goal with |- context [matrix.tabulate r c ?g] =>
    destruct (tabulate_is_Some r c g) as [m Hm] end.
  { intros i j ? ?. destruct (At_Some_wf a i j) as [x ->]; [done|lia..|]. by eexists. }
  exists m. split; [done|]. by apply tabulate_shaped in Hm.
Qed.

Lemma apply_shaped f r c a :
  shaped r c a ->
  (forall i j x, i < r -> j < c -> matrix.At a i j = Some x -> is_Some (f i j x)) ->
  exists m, matrix.apply f a = Some m /\ shaped r c m.
Proof.
  intros (Ra & Ca & Wa) Hf. unfold matrix.apply. rewrite Ra, Ca.
  match goal with |- context [matrix.tabulate r c ?g] =>
    destruct (tabulate_is_Some r c g) as [m Hm] end.
  { intros i j ? ?. destruct (At_Some_wf a i j) as [x Hx]; [done|lia..|].
    rewrite Hx. simpl. by apply Hf. }
  exists m. split; [done|]. by apply tabulate_shaped in Hm.
Qed.

Lemma project_shaped r c a :
  shaped r c a -> exists m, vnmf.project a = Some m /\ shaped r c m.
Proof. intros Ha. apply apply_shaped; [done|]. intros. by eexists. Qed.

(** A gradient variable holds a matrix of the shape of its factor, or is
    still the empty matrix [nnlsSubproblem] returns when [outer <= 0]. *)
Definition fits (r c : nat) (g : Dense) : Prop := shaped r c g \/ shaped 0 0 g.

Lemma decFilt_fits r c f g :
  shaped r c f -> fits r c g ->
  exists m, matrix.apply (vnmf.decFilt f) g = Some m /\ fits r c m.
Proof.
  intros Hf [Hg|Hg].
  - destruct (apply_shaped (vnmf.decFilt f) r c g Hg) as (m & Hm & ?).
    { intros i j x ? ? _. unfold vnmf.decFilt. destruct (f64.lt0 x); [by eexists|].
      destruct (At_shaped _ _ _ i j Hf) as [y ->]; [done..|]. by eexists. }
    exists m. split; [done|by left].
  - destruct (apply_shaped (vnmf.decFilt f) 0 0 g Hg) as (m & Hm & ?); [intros; lia|].
    exists m. split; [done|by right].
Qed.

Lemma transpose_fits r c g :
  fits r c g -> exists m, matrix.transpose g = Some m /\ fits c r m.
Proof.
  intros [Hg|Hg]; destruct (transpose_shaped _ _ _ Hg) as (m & Hm & ?);
    exists m; (split; [done|]); [by left|by right].
Qed.

Lemma gradient_shaped k n WtW WtV H :
  shaped k k WtW -> shaped k n WtV -> shaped k n H ->
  exists G, vnmf.gradient WtW WtV H = Some G /\ shaped k n G.
Proof.
  intros HWtW HWtV HH. unfold vnmf.gradient.
  destruct (mul_shaped _ _ _ _ _ HWtW HH) as (G0 & -> & HG0). cbn [mbind option_bind].
  destruct (zipWith_shaped PrimFloat.sub _ _ _ _ HG0 HWtV) as (G1 & E & HG1).
  change (matrix.zipWith PrimFloat.sub) with matrix.sub in E.
  rewrite E. cbn [mbind option_bind].
  destruct (apply_shaped (vnmf.decFilt H) k n G1 HG1) as (G & HG & ?); [|by eauto].
  intros i j x ? ? _. unfold vnmf.decFilt. destruct (f64.lt0 x); [by eexists|].
  destruct (At_shaped _ _ _ i j HH) as [y ->]; [done..|]. by eexists.
Qed.

Lemma candidate_shaped k n WtW G H alpha :
  shaped k k WtW -> shaped k n G -> shaped k n H ->
  exists Hn d dQ, vnmf.candidate WtW G H alpha = Some (Hn, d, dQ) /\ shaped k n Hn.
Proof.
  intros HWtW HG HH. unfold vnmf.candidate.
  destruct (scale_shaped alpha _ _ _ HG) as (S1 & -> & HS1). cbn [mbind option_bind].
  destruct (zipWith_shaped PrimFloat.sub _ _ _ _ HH HS1) as (S2 & E2 & HS2).
  change (matrix.zipWith PrimFloat.sub) with matrix.sub in E2.
  rewrite E2. cbn [mbind option_bind].
  destruct (project_shaped _ _ _ HS2) as (Hn & -> & HHn). cbn [mbind option_bind].
  destruct (zipWith_shaped PrimFloat.sub _ _ _ _ HHn HH) as (D & ED & HD).
  change (matrix.zipWith PrimFloat.sub) with matrix.sub in ED.
  rewrite ED. cbn [mbind option_bind].
  destruct (mul_shaped _ _ _ _ _ HWtW HD) as (Q & -> & HQ). cbn [mbind option_bind].
  destruct (zipWith_shaped PrimFloat.mul _ _ _ _ HQ HD) as (QD & EQD & _).
  change (matrix.zipWith PrimFloat.mul) with matrix.mulElem in EQD.
  rewrite EQD. cbn [mbind option_bind].
  destruct (zipWith_shaped PrimFloat.mul _ _ _ _ HG HD) as (GD & EGD & _).
  change (matrix.zipWith PrimFloat.mul) with matrix.mulElem in EGD.
  rewrite EGD. cbn [mbind option_bind]. eauto.
Qed.

(** A loop whose body returns under an invariant returns. *)
Lemma forLoop_total {S St} (P : Z -> St -> Prop) (Q : St -> Prop)
  (body : Z -> St -> ST S (ctl St)) :
  (forall i s v, P i s ->
     exists c v', body i s v = Some (c, v') /\
       match c with Break s' => Q s' | Continue s' => P (i + 1)%Z s' end) ->
  (forall i s, P i s -> Q s) ->
  forall n i s v, P i s -> exists r v', forLoop n i body s v = Some (r, v') /\ Q r.2.
Proof.
  intros Hbody HPQ. induction n as [|n IH]; intros i s v HP.
  - exists (i, s), v. split; [done|]. simpl. eauto.
  - destruct (Hbody i s v HP) as (c & v1 & Hc & Hpost).
    cbn [forLoop]. rewrite run_bind, Hc. destruct c as [s'|s'].
    + exists (i, s'), v1. done.
    + apply IH. exact Hpost.
Qed.

Definition search_shaped (k n : nat) (j : Z) (s : vnmf.search) : Prop :=
  (0 <= j)%Z /\ shaped k n (vnmf.sH s) /\
  (j <> 0%Z -> exists hp, vnmf.sHp s = Some hp /\ shaped k n hp).

Lemma lineSearchStep_total k n WtW G beta j s v :
  shaped k k WtW -> shaped k n G -> search_shaped k n j s ->
  exists c v', vnmf.lineSearchStep WtW G beta j s v = Some (c, v') /\
    match c with
    | Break s' => shaped k n (vnmf.sH s')
    | Continue s' => search_shaped k n (j + 1) s'
    end.
Proof.
  intros HWtW HG (Hj & HH & HHp).
  destruct (candidate_shaped _ _ _ _ _ (vnmf.sAlpha s) HWtW HG HH)
    as (Hn & d & dQ & Ec & HHn).
  unfold vnmf.lineSearchStep, vnmf.lineSearchCandidate.
  rewrite !run_bind, Ec. cbn [lift]. cbv beta iota.
  change (mret (M := ST env) (Hn, nmf.sufficientDecrease (matrix.sum d) (matrix.sum dQ)) v)
    with (Some ((Hn, nmf.sufficientDecrease (matrix.sum d) (matrix.sum dQ)), v)).
  cbv beta iota. generalize (nmf.sufficientDecrease (matrix.sum d) (matrix.sum dQ)).
  intros suff. unfold vnmf.lineSearchDecide. cbv zeta.
  assert (HHp' : exists hp, (if (j =? 0)%Z then Some (vnmf.sH s) else vnmf.sHp s) = Some hp
                            /\ shaped k n hp).
  { destruct (Z.eqb_spec j 0); [eauto|]. by apply HHp. }
  destruct HHp' as (hp & Ehp & Hhp). rewrite Ehp.
  assert (Hnext : forall a o, search_shaped k n (j + 1)
            (vnmf.mkSearch (vnmf.sH s) (Some hp) false a o) /\
          search_shaped k n (j + 1) (vnmf.mkSearch (vnmf.sH s) (Some hp) true a o) /\
          search_shaped k n (j + 1) (vnmf.mkSearch (vnmf.sH s) (Some Hn) false a o)).
  { intros a o. unfold search_shaped. simpl.
    repeat split; try lia; try apply HH; eauto. }
  destruct (if (j =? 0)%Z then negb suff else vnmf.sReduce s).
  - destruct suff.
    + eexists _, _. split; [reflexivity|]. done.
    + eexists _, _. split; [reflexivity|]. apply Hnext.
  - destruct suff; cbn [negb].
    + rewrite !run_bind. cbn [lift].
      change (mret (M := ST env) (matrix.equals hp Hn) v)
        with (Some (matrix.equals hp Hn, v)). cbv beta iota.
      destruct (matrix.equals hp Hn).
      * eexists _, _. split; [reflexivity|]. done.
      * eexists _, _. split; [reflexivity|]. apply Hnext.
    + eexists _, _. split; [reflexivity|]. done.
Qed.

Lemma solveStep_total k n WtW WtV tol inner beta i st v :
  shaped k k WtW -> shaped k n WtV -> shaped k n st.1.1.1 ->
  exists c v', vnmf.solveStep WtW WtV tol inner beta i st v = Some (c, v') /\
    shaped k n (ctl_state c).1.1.1 /\ shaped k n (ctl_state c).1.1.2.
Proof.
  destruct st as [[[H G0] alpha] ok]. cbn [fst snd]. intros HWtW HWtV HH.
  destruct (gradient_shaped _ _ _ _ _ HWtW HWtV HH) as (G & EG & HG).
  unfold vnmf.solveStep. rewrite run_bind, EG. cbn [lift].
  destruct (_ <? _)%float.
  { eexists _, _. split; [reflexivity|]. done. }
  destruct (forLoop_total (search_shaped k n) (fun s => shaped k n (vnmf.sH s))
              (vnmf.lineSearchStep WtW G beta)) with
    (n := Z.to_nat inner) (i := 0%Z) (s := vnmf.mkSearch H None false alpha ok) (v := v)
    as ([j r] & v' & Er & Hr).
  - intros. by apply lineSearchStep_total.
  - by intros ? ? (_ & ? & _).
  - split; [lia|]. split; [done|]. done.
  - rewrite run_bind. unfold for_lt. rewrite Er.
    eexists _, _. split; [reflexivity|]. done.
Qed.

Lemma nnlsSubproblem_total m k n V W Ho tol outer inner v :
  shaped m n V -> shaped m k W -> shaped k n Ho ->
  exists r v', vnmf.nnlsSubproblem V W Ho tol outer inner v = Some (r, v') /\
    shaped k n r.1.1.1 /\ fits k n r.1.1.2.
Proof.
  intros HV HW HHo. unfold vnmf.nnlsSubproblem.
  destruct (clone_shaped _ _ _ HHo) as (H & EH & HH).
  destruct (transpose_shaped _ _ _ HW) as (wT & EwT & HwT).
  destruct (mul_shaped _ _ _ _ _ HwT HV) as (WtV & EWtV & HWtV).
  destruct (mul_shaped _ _ _ _ _ HwT HW) as (WtW & EWtW & HWtW).
  rewrite run_bind. cbn [emitV]. rewrite run_bind, EH. cbn [lift].
  rewrite run_bind, EwT. cbn [lift]. rewrite run_bind, EWtV. cbn [lift].
  rewrite run_bind, EWtW. cbn [lift].
  destruct (forLoop_total
              (fun (_ : Z) (st : Dense * Dense * float * bool) =>
                 shaped k n st.1.1.1 /\ fits k n st.1.1.2)
              (fun st => shaped k n st.1.1.1 /\ fits k n st.1.1.2)
              (vnmf.solveStep WtW WtV tol inner 0.1)) with
    (n := Z.to_nat outer) (i := 0%Z) (s := (H, matrix.empty, 1%float, false))
    (v := env_emit SolveBegin v)
    as ([i [[[H' G'] alpha'] ok']] & v' & Er & Hr1 & Hr2).
  - intros i st v0 [Hst _].
    destruct (solveStep_total k n WtW WtV tol inner 0.1 i st v0 HWtW HWtV Hst)
      as (c & v1 & Ec & ? & ?).
    exists c, v1. split; [done|]. destruct c; split; try done; by left.
  - done.
  - split; [done|]. right. done.
  - rewrite run_bind. unfold for_lt. rewrite Er. cbn [fst snd] in *.
    eexists _, _. split; [reflexivity|]. done.
Qed.

Definition factors_shaped (m k n : nat) (s : vnmf.factors) : Prop :=
  shaped m k (vnmf.fW s) /\ shaped k n (vnmf.fH s) /\
  fits m k (vnmf.fgW s) /\ fits k n (vnmf.fgH s).

Lemma factorsStep_total m k n c V to grad i s v :
  shaped m n V -> factors_shaped m k n s ->
  exists r v', vnmf.factorsStep c V to grad i s v = Some (r, v') /\
    factors_shaped m k n (ctl_state r).
Proof.
  destruct s as [W H gW gH tolW tolH ok upd]. intros HV (HW & HH & HgW & HgH).
  cbn [vnmf.fW vnmf.fH vnmf.fgW vnmf.fgH] in *.
  destruct (decFilt_fits _ _ _ _ HW HgW) as (pW & EpW & HpW).
  destruct (decFilt_fits _ _ _ _ HH HgH) as (pH & EpH & HpH).
  unfold vnmf.factorsStep.
  cbn [vnmf.fW vnmf.fH vnmf.fgW vnmf.fgH vnmf.ftolW vnmf.ftolH vnmf.fOk vnmf.updated].
  rewrite run_bind, EpW. cbn [lift]. rewrite run_bind, EpH. cbn [lift]. cbv zeta.
  cbn [vnmf.fW vnmf.fH vnmf.fgW vnmf.fgH vnmf.ftolW vnmf.ftolH vnmf.fOk vnmf.updated].
  rewrite run_bind.
  assert (Hbreak : forall v', exists r v'',
            mret (M := ST env) (Break (vnmf.mkFactors W H pW pH tolW tolH ok upd)) v'
              = Some (r, v'') /\ factors_shaped m k n (ctl_state r)).
  { intros v'. eexists _, _. split; [reflexivity|]. done. }
  destruct (_ <? _)%float.
  { apply Hbreak. }
  rewrite run_bind. cbn [timeNowV].
  change (mret (M := ST env) (nmf.Limit c <? clock v (ticks v) - to)%Z (env_tick v))
    with (Some ((nmf.Limit c <? clock v (ticks v) - to)%Z, env_tick v)).
  cbv beta iota. destruct (_ <? _)%Z.
  { apply Hbreak. }
  clear Hbreak.
  destruct (transpose_shaped _ _ _ HV) as (vT & EvT & HvT).
  destruct (transpose_shaped _ _ _ HH) as (hT & EhT & HhT).
  destruct (transpose_shaped _ _ _ HW) as (wT & EwT & HwT).
  rewrite run_bind, EvT. cbn [lift]. rewrite run_bind, EhT. cbn [lift].
  rewrite run_bind, EwT. cbn [lift].
  destruct (nnlsSubproblem_total n k m vT hT wT tolW (nmf.MaxOuterSub c)
              (nmf.MaxInnerSub c) (env_tick v) HvT HhT HwT)
    as ([[[W1 gW1] it1] ok1] & v1 & E1 & HW1 & HgW1). cbn [fst snd] in *.
  rewrite run_bind, E1. cbv beta iota.
  destruct (transpose_shaped _ _ _ HW1) as (W2 & EW2 & HW2).
  destruct (transpose_fits _ _ _ HgW1) as (gW2 & EgW2 & HgW2).
  rewrite run_bind, EW2. cbn [lift]. rewrite run_bind, EgW2. cbn [lift].
  destruct (nnlsSubproblem_total m k n V W2 H tolH (nmf.MaxOuterSub c)
              (nmf.MaxInnerSub c) v1 HV HW2 HH)
    as ([[[H2 gH2] it2] ok2] & v2 & E2 & HH2 & HgH2). cbn [fst snd] in *.
  rewrite run_bind, E2. cbv beta iota.
  eexists _, _. split; [reflexivity|]. done.
Qed.

Lemma initial_shaped m k n V W H :
  shaped m n V -> shaped m k W -> shaped k n H ->
  exists gW gH grad,
    vnmf.initial V W H = Some (gW, gH, grad) /\ shaped m k gW /\ shaped k n gH.
Proof.
  intros HV HW HH. unfold vnmf.initial.
  destruct (transpose_shaped _ _ _ HH) as (hT & -> & HhT).
  destruct (transpose_shaped _ _ _ HW) as (wT & -> & HwT). cbn [mbind option_bind].
  destruct (mul_shaped _ _ _ _ _ HH HhT) as (tmp & -> & Htmp). cbn [mbind option_bind].
  destruct (mul_shaped _ _ _ _ _ HW Htmp) as (gW & -> & HgW). cbn [mbind option_bind].
  destruct (mul_shaped _ _ _ _ _ HV HhT) as (vhT & -> & HvhT). cbn [mbind option_bind].
  destruct (zipWith_shaped PrimFloat.sub _ _ _ _ HgW HvhT) as (gW' & E & HgW').
  change (matrix.zipWith PrimFloat.sub) with matrix.sub in E.
  rewrite E. cbn [mbind option_bind].
  destruct (mul_shaped _ _ _ _ _ HwT HW) as (tmp' & -> & Htmp'). cbn [mbind option_bind].
  destruct (mul_shaped _ _ _ _ _ Htmp' HH) as (gH & -> & HgH). cbn [mbind option_bind].
  destruct (mul_shaped _ _ _ _ _ HwT HV) as (wTv & -> & HwTv). cbn [mbind option_bind].
  destruct (zipWith_shaped PrimFloat.sub _ _ _ _ HgH HwTv) as (gH' & E' & HgH').
  change (matrix.zipWith PrimFloat.sub) with matrix.sub in E'.
  rewrite E'. cbn [mbind option_bind].
  destruct (transpose_shaped _ _ _ HgH') as (gHT & -> & HgHT). cbn [mbind option_bind].
  destruct (stack_shaped _ _ _ _ _ HgW' HgHT) as (S & -> & HS). cbn [mbind option_bind].
  eauto 10.
Qed.

Lemma Factors_total m k n V Wo Ho c v :
  shaped m n V -> shaped m k Wo -> shaped k n Ho ->
  exists r v', vnmf.Factors V Wo Ho c v = Some (r, v') /\
    shaped m k r.1.1.1 /\ shaped k n r.1.1.2.
Proof.
  intros HV HW HH.
  destruct (initial_shaped _ _ _ _ _ _ HV HW HH) as (gW & gH & grad & Ei & HgW & HgH).
  unfold vnmf.Factors. rewrite run_bind, factorsInit_run, Ei. cbv zeta beta iota.
  set (s0 := vnmf.mkFactors Wo Ho gW gH _ _ false false).
  destruct (forLoop_total (fun _ => factors_shaped m k n) (factors_shaped m k n)
              (vnmf.factorsStep c V (clock v (ticks v)) grad)) with
    (n := Z.to_nat (nmf.MaxIter c)) (i := 0%Z) (s := s0) (v := env_tick v)
    as ([i r] & v' & Er & Hr).
  - intros i s v0 Hs.
    destruct (factorsStep_total m k n c V (clock v (ticks v)) grad i s v0 HV Hs)
      as (r & v1 & Er & Hr).
    exists r, v1. split; [done|]. by destruct r.
  - done.
  - repeat split; try apply HW; try apply HH; by left.
  - rewrite run_bind. unfold for_lt. rewrite Er. cbn [fst snd] in *.
    destruct Hr as (? & ? & _). eexists _, _. split; [reflexivity|]. done.
Qed.

(** X7: when [V] is [m]x[n], [Wo] is [m]x[k] and [Ho] is [k]x[n], [Factors]
    does not panic, whatever the configuration and the clock: it returns,
    and the matrices it returns have the shapes of [Wo] and [Ho]. *)
Theorem Factors_returns m k n V Wo Ho c w mV mWo mHo :
  cells (heap w) !! V = Some mV ->
  cells (heap w) !! Wo = Some mWo ->
  cells (heap w) !! Ho = Some mHo ->
  shaped m n mV -> shaped m k mWo -> shaped k n mHo ->
  exists W H ok w' mW mH,
    nmf.Factors V Wo Ho c w = Some (W, H, ok, w') /\
    cells (heap w') !! W = Some mW /\ cells (heap w') !! H = Some mH /\
    shaped m k mW /\ shaped k n mH.
Proof.
  destruct w as [h v]. cbn [heap]. intros HV HWo HHo SV SW SH.
  pose proof (Factors_sim V Wo Ho mV mWo mHo c h v HV HWo HHo) as Hsim.
  destruct (Factors_total m k n mV mWo mHo c v SV SW SH)
    as ([[[mW mH] ok] upd] & v' & EV & HmW & HmH).
  destruct (refines_Some_run _ _ _ _ _ _ Hsim EV) as ([[W H] ok'] & h' & E & Hpost).
  destruct Hpost as (_ & HW' & HH' & _). cbn [fst snd] in *.
  exists W, H, ok', (mkWorld h' v'), mW, mH. done.
Qed.

Lemma Factors_returns_witness :
  exists W H ok w' mW mH,
    nmf.Factors 0 1 2 exConfig exWorld = Some (W, H, ok, w') /\
    cells (heap w') !! W = Some mW /\ cells (heap w') !! H = Some mH /\
    shaped 2 2 mW /\ shaped 2 2 mH.
Proof.
  apply (Factors_returns 2 2 2 0 1 2 exConfig exWorld exV exWo exHo);
    [reflexivity|reflexivity|reflexivity| | | ]; repeat split; reflexivity.
Defined.

(** X8: when [V] is [m]x[n], [W] is [m]x[k] and [Ho] is [k]x[n],
    [nnlsSubproblem] does not panic: it returns, [H] has the shape of [Ho],
    and [G] has that shape too or is the empty matrix it was created
    as. *)
Theorem nnlsSubproblem_returns m k n V W Ho tol outer inner w mV mW mHo :
  cells (heap w) !! V = Some mV ->
  cells (heap w) !! W = Some mW ->
  cells (heap w) !! Ho = Some mHo ->
  shaped m n mV -> shaped m k mW -> shaped k n mHo ->
  exists H G i ok w' mH mG,
    nmf.nnlsSubproblem V W Ho tol outer inner w = Some (H, G, i, ok, w') /\
    cells (heap w') !! H = Some mH /\ cells (heap w') !! G = Some mG /\
    shaped k n mH /\ (shaped k n mG \/ mG = matrix.empty).
Proof.
  destruct w as [h v]. cbn [heap]. intros HV HW HHo SV SW SH.
  pose proof (nnlsSubproblem_sim V W Ho mV mW mHo tol outer inner h v HV HW HHo) as Hsim.
  destruct (nnlsSubproblem_total m k n mV mW mHo tol outer inner v SV SW SH)
    as ([[[mH mG] i] ok] & v' & EV & HmH & HmG).
  destruct (refines_Some_run _ _ _ _ _ _ Hsim EV)
    as ([[[H G] i'] ok'] & h' & E & Hpost).
  destruct Hpost as (_ & _ & HH' & HG' & _). cbn [fst snd] in *.
  exists H, G, i', ok', (mkWorld h' v'), mH, mG. do 4 (split; [done|]).
  destruct HmG as [?|(Hr & Hc & Hwf)]; [by left|right].
  destruct mG as [r c' d]. unfold matrix.wf in Hwf. simpl in *. subst.
  by destruct d.
Qed.

Lemma nnlsSubproblem_returns_witness :
  exists H G i ok w' mH mG,
    nmf.nnlsSubproblem 0 1 2 0.5 10 20 exWorld = Some (H, G, i, ok, w') /\
    cells (heap w') !! H = Some mH /\ cells (heap w') !! G = Some mG /\
    shaped 2 2 mH /\ (shaped 2 2 mG \/ mG = matrix.empty).
Proof.
  apply (nnlsSubproblem_returns 2 2 2 0 1 2 0.5%float 10 20 exWorld exV exWo exHo);
    [reflexivity|reflexivity|reflexivity| | | ]; repeat split; reflexivity.
Defined.

(** *** Shapes that do not fit *)

Lemma mul_dims a b m :
  matrix.mul a b = Some m -> Rows m = Rows a /\ Cols m = Cols b /\ Cols a = Rows b.
Proof.
  unfold matrix.mul. destruct (Nat.eqb_spec (Cols a) (Rows b)); [|done]. intros Hm.
  by rewrite (tabulate_Rows _ _ _ _ Hm), (tabulate_Cols _ _ _ _ Hm).
Qed.

Lemma transpose_dims a m :
  matrix.transpose a = Some m -> Rows m = Cols a /\ Cols m = Rows a.
Proof.
  unfold matrix.transpose. intros Hm.
  by rewrite (tabulate_Rows _ _ _ _ Hm), (tabulate_Cols _ _ _ _ Hm).
Qed.

(** The dimensions [vnmf.initial] needs. *)
Lemma initial_dims V W H r :
  vnmf.initial V W H = Some r ->
  Rows V = Rows W /\ Cols W = Rows H /\ Cols V = Cols H.
Proof.
  unfold vnmf.initial. intros E.
  ostep E. rename a into hT. ostep E. rename a into wT. ostep E. rename a into tmp.
  ostep E. rename a into gW. ostep E. rename a into vhT. ostep E.
  clear E.
  destruct (transpose_dims _ _ E0) as [? ?].
  destruct (mul_dims _ _ _ E2) as (? & ? & ?).
  destruct (mul_dims _ _ _ E3) as (? & ? & ?).
  destruct (mul_dims _ _ _ E4) as (? & ? & ?).
  destruct (zipWith_dims _ _ _ _ E5) as (_ & _ & ? & ?).
  repeat split; congruence.
Qed.

(** X9: [Factors] panics, in its first multiplications and before any
    subproblem is solved, unless [V], [Wo] and [Ho] are [m]x[n], [m]x[k]
    and [k]x[n] for some [m], [k], [n]. *)
Theorem Factors_shape_mismatch V Wo Ho c w mV mWo mHo :
  cells (heap w) !! V = Some mV ->
  cells (heap w) !! Wo = Some mWo ->
  cells (heap w) !! Ho = Some mHo ->
  ~ (Rows mV = Rows mWo /\ Cols mWo = Rows mHo /\ Cols mV = Cols mHo) ->
  nmf.Factors V Wo Ho c w = None /\ nmf.factorsInit V Wo Ho c w = None.
Proof.
  destruct w as [h v]. cbn [heap]. intros HV HWo HHo Hbad.
  assert (Ei : vnmf.initial mV mWo mHo = None).
  { destruct (vnmf.initial mV mWo mHo) as [r|] eqn:Ei; [|done].
    destruct Hbad. by eapply initial_dims. }
  split.
  - pose proof (Factors_sim V Wo Ho mV mWo mHo c h v HV HWo HHo) as Hsim.
    unfold vnmf.Factors in Hsim. rewrite run_bind, factorsInit_run, Ei in Hsim.
    exact Hsim.
  - pose proof (factorsInit_sim V Wo Ho mV mWo mHo c h v HV HWo HHo) as Hsim.
    rewrite factorsInit_run, Ei in Hsim. exact Hsim.
Qed.

Definition exBadWorld : world :=
  mkWorld (mkStore [exV; exWo; mkDense 1 2 [1; 1]%float] []) exEnv.

Lemma Factors_shape_mismatch_witness :
  nmf.Factors 0 1 2 exConfig exBadWorld = None /\
  nmf.factorsInit 0 1 2 exConfig exBadWorld = None.
Proof.
  apply (Factors_shape_mismatch 0 1 2 exConfig exBadWorld exV exWo
           (mkDense 1 2 [1; 1]%float)); [reflexivity..|].
  simpl. lia.
Defined.

(** *** The time limit *)

Lemma Factors_timeout_run m k n V Wo Ho c v :
  shaped m n V -> shaped m k Wo -> shaped k n Ho ->
  (nmf.Limit c < clock v (S (ticks v)) - clock v (ticks v))%Z ->
  exists v', vnmf.Factors V Wo Ho c v = Some (Wo, Ho, false, false, v') /\
             trace v' = trace v.
Proof.
  intros HV HW HH Hlim.
  destruct (initial_shaped _ _ _ _ _ _ HV HW HH) as (gW & gH & grad & Ei & HgW & HgH).
  unfold vnmf.Factors. rewrite run_bind, factorsInit_run, Ei. cbv zeta beta iota.
  rewrite run_bind. unfold for_lt.
  destruct (Z.to_nat (nmf.MaxIter c)) as [|N].
  { eexists. split; [reflexivity|done]. }
  cbn [forLoop]. rewrite run_bind.
  destruct (decFilt_fits _ _ _ _ HW (or_introl HgW)) as (pW & EpW & _).
  destruct (decFilt_fits _ _ _ _ HH (or_introl HgH)) as (pH & EpH & _).
  unfold vnmf.factorsStep.
  cbn [vnmf.fW vnmf.fH vnmf.fgW vnmf.fgH vnmf.ftolW vnmf.ftolH vnmf.fOk vnmf.updated].
  rewrite run_bind, EpW. cbn [lift]. rewrite run_bind, EpH. cbn [lift]. cbv zeta.
  cbn [vnmf.fW vnmf.fH vnmf.fgW vnmf.fgH vnmf.ftolW vnmf.ftolH vnmf.fOk vnmf.updated].
  rewrite run_bind.
  destruct (_ <? _)%float.
  { eexists. split; [reflexivity|done]. }
  rewrite run_bind. cbn [timeNowV env_tick clock ticks].
  apply Z.ltb_lt in Hlim.
  change (mret (M := ST env) ?x ?y) with (Some (x, y)). cbv beta iota.
  cbn [clock ticks]. rewrite Hlim.
  eexists. split; [reflexivity|done].
Qed.

(** X10: when the second reading of the clock is more than [c.Limit] after the
    first, [Factors] solves no subproblem: it returns the pointers [Wo] and
    [Ho], their matrices untouched, and [ok = false], whatever [MaxIter]
    and the tolerance are. *)
Theorem Factors_time_limit m k n V Wo Ho c w mV mWo mHo :
  cells (heap w) !! V = Some mV ->
  cells (heap w) !! Wo = Some mWo ->
  cells (heap w) !! Ho = Some mHo ->
  shaped m n mV -> shaped m k mWo -> shaped k n mHo ->
  (nmf.Limit c < clock (wenv w) (S (ticks (wenv w))) - clock (wenv w) (ticks (wenv w)))%Z ->
  exists w',
    nmf.Factors V Wo Ho c w = Some (Wo, Ho, false, w') /\
    cells (heap w') !! Wo = Some mWo /\ cells (heap w') !! Ho = Some mHo /\
    trace (wenv w') = trace (wenv w).
Proof.
  destruct w as [h v]. cbn [heap wenv]. intros HV HWo HHo SV SW SH Hlim.
  pose proof (Factors_sim V Wo Ho mV mWo mHo c h v HV HWo HHo) as Hsim.
  destruct (Factors_timeout_run m k n mV mWo mHo c v SV SW SH Hlim) as (v' & EV & Ht).
  destruct (refines_Some_run _ _ _ _ _ _ Hsim EV) as ([[W H] ok] & h' & E & Hpost).
  unfold factors_post in Hpost. cbn [fst snd] in Hpost.
  destruct Hpost as (-> & _ & _ & Hfr & -> & ->).
  eexists. split; [exact E|]. cbn [heap wenv].
  split; [by eapply frame_keep|]. split; [by eapply frame_keep|done].
Qed.

Definition exSlowWorld : world :=
  mkWorld (mkStore [exV; exWo; exHo] [])
          (mkEnv (fun t => (Z.of_nat t * 2000000000)%Z) 0 []).

Lemma Factors_time_limit_witness :
  exists w',
    nmf.Factors 0 1 2 exConfig exSlowWorld = Some (1, 2, false, w') /\
    cells (heap w') !! 1 = Some exWo /\ cells (heap w') !! 2 = Some exHo /\
    trace (wenv w') = trace (wenv exSlowWorld).
Proof.
  apply (Factors_time_limit 2 2 2 0 1 2 exConfig exSlowWorld exV exWo exHo);
    [reflexivity|reflexivity|reflexivity| | | |].
  - repeat split; reflexivity.
  - repeat split; reflexivity.
  - repeat split; reflexivity.
  - vm_compute. reflexivity.
Defined.

(** *** What [ok] certifies *)

Lemma forLoop_inv2 {S St} (P Q : St -> S -> Prop) (body : Z -> St -> ST S (ctl St)) :
  (forall i s v c v', P s v -> body i s v = Some (c, v') ->
     match c with Break s' => Q s' v' | Continue s' => P s' v' end) ->
  (forall s v, P s v -> Q s v) ->
  forall n i s v r v', P s v -> forLoop n i body s v = Some (r, v') -> Q r.2 v'.
Proof.
  intros Hbody HPQ. induction n as [|n IH]; intros i s v r v' HP; simpl.
  - intros [= <- <-]. by apply HPQ.
  - intros E. apply bind_Some in E as (c & v1 & Hc & E).
    pose proof (Hbody _ _ _ _ _ HP Hc) as HP1.
    destruct c as [s1|s1]; simpl in *.
    + by injection E as [= <- <-].
    + eauto.
Qed.

(** Once [ok] is set, [H] and the previous candidate are projected
    candidates. *)
Definition search_ok (s : vnmf.search) : Prop :=
  vnmf.sOk s = true ->
  matrix.nonneg (vnmf.sH s) /\ forall hp, vnmf.sHp s = Some hp -> matrix.nonneg hp.

Lemma lineSearchStep_ok WtW G beta j s v c v' :
  search_ok s ->
  vnmf.lineSearchStep WtW G beta j s v = Some (c, v') ->
  match c with
  | Break s' => vnmf.sOk s' = true -> matrix.nonneg (vnmf.sH s')
  | Continue s' => search_ok s'
  end.
Proof.
  intros Hs. unfold vnmf.lineSearchStep. intros E.
  vbind E as [Hn suff] Ec. apply lineSearchCandidate_inv in Ec as (-> & d & dQ & Ec & _).
  apply candidate_nonneg in Ec. unfold vnmf.lineSearchDecide in E.
  set (Hp := if (j =? 0)%Z then Some (vnmf.sH s) else vnmf.sHp s) in *.
  assert (HHp : vnmf.sOk s = true -> forall hp, Hp = Some hp -> matrix.nonneg hp).
  { intros Hok. destruct (Hs Hok) as [? ?]. subst Hp.
    destruct (j =? 0)%Z; [by intros ? [= <-]|done]. }
  clearbody Hp. cbv zeta in E.
  destruct (if (j =? 0)%Z then _ else _).
  - destruct suff.
    + vbind E as [] Ee. apply ret_Some in E as [-> _]. done.
    + apply ret_Some in E as [-> _]. intros Hok. simpl in *.
      destruct (Hs Hok) as [? _]. split; [done|by apply HHp].
  - vbind E as stop Es. destruct stop.
    + destruct Hp as [hp|]; [|done]. vbind E as hp' Ehp. vbind E as [] Ee.
      apply ret_Some in E as [-> _]. simplify_eq. simpl. intros Hok. by apply HHp.
    + apply ret_Some in E as [-> _]. intros Hok. simpl in *.
      destruct (Hs Hok) as [? _]. split; [done|]. by intros ? [= <-].
Qed.

Lemma solveStep_ok WtW WtV tol inner beta i st v c v' :
  (st.2 = true -> matrix.nonneg st.1.1.1) ->
  vnmf.solveStep WtW WtV tol inner beta i st v = Some (c, v') ->
  (ctl_state c).2 = true -> matrix.nonneg (ctl_state c).1.1.1.
Proof.
  destruct st as [[[H G0] alpha] ok]. simpl. intros HH E.
  unfold vnmf.solveStep in E. vbind E as G EG.
  destruct (_ <? _)%float.
  - apply ret_Some in E as [-> _]. done.
  - vbind E as r Er. apply ret_Some in E as [-> _]. simpl.
    unfold for_lt in Er.
    apply (fun Hb Hq Hp => forLoop_inv2 (fun s _ => search_ok s)
             (fun s (_ : env) => vnmf.sOk s = true -> matrix.nonneg (vnmf.sH s))
             _ Hb Hq _ _ _ _ _ _ Hp Er).
    + intros ? ? ? ? ? ?. by apply lineSearchStep_ok.
    + intros s _ Hs Hok. by destruct (Hs Hok).
    + intros Hok. simpl in *. split; [by apply HH|]. by intros ? [=].
Qed.

Lemma nnlsSubproblem_ok V W Ho tol outer inner v r v' :
  vnmf.nnlsSubproblem V W Ho tol outer inner v = Some (r, v') ->
  r.2 = true -> matrix.nonneg r.1.1.1.
Proof.
  intros E. unfold vnmf.nnlsSubproblem in E.
  vbind E as [] E0. vbind E as H0 EH. vbind E as wT EwT. vbind E as WtV EWtV.
  vbind E as WtW EWtW. vbind E as [i [[[H G] alpha] ok]] Eloop.
  vbind E as [] E1. apply ret_Some in E as [-> _]. simpl.
  apply (fun Hb Hp => for_lt_inv
           (fun st (_ : env) => st.2 = true -> matrix.nonneg st.1.1.1)
           _ _ Hb _ _ _ _ Hp Eloop); [|done].
  intros ? ? ? ? ? ?. by apply solveStep_ok.
Qed.

Lemma factorsStep_ok c V to grad i s v r v' :
  (vnmf.fOk s = true ->
   vnmf.updated s = true /\ matrix.nonneg (vnmf.fW s) /\ matrix.nonneg (vnmf.fH s)) ->
  vnmf.factorsStep c V to grad i s v = Some (r, v') ->
  vnmf.fOk (ctl_state r) = true ->
  vnmf.updated (ctl_state r) = true /\
  matrix.nonneg (vnmf.fW (ctl_state r)) /\ matrix.nonneg (vnmf.fH (ctl_state r)).
Proof.
  intros Hs E. unfold vnmf.factorsStep in E.
  vbind E as gW EgW. vbind E as gH EgH. vbind E as stop Estop. destruct stop.
  { apply ret_Some in E as [-> _]. done. }
  vbind E as vT EvT. vbind E as hT EhT. vbind E as wT EwT.
  vbind E as [[[W gW'] iter] ok] EW.
  vbind E as W' EW'. vbind E as gW'' EgW'.
  vbind E as [[[H gH'] iter'] ok'] EH.
  apply ret_Some in E as [-> _]. simpl in *. intros [-> ->]%andb_true_iff.
  apply nnlsSubproblem_ok in EW; [|done]. apply nnlsSubproblem_ok in EH; [|done].
  simpl in *.
  split; [done|]. split; [eapply transpose_nonneg; eauto|auto].
Qed.

Lemma Factors_ok V Wo Ho c v r v' :
  vnmf.Factors V Wo Ho c v = Some (r, v') ->
  r.1.2 = true -> r.2 = true /\ matrix.nonneg r.1.1.1 /\ matrix.nonneg r.1.1.2.
Proof.
  intros E. unfold vnmf.Factors in E.
  vbind E as [[to grad] s] Einit. vbind E as r' Eloop.
  apply ret_Some in E as [-> _]. simpl.
  unfold vnmf.factorsInit in Einit.
  vbind Einit as to' Eto. vbind Einit as [[gW gH] grad'] Eg.
  apply ret_Some in Einit as [[= -> -> ->] _].
  apply (fun Hb Hp => for_lt_inv
           (fun s (_ : env) => vnmf.fOk s = true ->
              vnmf.updated s = true /\ matrix.nonneg (vnmf.fW s) /\
              matrix.nonneg (vnmf.fH s))
           _ _ Hb _ _ _ _ Hp Eloop); [|done].
  intros ? ? ? ? ? ?. by apply factorsStep_ok.
Qed.

(** X11: the matrix [H] that [nnlsSubproblem] returns is non-negative when
    [Ho] is, and also, whatever [Ho] holds, when [ok] is true: a step
    accepted in reduce mode installs a projected candidate, and from then
    on [H] is only replaced by projected candidates. *)
Theorem nnlsSubproblem_nonneg_result V W Ho tol outer inner w H G i ok w' mV mW mHo :
  cells (heap w) !! V = Some mV ->
  cells (heap w) !! W = Some mW ->
  cells (heap w) !! Ho = Some mHo ->
  nmf.nnlsSubproblem V W Ho tol outer inner w = Some (H, G, i, ok, w') ->
  matrix.nonneg mHo \/ ok = true ->
  exists mH, cells (heap w') !! H = Some mH /\ matrix.nonneg mH.
Proof.
  destruct w as [h v]. cbn [heap]. intros HV HW HHo E Hor.
  pose proof (nnlsSubproblem_sim V W Ho mV mW mHo tol outer inner h v HV HW HHo) as Hsim.
  destruct (refines_Some_inv _ _ _ _ _ _ Hsim E) as ([[[mH mG] i'] ok'] & EV & Hpost).
  destruct Hpost as (_ & Hok & HH' & _). cbn [fst snd] in *. subst ok'.
  exists mH. split; [done|]. destruct Hor as [Hn| ->].
  - by apply (nnlsSubproblem_nonneg _ _ _ _ _ _ _ _ _ Hn EV).
  - by apply (nnlsSubproblem_ok _ _ _ _ _ _ _ _ _ EV).
Qed.

Definition exNegWorld : world :=
  mkWorld (mkStore [mkDense 1 1 [4]; mkDense 1 1 [1]; mkDense 1 1 [-1]]%float []) exEnv.
Definition exNegResult : ptr * ptr * Z * bool * world :=
  default (0, 0, 0%Z, false, exNegWorld) (nmf.nnlsSubproblem 0 1 2 0.001 10 20 exNegWorld).

Definition exOkWorld : world :=
  mkWorld (mkStore [mkDense 1 1 [1]; mkDense 1 1 [2]; mkDense 1 1 [-1]]%float []) exEnv.
Definition exOkResult : ptr * ptr * Z * bool * world :=
  default (0, 0, 0%Z, false, exOkWorld) (nmf.nnlsSubproblem 0 1 2 0.001 10 20 exOkWorld).

Lemma nnlsSubproblem_nonneg_result_witness :
  exists mH, cells (heap exOkResult.2) !! exOkResult.1.1.1.1 = Some mH /\ matrix.nonneg mH.
Proof.
  apply (nnlsSubproblem_nonneg_result 0 1 2 0.001%float 10 20 exOkWorld
           exOkResult.1.1.1.1 exOkResult.1.1.1.2 exOkResult.1.1.2 exOkResult.1.2
           exOkResult.2 (mkDense 1 1 [1]%float) (mkDense 1 1 [2]%float)
           (mkDense 1 1 [-1]%float)).
  - reflexivity.
  - reflexivity.
  - reflexivity.
  - vm_compute. reflexivity.
  - right. vm_compute. reflexivity.
Defined.

(** X12: when [Factors] returns [ok = true], the matrices it returns are
    non-negative whatever [Wo] and [Ho] held, and they are two different
    matrices allocated by the call: never the caller's own. *)
Theorem Factors_ok_certifies V Wo Ho c w W H w' mV mWo mHo :
  cells (heap w) !! V = Some mV ->
  cells (heap w) !! Wo = Some mWo ->
  cells (heap w) !! Ho = Some mHo ->
  nmf.Factors V Wo Ho c w = Some (W, H, true, w') ->
  length (cells (heap w)) <= W /\ length (cells (heap w)) <= H /\ W <> H /\
  exists mW mH,
    cells (heap w') !! W = Some mW /\ cells (heap w') !! H = Some mH /\
    matrix.nonneg mW /\ matrix.nonneg mH.
Proof.
  destruct w as [h v]. cbn [heap]. intros HV HWo HHo E.
  pose proof (Factors_sim V Wo Ho mV mWo mHo c h v HV HWo HHo) as Hsim.
  destruct (refines_Some_inv _ _ _ _ _ _ Hsim E) as ([[[mW mH] ok'] upd] & EV & Hpost).
  unfold factors_post in Hpost. cbn [fst snd] in Hpost.
  destruct Hpost as (Hok & HW & HH & _ & Hupd). subst ok'.
  apply Factors_ok in EV; [|done]. cbn [fst snd] in EV. destruct EV as (-> & ? & ?).
  destruct Hupd as (? & ? & ?). do 3 (split; [done|]). by exists mW, mH.
Qed.

Lemma Factors_ok_certifies_witness :
  3 <= exResult.1.1.1 /\ 3 <= exResult.1.1.2 /\ exResult.1.1.1 <> exResult.1.1.2 /\
  exists mW mH,
    cells (heap exResult.2) !! exResult.1.1.1 = Some mW /\
    cells (heap exResult.2) !! exResult.1.1.2 = Some mH /\
    matrix.nonneg mW /\ matrix.nonneg mH.
Proof.
  apply (Factors_ok_certifies 0 1 2 exConfig exWorld exResult.1.1.1 exResult.1.1.2
           exResult.2 exV exWo exHo).
  - reflexivity.
  - reflexivity.
  - reflexivity.
  - vm_compute. reflexivity.
Defined.

(** *** Iterations that change nothing *)

Lemma forLoop_index {S St} (body : Z -> St -> ST S (ctl St)) n i s v r v' :
  forLoop n i body s v = Some (r, v') -> (i <= r.1 <= i + Z.of_nat n)%Z.
Proof.
  revert i s v. induction n as [|n IH]; intros i s v; cbn [forLoop].
  - intros [= <- <-]. simpl. lia.
  - intros E. apply bind_Some in E as (c & v1 & Hc & E). destruct c as [s1|s1].
    + injection E as [= <- <-]. simpl. lia.
    + apply IH in E. lia.
Qed.

Lemma forLoop_first {S St} (body : Z -> St -> ST S (ctl St)) n i s v r v' :
  forLoop n i body s v = Some ((i, r), v') ->
  (n = 0 /\ r = s /\ v' = v) \/ body i s v = Some (Break r, v').
Proof.
  destruct n as [|n]; cbn [forLoop].
  - intros [= <- <-]. by left.
  - intros E. apply bind_Some in E as (c & v1 & Hc & E). destruct c as [s1|s1].
    + injection E as [= <- <-]. by right.
    + apply forLoop_index in E. simpl in E. lia.
Qed.

Lemma clone_wf a b : matrix.wf a -> matrix.clone a = Some b -> b = a.
Proof.
  unfold matrix.clone. intros Hwf Hb.
  pose proof (tabulate_Rows _ _ _ _ Hb) as HR.
  pose proof (tabulate_Cols _ _ _ _ Hb) as HC.
  pose proof (tabulate_wf _ _ _ _ Hb) as Hwfb.
  destruct a as [r c d], b as [r' c' d']. unfold matrix.wf in *. simpl in *. subst r' c'.
  f_equal. apply list_eq. intros q.
  destruct (Nat.lt_ge_cases q (r * c)) as [Hq|Hq].
  - assert (0 < c) by nia.
    assert (q / c < r) by (apply Nat.Div0.div_lt_upper_bound; lia).
    assert (q mod c < c) by (apply Nat.mod_upper_bound; lia).
    destruct (tabulate_At _ _ _ _ Hb (q / c) (q mod c)) as (x & Hx & Hx'); [done..|].
    apply At_inv in Hx as (_ & _ & Hx). apply At_inv in Hx' as (_ & _ & Hx').
    simpl in *. replace (q / c * c + q mod c) with q in * by (rewrite (Nat.div_mod_eq q c) at 1; lia).
    congruence.
  - rewrite !lookup_ge_None_2 by lia. done.
Qed.

Lemma solveStep_break WtW WtV tol inner beta i st v st' v' :
  vnmf.solveStep WtW WtV tol inner beta i st v = Some (Break st', v') ->
  st'.1.1.1 = st.1.1.1 /\ st'.2 = st.2.
Proof.
  destruct st as [[[H G0] alpha] ok]. unfold vnmf.solveStep. intros E.
  vbind E as G EG. destruct (_ <? _)%float.
  - by apply ret_Some in E as [[= ->] _].
  - vbind E as r Er. by apply ret_Some in E as [? _].
Qed.

Lemma solveStep_no_inner WtW WtV tol inner beta i st v c v' :
  (inner <= 0)%Z ->
  vnmf.solveStep WtW WtV tol inner beta i st v = Some (c, v') ->
  (ctl_state c).1.1.1 = st.1.1.1 /\ (ctl_state c).2 = st.2.
Proof.
  destruct st as [[[H G0] alpha] ok]. unfold vnmf.solveStep. intros Hin E.
  vbind E as G EG. destruct (_ <? _)%float.
  - by apply ret_Some in E as [-> _].
  - vbind E as r Er. apply ret_Some in E as [-> _].
    unfold for_lt in Er. replace (Z.to_nat inner) with 0 in Er by lia.
    by injection Er as [= <-].
Qed.

Lemma nnlsSubproblem_unchanged V W Ho tol outer inner v H G i ok v' :
  vnmf.nnlsSubproblem V W Ho tol outer inner v = Some ((H, G, i, ok), v') ->
  i = 0%Z \/ (inner <= 0)%Z ->
  ok = false /\ matrix.clone Ho = Some H.
Proof.
  intros E Hor. unfold vnmf.nnlsSubproblem in E.
  vbind E as [] E0. vbind E as H0 EH. vbind E as wT EwT. vbind E as WtV EWtV.
  vbind E as WtW EWtW. vbind E as [i' [[[H' G'] alpha] ok']] Eloop.
  vbind E as [] E1. apply ret_Some in E as [[= -> -> -> ->] _].
  rewrite EH. destruct Hor as [->|Hin].
  - unfold for_lt in Eloop. apply forLoop_first in Eloop as [(_ & [= <- _ _ <-] & _)|Eb].
    + done.
    + apply solveStep_break in Eb as [? ?]. simpl in *. by subst.
  - apply (fun Hb Hp => for_lt_inv
             (fun st (_ : env) => st.1.1.1 = H0 /\ st.2 = false)
             _ _ Hb _ _ _ _ Hp) in Eloop.
    + simpl in Eloop. destruct Eloop as [-> ->]. done.
    + intros j st va c vb [? ?] Ec.
      apply (solveStep_no_inner _ _ _ _ _ _ _ _ _ _ Hin) in Ec as [? ?]. split; congruence.
    + done.
Qed.

(** X13: when [nnlsSubproblem] reports [i = 0] (it left its loop at the first
    norm test, or [outer <= 0]), or when [inner <= 0], no line search
    accepted anything: [ok] is false and [H] is the clone of [Ho] made on
    entry, entry for entry the matrix [Ho]. *)
Theorem nnlsSubproblem_unchanged_result V W Ho tol outer inner w H G i ok w' mV mW mHo :
  cells (heap w) !! V = Some mV ->
  cells (heap w) !! W = Some mW ->
  cells (heap w) !! Ho = Some mHo ->
  matrix.wf mHo ->
  nmf.nnlsSubproblem V W Ho tol outer inner w = Some (H, G, i, ok, w') ->
  i = 0%Z \/ (inner <= 0)%Z ->
  ok = false /\ H <> Ho /\ cells (heap w') !! H = Some mHo.
Proof.
  destruct w as [h v]. cbn [heap]. intros HV HW HHo Hwf E Hor.
  pose proof (nnlsSubproblem_sim V W Ho mV mW mHo tol outer inner h v HV HW HHo) as Hsim.
  destruct (refines_Some_inv _ _ _ _ _ _ Hsim E) as ([[[mH mG] i'] ok'] & EV & Hpost).
  destruct Hpost as (Hi & Hok & HH' & _ & _ & Hfresh & _). cbn [fst snd heap] in *. subst.
  apply nnlsSubproblem_unchanged in EV as [-> Hc]; [|done].
  apply (clone_wf _ _ Hwf) in Hc. subst mH.
  split; [done|]. split; [|done].
  apply lookup_lt_Some in HHo. lia.
Qed.

Definition exTightResult : ptr * ptr * Z * bool * world :=
  default (0, 0, 0%Z, false, exWorld) (nmf.nnlsSubproblem 0 1 2 1000 10 20 exWorld).

Lemma nnlsSubproblem_unchanged_result_witness :
  exTightResult.1.2 = false /\ exTightResult.1.1.1.1 <> 2 /\
  cells (heap exTightResult.2) !! exTightResult.1.1.1.1 = Some exHo.
Proof.
  apply (nnlsSubproblem_unchanged_result 0 1 2 1000%float 10 20 exWorld
           exTightResult.1.1.1.1 exTightResult.1.1.1.2 exTightResult.1.1.2
           exTightResult.1.2 exTightResult.2 exV exWo exHo).
  - reflexivity.
  - reflexivity.
  - reflexivity.
  - reflexivity.
  - vm_compute. reflexivity.
  - left. vm_compute. reflexivity.
Defined.

(** X14: the iteration count [nnlsSubproblem] returns lies between [0] and
    [outer]; it is [0] when [outer <= 0]. *)
Theorem nnlsSubproblem_iterations V W Ho tol outer inner w H G i ok w' mV mW mHo :
  cells (heap w) !! V = Some mV ->
  cells (heap w) !! W = Some mW ->
  cells (heap w) !! Ho = Some mHo ->
  nmf.nnlsSubproblem V W Ho tol outer inner w = Some (H, G, i, ok, w') ->
  (0 <= i <= Z.max 0 outer)%Z.
Proof.
  destruct w as [h v]. cbn [heap]. intros HV HW HHo E.
  pose proof (nnlsSubproblem_sim V W Ho mV mW mHo tol outer inner h v HV HW HHo) as Hsim.
  destruct (refines_Some_inv _ _ _ _ _ _ Hsim E) as ([[[mH mG] i'] ok'] & EV & Hpost).
  destruct Hpost as (Hi & _). cbn [fst snd] in Hi. subst i'.
  unfold vnmf.nnlsSubproblem in EV.
  vbind EV as [] E0. vbind EV as H0 EH. vbind EV as wT EwT. vbind EV as WtV EWtV.
  vbind EV as WtW EWtW. vbind EV as [i' [[[H' G'] alpha] ok'']] Eloop.
  vbind EV as [] E1. apply ret_Some in EV as [[= -> -> -> ->] _].
  unfold for_lt in Eloop. apply forLoop_index in Eloop. simpl in Eloop. lia.
Qed.

Lemma nnlsSubproblem_iterations_witness :
  (0 <= exOkResult.1.1.2 <= Z.max 0 10)%Z.
Proof.
  apply (nnlsSubproblem_iterations 0 1 2 0.001%float 10 20 exOkWorld
           exOkResult.1.1.1.1 exOkResult.1.1.1.2 exOkResult.1.1.2 exOkResult.1.2
           exOkResult.2 (mkDense 1 1 [1]%float) (mkDense 1 1 [2]%float)
           (mkDense 1 1 [-1]%float)).
  - reflexivity.
  - reflexivity.
  - reflexivity.
  - vm_compute. reflexivity.
Defined.

(** *** [posFilt] and the equality test of the line search *)

Lemma clamped_not_nan_nor_negative y :
  clamped y -> is_nan y = false /\ get_sign y = false.
Proof.
  intros [->|Hy]; [split; reflexivity|].
  apply gt0_SFcompare in Hy.
  assert (Hz : is_zero y = false).
  { unfold is_zero. rewrite FloatAxioms.eqb_spec. unfold SFeqb.
    change (Prim2SF zero) with (S754_zero false).
    destruct (Prim2SF y) as [[]|[]| |[] ? ?]; simpl in *; congruence. }
  split.
  - unfold is_nan. rewrite FloatAxioms.eqb_spec. unfold SFeqb.
    by rewrite (SFcompare_refl_positive _ Hy).
  - unfold get_sign. rewrite Hz. cbv zeta. rewrite ltb_spec. unfold SFltb.
    change (Prim2SF zero) with (S754_zero false).
    destruct (Prim2SF y) as [[]|[]| |[] ? ?]; simpl in *; congruence.
Qed.

(** X1: [posFilt] never returns a NaN, a negative number or the negative
    zero: NaN, the two zeros and everything below zero become [+0]; and
    filtering twice is filtering once. *)
Theorem posFilt_result r c v :
  is_nan (nmf.posFilt r c v) = false /\
  get_sign (nmf.posFilt r c v) = false /\
  f64.nonneg (nmf.posFilt r c v) /\
  nmf.posFilt r c (nmf.posFilt r c v) = nmf.posFilt r c v /\
  (if (0 <? v)%float then nmf.posFilt r c v = v else nmf.posFilt r c v = f64.zero) /\
  nmf.posFilt r c nan = f64.zero /\
  nmf.posFilt r c (-0)%float = f64.zero /\
  nmf.posFilt r c neg_infinity = f64.zero.
Proof.
  destruct (clamped_not_nan_nor_negative _ (posFilt_clamped r c v)) as [Hn Hs].
  split; [exact Hn|]. split; [exact Hs|]. split; [apply posFilt_nonneg|].
  split; [|split; [|repeat split; reflexivity]].
  - unfold nmf.posFilt. destruct (f64.gt0 v) eqn:E; [by rewrite E|reflexivity].
  - unfold nmf.posFilt, f64.gt0. by destruct (0 <? v)%float.
Qed.

Lemma projected_forallb m : forallb f64.gt0 (Data m) = true -> projected m.
Proof.
  intros H. apply Forall_forall. intros x Hx. right.
  rewrite forallb_forall in H. apply H. by apply list_elem_of_In.
Qed.

(** X3: an inner iteration in expand mode (the mode chosen at [j = 0] was not
    to reduce), with [Hp] and [Hn] both candidates, as they are at every
    retry: when the sufficient-decrease test fails, or [Hn] is the very
    matrix [Hp] is (the same floats, entry for entry: [Equals] uses no
    tolerance), the iteration assigns [H = Hp] and leaves the loop with
    [alpha] and [ok] as they were; otherwise it continues with
    [alpha / beta] and [Hp = Hn], and [H] is not assigned. *)
Theorem lineSearchDecide_expand beta j s Hn sufficient w hp mhp mHn :
  (if (j =? 0)%Z then negb sufficient else nmf.sReduce s) = false ->
  (if (j =? 0)%Z then Some (nmf.sH s) else nmf.sHp s) = Some hp ->
  cells (heap w) !! hp = Some mhp ->
  cells (heap w) !! Hn = Some mHn ->
  matrix.wf mhp -> matrix.wf mHn -> projected mhp -> projected mHn ->
  (sufficient = false \/ mhp = mHn ->
   nmf.lineSearchDecide beta j s Hn sufficient w =
     Some (Break (nmf.mkSearch hp (Some hp) false (nmf.sAlpha s) (nmf.sOk s)),
           mkWorld (heap w) (env_emit (LineSearchAccept false j) (wenv w)))) /\
  (sufficient = true /\ mhp <> mHn ->
   nmf.lineSearchDecide beta j s Hn sufficient w =
     Some (Continue (nmf.mkSearch (nmf.sH s) (Some Hn) false
                       (nmf.sAlpha s / beta)%float (nmf.sOk s)), w)).
Proof.
  intros Hred Hhp Ehp EHn Wp Wn Pp Pn.
  pose proof (equals_projected _ _ Wp Wn Pp Pn) as Heq.
  assert (Hrun : nmf.lineSearchDecide beta j s Hn sufficient w =
    (if negb sufficient || matrix.equals mhp mHn
     then Some (Break (nmf.mkSearch hp (Some hp) false (nmf.sAlpha s) (nmf.sOk s)),
                mkWorld (heap w) (env_emit (LineSearchAccept false j) (wenv w)))
     else Some (Continue (nmf.mkSearch (nmf.sH s) (Some Hn) false
                            (nmf.sAlpha s / beta)%float (nmf.sOk s)), w))).
  { destruct w as [h v]. cbn [heap wenv] in *.
    unfold nmf.lineSearchDecide. cbv zeta. rewrite Hred, Hhp.
    destruct sufficient; cbn [negb orb]; [|reflexivity].
    rewrite !run_bind. cbn [lift]. unfold mat64.Equals, mat64.get.
    rewrite !run_bind. cbn [heap]. rewrite Ehp. cbn [lift]. rewrite !run_bind.
    cbn [heap]. rewrite EHn. cbn [lift].
    change (mret (M := ST world) (matrix.equals mhp mHn) (mkWorld h v))
      with (Some (matrix.equals mhp mHn, mkWorld h v)).
    cbv beta iota. destruct (matrix.equals mhp mHn); reflexivity. }
  rewrite Hrun. split.
  - intros [->|E]; [reflexivity|]. apply Heq in E. rewrite E. by rewrite orb_true_r.
  - intros [-> Hne]. cbn [negb orb].
    destruct (matrix.equals mhp mHn) eqn:E; [|reflexivity]. destruct Hne. by apply Heq.
Qed.

Definition exSearch : nmf.search := nmf.mkSearch 0 (Some 1) false 1 false.
Definition exSearchWorld : world :=
  mkWorld (mkStore [mkDense 1 1 [2]; mkDense 1 1 [1]; mkDense 1 1 [1]]%float []) exEnv.

Lemma lineSearchDecide_expand_witness :
  nmf.lineSearchDecide 0.1 1 exSearch 2 true exSearchWorld =
    Some (Break (nmf.mkSearch 1 (Some 1) false 1 false),
          mkWorld (heap exSearchWorld) (env_emit (LineSearchAccept false 1) exEnv)).
Proof.
  apply (lineSearchDecide_expand 0.1%float 1 exSearch 2 true exSearchWorld 1
           (mkDense 1 1 [1]%float) (mkDense 1 1 [1]%float)).
  - reflexivity.
  - reflexivity.
  - reflexivity.
  - reflexivity.
  - reflexivity.
  - reflexivity.
  - apply projected_forallb. vm_compute. reflexivity.
  - apply projected_forallb. vm_compute. reflexivity.
  - right. reflexivity.
Defined.

(** *** The work of a run *)

Lemma forLoop_inv_idx {S St} (P Q : Z -> St -> S -> Prop)
  (body : Z -> St -> ST S (ctl St)) :
  (forall i s v c v', P i s v -> body i s v = Some (c, v') ->
     match c with Break s' => Q i s' v' | Continue s' => P (i + 1)%Z s' v' end) ->
  (forall i s v, P i s v -> Q i s v) ->
  forall n i s v r v', P i s v -> forLoop n i body s v = Some (r, v') -> Q r.1 r.2 v'.
Proof.
  intros Hbody HPQ. induction n as [|n IH]; intros i s v r v' HP; simpl.
  - intros [= <- <-]. by apply HPQ.
  - intros E. apply bind_Some in E as (c & v1 & Hc & E).
    pose proof (Hbody _ _ _ _ _ HP Hc) as HP1.
    destruct c as [s1|s1]; simpl in *.
    + by injection E as [= <- <-].
    + eauto.
Qed.

Lemma lineSearchStep_ticks WtW G beta j s v c v' :
  vnmf.lineSearchStep WtW G beta j s v = Some (c, v') -> ticks v' = ticks v.
Proof.
  unfold vnmf.lineSearchStep. intros E.
  vbind E as [Hn suff] Ec. apply lineSearchCandidate_inv in Ec as (-> & _).
  unfold vnmf.lineSearchDecide in E. cbv zeta in E.
  destruct (if (j =? 0)%Z then _ else _).
  - destruct suff.
    + vbind E as [] Ee. apply emitV_Some in Ee as ->. by apply ret_Some in E as [_ ->].
    + by apply ret_Some in E as [_ ->].
  - vbind E as stop Es.
    assert (v0 = v) as ->.
    { destruct (negb suff); [by apply ret_Some in Es as [_ ->]|].
      vbind Es as hp Ehp. by apply ret_Some in Es as [_ ->]. }
    destruct stop.
    + vbind E as hp Ehp. vbind E as [] Ee. apply emitV_Some in Ee as ->.
      by apply ret_Some in E as [_ ->].
    + by apply ret_Some in E as [_ ->].
Qed.

Lemma solveStep_ticks WtW WtV tol inner beta i st v c v' :
  vnmf.solveStep WtW WtV tol inner beta i st v = Some (c, v') -> ticks v' = ticks v.
Proof.
  destruct st as [[[H G0] alpha] ok]. unfold vnmf.solveStep. intros E.
  vbind E as G EG. destruct (_ <? _)%float.
  - by apply ret_Some in E as [_ ->].
  - vbind E as r Er. apply ret_Some in E as [_ ->].
    apply (fun Hb Hp => for_lt_inv (fun _ v1 => ticks v1 = ticks v) _ _ Hb _ _ _ _ Hp Er);
      [|done].
    intros ? ? ? ? ? Hv Ec. apply lineSearchStep_ticks in Ec. congruence.
Qed.

(** [nnlsSubproblem] does not read the clock. *)
Lemma nnlsSubproblem_ticks V W Ho tol outer inner v r v' :
  vnmf.nnlsSubproblem V W Ho tol outer inner v = Some (r, v') -> ticks v' = ticks v.
Proof.
  intros E. unfold vnmf.nnlsSubproblem in E.
  vbind E as [] E0. apply emitV_Some in E0 as ->.
  vbind E as H0 EH. vbind E as wT EwT. vbind E as WtV EWtV. vbind E as WtW EWtW.
  vbind E as [i [[[H G] alpha] ok]] Eloop.
  vbind E as [] E1. apply emitV_Some in E1 as ->. apply ret_Some in E as [_ ->].
  simpl.
  apply (fun Hb Hp => for_lt_inv (fun _ v2 => ticks v2 = ticks v) _ _ Hb _ _ _ _ Hp Eloop);
    [|done].
  intros ? ? ? ? ? Hv Ec. apply solveStep_ticks in Ec. congruence.
Qed.

(** After [i] completed iterations: [2 * i] solves and [i] readings of the
    clock since the loop was entered. *)
Definition factors_work (t0 : list event) (k0 : nat) (extra : nat) (i : Z)
  (v : env) : Prop :=
  (0 <= i)%Z /\
  exists evs, trace v = t0 ++ evs /\
    length (solveFlags evs) = 2 * Z.to_nat i /\
    k0 + Z.to_nat i <= ticks v <= k0 + Z.to_nat i + extra.

Lemma factorsStep_work c V to grad t0 k0 i s v r v' :
  factors_work t0 k0 0 i v ->
  vnmf.factorsStep c V to grad i s v = Some (r, v') ->
  match r with
  | Break _ => factors_work t0 k0 1 i v'
  | Continue _ => factors_work t0 k0 0 (i + 1) v'
  end.
Proof.
  intros (Hi & evs & Ht & Hfl & Hk) E. unfold vnmf.factorsStep in E.
  vbind E as gW EgW. vbind E as gH EgH. vbind E as stop Estop.
  assert (trace v0 = trace v /\
          (stop = true -> ticks v <= ticks v0 <= ticks v + 1) /\
          (stop = false -> ticks v0 = ticks v + 1)) as (Hv0 & Hs1 & Hs0).
  { destruct (_ <? _)%float.
    - apply ret_Some in Estop as [-> ->]. split; [done|]. split; [lia|done].
    - vbind Estop as now Enow.
      apply ret_Some in Estop as [_ ->]. simpl. split; [done|]. split; lia. }
  destruct stop.
  { apply ret_Some in E as [-> ->]. split; [done|]. exists evs.
    rewrite Hv0. split; [done|]. split; [done|]. specialize (Hs1 eq_refl). lia. }
  specialize (Hs0 eq_refl).
  vbind E as vT EvT. vbind E as hT EhT. vbind E as wT EwT.
  vbind E as [[[W gW'] iter] ok] EW.
  vbind E as W' EW'. vbind E as gW'' EgW'.
  vbind E as [[[H gH'] iter'] ok'] EH.
  apply ret_Some in E as [-> ->].
  pose proof (nnlsSubproblem_ticks _ _ _ _ _ _ _ _ _ EW) as Hk1.
  pose proof (nnlsSubproblem_ticks _ _ _ _ _ _ _ _ _ EH) as Hk2.
  apply nnlsSubproblem_flags in EW as (e1 & Ht1 & Hf1).
  apply nnlsSubproblem_flags in EH as (e2 & Ht2 & Hf2). simpl in *.
  split; [lia|]. exists (evs ++ e1 ++ e2).
  split; [by rewrite Ht2, Ht1, Hv0, Ht, <- !app_assoc|].
  rewrite !solveFlags_app, Hf1, Hf2, !length_app. simpl.
  replace (Z.to_nat (i + 1)) with (S (Z.to_nat i)) by lia. lia.
Qed.

Lemma Factors_work V Wo Ho c v r v' :
  vnmf.Factors V Wo Ho c v = Some (r, v') ->
  exists evs n,
    trace v' = trace v ++ evs /\ length (solveFlags evs) = 2 * n /\
    (Z.of_nat n <= Z.max 0 (nmf.MaxIter c))%Z /\
    ticks v + 1 + n <= ticks v' <= ticks v + 2 + n.
Proof.
  intros E. unfold vnmf.Factors in E.
  vbind E as [[to grad] s] Einit. vbind E as [i r'] Eloop.
  apply ret_Some in E as [-> ->].
  rewrite factorsInit_run in Einit.
  destruct (vnmf.initial V Wo Ho) as [[[gW gH] grad']|]; [|done].
  injection Einit as [= <- <- <- <-].
  unfold for_lt in Eloop.
  pose proof (forLoop_index _ _ _ _ _ _ _ Eloop) as Hidx. simpl in Hidx.
  apply (fun Hb Hq Hp => forLoop_inv_idx
           (fun i _ v1 => factors_work (trace v) (S (ticks v)) 0 i v1)
           (fun i _ v1 => factors_work (trace v) (S (ticks v)) 1 i v1)
           _ Hb Hq _ _ _ _ _ _ Hp) in Eloop.
  - destruct Eloop as (Hi & evs & Ht & Hfl & Hk). simpl in *.
    exists evs, (Z.to_nat i). split; [done|]. split; [done|]. split; lia.
  - intros ? ? ? ? ? ?. by apply factorsStep_work.
  - intros j _ va (? & evs & ? & ? & ?). split; [done|]. exists evs.
    split; [done|]. split; [done|]. lia.
  - split; [lia|]. exists []. simpl. rewrite app_nil_r. split; [done|]. split; lia.
Qed.

(** X15: a run of [Factors] solves an even number [2 * n] of subproblems with
    [n <= MaxIter], and reads the clock [n + 1] or [n + 2] times: once on
    entry and once in every iteration that reaches the time test. *)
Theorem Factors_work_bound V Wo Ho c w W H ok w' mV mWo mHo :
  cells (heap w) !! V = Some mV ->
  cells (heap w) !! Wo = Some mWo ->
  cells (heap w) !! Ho = Some mHo ->
  nmf.Factors V Wo Ho c w = Some (W, H, ok, w') ->
  exists evs n,
    trace (wenv w') = trace (wenv w) ++ evs /\
    length (solveFlags evs) = 2 * n /\
    (Z.of_nat n <= Z.max 0 (nmf.MaxIter c))%Z /\
    ticks (wenv w) + 1 + n <= ticks (wenv w') <= ticks (wenv w) + 2 + n.
Proof.
  destruct w as [h v]. cbn [heap wenv]. intros HV HWo HHo E.
  pose proof (Factors_sim V Wo Ho mV mWo mHo c h v HV HWo HHo) as Hsim.
  destruct (refines_Some_inv _ _ _ _ _ _ Hsim E) as (rv & EV & _).
  by apply Factors_work in EV.
Qed.

Lemma Factors_work_bound_witness :
  exists evs n,
    trace (wenv exResult.2) = trace (wenv exWorld) ++ evs /\
    length (solveFlags evs) = 2 * n /\
    (Z.of_nat n <= Z.max 0 3)%Z /\
    ticks (wenv exWorld) + 1 + n <= ticks (wenv exResult.2) <= ticks (wenv exWorld) + 2 + n.
Proof.
  apply (Factors_work_bound 0 1 2 exConfig exWorld exResult.1.1.1 exResult.1.1.2
           exResult.1.2 exResult.2 exV exWo exHo).
  - reflexivity.
  - reflexivity.
  - reflexivity.
  - vm_compute. reflexivity.
Defined.

(** X17: [nnlsSubproblem] never reads the clock: the time limit of [Factors] is
    only tested between outer iterations, so a pair of solves that has
    started runs to its end. *)
Theorem nnlsSubproblem_no_clock V W Ho tol outer inner w H G i ok w' mV mW mHo :
  cells (heap w) !! V = Some mV ->
  cells (heap w) !! W = Some mW ->
  cells (heap w) !! Ho = Some mHo ->
  nmf.nnlsSubproblem V W Ho tol outer inner w = Some (H, G, i, ok, w') ->
  ticks (wenv w') = ticks (wenv w).
Proof.
  destruct w as [h v]. cbn [heap wenv]. intros HV HW HHo E.
  pose proof (nnlsSubproblem_sim V W Ho mV mW mHo tol outer inner h v HV HW HHo) as Hsim.
  destruct (refines_Some_inv _ _ _ _ _ _ Hsim E) as (rv & EV & _).
  by apply nnlsSubproblem_ticks in EV.
Qed.

Lemma nnlsSubproblem_no_clock_witness :
  ticks (wenv exOkResult.2) = ticks (wenv exOkWorld).
Proof.
  apply (nnlsSubproblem_no_clock 0 1 2 0.001%float 10 20 exOkWorld
           exOkResult.1.1.1.1 exOkResult.1.1.1.2 exOkResult.1.1.2 exOkResult.1.2
           exOkResult.2 (mkDense 1 1 [1]%float) (mkDense 1 1 [2]%float)
           (mkDense 1 1 [-1]%float)).
  - reflexivity.
  - reflexivity.
  - reflexivity.
  - vm_compute. reflexivity.
Defined.

(** *** Leaving the solver early *)

Lemma forLoop_early {S St} (body : Z -> St -> ST S (ctl St)) n i s v r v' :
  forLoop n i body s v = Some (r, v') -> (r.1 < i + Z.of_nat n)%Z ->
  exists s0 v0, body r.1 s0 v0 = Some (Break r.2, v').
Proof.
  revert i s v. induction n as [|n IH]; intros i s v; cbn [forLoop].
  - intros [= <- <-]. simpl. lia.
  - intros E Hlt. apply bind_Some in E as (c & v1 & Hc & E). destruct c as [s1|s1].
    + injection E as [= <- <-]. simpl. eauto.
    + eapply IH; [exact E|lia].
Qed.

Lemma solveStep_break_inv WtW WtV tol inner beta i st v H G alpha ok v' :
  vnmf.solveStep WtW WtV tol inner beta i st v = Some (Break (H, G, alpha, ok), v') ->
  vnmf.gradient WtW WtV H = Some G /\ (matrix.norm G <? tol)%float = true.
Proof.
  destruct st as [[[H0 G0] alpha0] ok0]. unfold vnmf.solveStep. intros E.
  vbind E as G' EG. destruct (_ <? _)%float eqn:Elt.
  - apply ret_Some in E as [[= -> -> -> ->] _]. done.
  - vbind E as r Er. by apply ret_Some in E as [? _].
Qed.

(** X16: when [nnlsSubproblem] returns an iteration count below [outer], it
    left its loop at the norm test: the [G] it returns is the projected
    gradient [WtW * H - WtV], masked with [H], at the very [H] it returns,
    and the norm of [G] is below [tol]. *)
Theorem nnlsSubproblem_converged V W Ho tol outer inner w H G i ok w' mV mW mHo :
  cells (heap w) !! V = Some mV ->
  cells (heap w) !! W = Some mW ->
  cells (heap w) !! Ho = Some mHo ->
  nmf.nnlsSubproblem V W Ho tol outer inner w = Some (H, G, i, ok, w') ->
  (i < outer)%Z ->
  exists mH mG wT WtV WtW mP mG0,
    cells (heap w') !! H = Some mH /\ cells (heap w') !! G = Some mG /\
    matrix.transpose mW = Some wT /\
    matrix.mul wT mV = Some WtV /\ matrix.mul wT mW = Some WtW /\
    matrix.mul WtW mH = Some mP /\ matrix.sub mP WtV = Some mG0 /\
    masked mG0 mH mG /\
    (matrix.norm mG <? tol)%float = true.
Proof.
  destruct w as [h v]. cbn [heap]. intros HV HW HHo E Hlt.
  pose proof (nnlsSubproblem_sim V W Ho mV mW mHo tol outer inner h v HV HW HHo) as Hsim.
  destruct (refines_Some_inv _ _ _ _ _ _ Hsim E) as ([[[mH mG] i'] ok'] & EV & Hpost).
  destruct Hpost as (Hi & _ & HH' & HG' & _). cbn [fst snd heap] in *. subst i'.
  unfold vnmf.nnlsSubproblem in EV.
  vbind EV as [] E0. vbind EV as H0 EH. vbind EV as wT EwT. vbind EV as WtV EWtV.
  vbind EV as WtW EWtW. vbind EV as [i' [[[H' G'] alpha] ok'']] Eloop.
  vbind EV as [] E1. apply ret_Some in EV as [[= -> -> -> ->] _].
  unfold for_lt in Eloop.
  pose proof (forLoop_index _ _ _ _ _ _ _ Eloop) as Hidx. simpl in Hidx.
  apply forLoop_early in Eloop as (s0 & va & Eb); [|simpl; lia]. simpl in Eb.
  apply solveStep_break_inv in Eb as [Eg Hn].
  unfold vnmf.gradient in Eg. ostep Eg. ostep Eg.
  exists H', G', wT, WtV, WtW, a, a0.
  do 7 (split; [done|]). split; [by apply apply_decFilt_masked|done].
Qed.

Lemma nnlsSubproblem_converged_witness :
  exists mH mG,
    cells (heap exTightResult.2) !! exTightResult.1.1.1.1 = Some mH /\
    cells (heap exTightResult.2) !! exTightResult.1.1.1.2 = Some mG /\
    (matrix.norm mG <? 1000)%float = true.
Proof.
  destruct (nnlsSubproblem_converged 0 1 2 1000%float 10 20 exWorld
              exTightResult.1.1.1.1 exTightResult.1.1.1.2 exTightResult.1.1.2
              exTightResult.1.2 exTightResult.2 exV exWo exHo)
    as (mH & mG & _ & _ & _ & _ & _ & HH & HG & _ & _ & _ & _ & _ & _ & Hn).
  - reflexivity.
  - reflexivity.
  - reflexivity.
  - vm_compute. reflexivity.
  - vm_compute. reflexivity.
  - exists mH, mG. split; [exact HH|]. split; [exact HG|exact Hn].
Defined.
